(** * Improved Dense Trajectories: the descriptor-to-Fisher-vector pipeline

    A shallow embedding of [run_idt.py]: the Fisher encoder
    ([fisher_vector]), the channel pipeline ([fisher_descriptor]), the
    feature tables ([add_row_to_table], [save_as_csv]), the natural sort
    ([sorted_alphanumeric]) and the corpus loop ([main]).

    Conventions.
    - float64 values are an abstract carrier [R] with the arithmetic
      operations the script uses; no algebraic law is assumed of them, so
      every equation below is an equation between the very expressions the
      script evaluates.
    - A Python exception is a value of [exn]; a computation that may raise
      returns a [result].
    - scikit-learn ([PCA], [GaussianMixture]), OpenCV and [densetrack] are
      not part of the script: they are operations of the classes [Sklearn]
      and [Tracker], and what is assumed of them is stated where it is
      used.  The fits draw from numpy's global random generator, whose
      state at each fit is an input of the run ([generator]), and a write
      to the disk may fail ([Disk]).
    - A string is the sequence of its code points, each below 256. *)

From Stdlib Require Import List Arith Lia Bool String Ascii QArith.
From Stdlib Require Import Permutation Sorted.
From stdpp Require Import base gmap strings pretty.
Import ListNotations.

Local Open Scope nat_scope.
Local Open Scope list_scope.

(** ** Exceptions *)

Inductive exn : Type :=
| IndexError
| ValueError
| TypeError
| UnboundLocalError
| OSError
| ExternalError (what : string).

Inductive result (A : Type) : Type :=
| Ok (a : A)
| Raise (e : exn).
Arguments Ok {A} a.
Arguments Raise {A} e.

#[export] Instance result_ret : MRet result := fun A a => Ok a.
#[export] Instance result_bind : MBind result := fun A B k c =>
  match c with
  | Ok a => k a
  | Raise e => Raise e
  end.

Fixpoint zipWithM {A B C} (f : A -> B -> result C) (u : list A) (v : list B)
  : result (list C) :=
  match u, v with
  | a :: u', b :: v' => c ← f a b; cs ← zipWithM f u' v'; Ok (c :: cs)
  | _, _ => Ok []
  end.

(** ** Scalars and two-dimensional arrays *)

(** The float64 operations of the script: literals that come from Python
    integers ([N], [2]), [+], binary and unary [-], [*], [/]. *)
Class Scalar (R : Type) : Type := {
  s_zero : R;
  s_of_nat : nat -> R;
  s_add : R -> R -> R;
  s_sub : R -> R -> R;
  s_mul : R -> R -> R;
  s_div : R -> R -> R;
  s_neg : R -> R
}.

#[export] Instance Scalar_Q : Scalar Q := {|
  s_zero := 0%Q;
  s_of_nat := fun n => inject_Z (Z.of_nat n);
  s_add := Qplus;
  s_sub := Qminus;
  s_mul := Qmult;
  s_div := Qdiv;
  s_neg := Qopp
|}.

Module Np.
Section Arrays.
Context {R : Type} `{Scalar R}.

(** A 2-D array is the list of its rows; a 1-D array is a list. *)
Definition vector := list R.
Definition matrix := list (list R).

(** [m.shape[1]] of a 2-D array with at least one row. *)
Definition ncols (m : matrix) : nat := length (hd [] m).

(** [m] has shape [(n, d)]. *)
Definition mshape (n d : nat) (m : matrix) : Prop :=
  length m = n /\ Forall (fun r => length r = d) m.

Definition mshapeb (n d : nat) (m : matrix) : bool :=
  (length m =? n) && forallb (fun r => length r =? d) m.

(** Sum of a 1-D array (left to right, from zero). *)
Definition vsum (v : vector) : R := fold_left s_add v s_zero.

(** [m[:, j]]. *)
Definition column (j : nat) (m : matrix) : vector :=
  map (fun r => nth j r s_zero) m.

(** [np.sum(m, 0)]: one sum per column. *)
Definition sum_axis0 (m : matrix) : vector :=
  map (fun j => vsum (column j m)) (seq 0 (ncols m)).

(** [v[:, np.newaxis]]: shape [(K,)] to shape [(K, 1)]. *)
Definition newaxis (v : vector) : matrix := map (fun x => [x]) v.

(** [m.squeeze()] of a [(K, 1)] array: shape [(K,)].  (For [K = 1] numpy
    gives a 0-d array, which broadcasts like a 1-element vector.) *)
Definition squeeze (m : matrix) : vector := map (fun r => hd s_zero r) m.

(** [m / N] with [N] a Python integer. *)
Definition div_int (m : matrix) (N : nat) : matrix :=
  map (map (fun x => s_div x (s_of_nat N))) m.

(** [2 * m]. *)
Definition int_mul (c : nat) (m : matrix) : matrix :=
  map (map (fun x => s_mul (s_of_nat c) x)) m.

(** [m ** 2], element-wise. *)
Definition square (m : matrix) : matrix := map (map (fun x => s_mul x x)) m.

(** [- m]. *)
Definition neg (m : matrix) : matrix := map (map s_neg) m.

(** [m.T]. *)
Definition transpose (m : matrix) : matrix :=
  map (fun j => column j m) (seq 0 (ncols m)).

Definition inner (u v : vector) : R :=
  vsum (map (fun p => s_mul (fst p) (snd p)) (combine u v)).

(** [np.dot(a, b)] of 2-D arrays: [ValueError] unless the inner
    dimensions agree. *)
Definition dot (a b : matrix) : result matrix :=
  if ncols a =? length b
  then Ok (map (fun r => map (fun j => inner r (column j b))
                             (seq 0 (ncols b))) a)
  else Raise ValueError.

(** numpy broadcasting along one axis: equal lengths pair up, a length-1
    side is repeated, anything else is a [ValueError]. *)
Definition broadcast {A B C} (f : A -> B -> result C)
           (u : list A) (v : list B) : result (list C) :=
  if length u =? length v then zipWithM f u v
  else match u, v with
       | [a], _ => mapM (f a) v
       | _, [b] => mapM (fun a => f a b) u
       | _, _ => Raise ValueError
       end.

(** An element-wise binary operation on 1-D and on 2-D arrays. *)
Definition ew1 (op : R -> R -> R) (u v : vector) : result vector :=
  broadcast (fun a b => Ok (op a b)) u v.

Definition ew2 (op : R -> R -> R) (a b : matrix) : result matrix :=
  broadcast (ew1 op) a b.

(** [m.flatten()] of a 2-D array (row-major). *)
Definition flatten2 (m : matrix) : vector := concat m.

(** [np.hstack] of 1-D arrays. *)
Definition hstack (vs : list vector) : vector := concat vs.

End Arrays.
End Np.

(** ** N-dimensional arrays

    What [np.array] builds from nested sequences: a scalar, or the list of
    the sub-arrays along the first axis. *)

#[warnings="-register-all"]
Inductive ndarray (R : Type) : Type :=
| Num (x : R)
| Arr (items : list (ndarray R)).
Arguments Num {R} x.
Arguments Arr {R} items.

Module Nd.
Section NdArrays.
Context {R : Type}.

(** [a.shape], read along the first item of every axis. *)
Fixpoint shape (a : ndarray R) : list nat :=
  match a with
  | Num _ => []
  | Arr items =>
      length items :: match items with
                      | [] => []
                      | x :: _ => shape x
                      end
  end.

(** [a.ndim]. *)
Definition ndim (a : ndarray R) : nat := length (shape a).

(** [a.shape[i]]: [IndexError] past the last axis. *)
Definition shape_at (a : ndarray R) (i : nat) : result nat :=
  match nth_error (shape a) i with
  | Some n => Ok n
  | None => Raise IndexError
  end.

(** Iteration over the first axis ([for d in a]). *)
Definition items (a : ndarray R) : list (ndarray R) :=
  match a with
  | Num _ => []
  | Arr l => l
  end.

(** [a.flatten()]: the elements in row-major order. *)
Fixpoint flatten (a : ndarray R) : list R :=
  match a with
  | Num x => [x]
  | Arr l => concat (map flatten l)
  end.

(** A 1-D array from a list of scalars, a 2-D array from a list of rows. *)
Definition of_vector (v : list R) : ndarray R := Arr (map Num v).
Definition of_matrix (m : list (list R)) : ndarray R := Arr (map of_vector m).

(** [a] is rectangular of shape [sh]. *)
Fixpoint has_shape (sh : list nat) (a : ndarray R) : Prop :=
  match sh, a with
  | [], Num _ => True
  | n :: sh', Arr l => length l = n /\ Forall (has_shape sh') l
  | _, _ => False
  end.

Fixpoint has_shapeb (sh : list nat) (a : ndarray R) : bool :=
  match sh, a with
  | [], Num _ => true
  | n :: sh', Arr l => (length l =? n) && forallb (has_shapeb sh') l
  | _, _ => false
  end.

(** The rows of a 2-D array. *)
Definition as_vector (a : ndarray R) : option (list R) :=
  match a with
  | Arr l => mapM (fun x => match x with Num v => Some v | Arr _ => None end) l
  | Num _ => None
  end.

Definition as_matrix (a : ndarray R) : option (list (list R)) :=
  match a with
  | Arr l => mapM as_vector l
  | Num _ => None
  end.

(** The number of elements of an array of shape [sh]. *)
Definition size (sh : list nat) : nat := fold_right Nat.mul 1 sh.

(** A multi-index within the bounds of a shape. *)
Definition in_bounds (idx sh : list nat) : Prop := Forall2 lt idx sh.

(** Row-major offset of a multi-index in an array of shape [sh], and the
    element a multi-index selects ([a[i1][i2]...]). *)
Fixpoint offset (sh : list nat) (idx : list nat) : nat :=
  match sh, idx with
  | _ :: sh', i :: idx' => i * size sh' + offset sh' idx'
  | _, _ => 0
  end.

Fixpoint select (a : ndarray R) (idx : list nat) : option R :=
  match idx, a with
  | [], Num x => Some x
  | i :: idx', Arr l =>
      match nth_error l i with
      | Some x => select x idx'
      | None => None
      end
  | _, _ => None
  end.

(** [np.reshape(v, sh)] of a flat list: the inverse of [flatten] on arrays
    of shape [sh]. *)
Fixpoint chunks (k : nat) (n : nat) (v : list R) : list (list R) :=
  match n with
  | O => []
  | S n' => firstn k v :: chunks k n' (skipn k v)
  end.

Fixpoint reshape (sh : list nat) (v : list R) : ndarray R :=
  match sh with
  | [] => match v with
          | x :: _ => Num x
          | [] => Arr []
          end
  | n :: sh' => Arr (map (reshape sh') (chunks (size sh') n v))
  end.

End NdArrays.
End Nd.

(** ** scikit-learn *)

(** A fitted diagonal-covariance mixture: [weights_] of shape [(K,)],
    [means_] and [covariances_] of shape [(K, d)]. *)
Record GaussianMixture (R : Type) : Type := {
  weights_ : list R;
  means_ : list (list R);
  covariances_ : list (list R)
}.
Arguments weights_ {R} g.
Arguments means_ {R} g.
Arguments covariances_ {R} g.

(** The three calls the script makes:
    [PCA(n_components=n).fit(X).transform(X)],
    [GaussianMixture(n_components=K, covariance_type='diag').fit(Y)] and
    [gmm.predict_proba(X)].

    The script passes no [random_state], so the two fits draw from
    numpy's global generator and fitting the same data twice need not
    give the same result: a fit takes the state the generator is in when
    it starts.  [generator i c] is that state for the fit of descriptor
    block number [c] of video number [i] of the run. *)
Class Sklearn (R : Type) : Type := {
  RandomState : Type;
  generator : nat -> nat -> RandomState;
  PCA_fit_transform :
    RandomState -> nat -> ndarray R -> result (list (list R));
  GMM_fit :
    RandomState -> nat -> list (list R) -> result (GaussianMixture R);
  predict_proba : GaussianMixture R -> list (list R) -> result (list (list R))
}.

(** The mixture [g] has [K] components over dimension [d]. *)
Definition gmm_shape {R} (K d : nat) (g : GaussianMixture R) : Prop :=
  length (weights_ g) = K /\
  length (means_ g) = K /\ Forall (fun r => length r = d) (means_ g) /\
  length (covariances_ g) = K /\
  Forall (fun r => length r = d) (covariances_ g).

Definition gmm_shapeb {R} (K d : nat) (g : GaussianMixture R) : bool :=
  (length (weights_ g) =? K)
  && (length (means_ g) =? K) && forallb (fun r => length r =? d) (means_ g)
  && (length (covariances_ g) =? K)
  && forallb (fun r => length r =? d) (covariances_ g).

(** The shapes scikit-learn documents for what these calls return. *)
Record SklearnShapes {R} `{Sklearn R} : Prop := {
  pca_shape : forall rs n X Y N D,
    PCA_fit_transform rs n X = Ok Y -> Nd.has_shape [N; D] X ->
    length Y = N /\ Forall (fun r => length r = n) Y;
  gmm_fit_shape : forall rs K Y g N d,
    GMM_fit rs K Y = Ok g -> length Y = N ->
    Forall (fun r => length r = d) Y ->
    gmm_shape K d g;
  proba_shape : forall g X Q N K d,
    predict_proba g X = Ok Q ->
    length X = N -> Forall (fun r => length r = d) X -> gmm_shape K d g ->
    length Q = N /\ Forall (fun r => length r = K) Q
}.
Arguments SklearnShapes R {_}.

(** ** Configuration (the constants at the top of the script) *)

Record Config : Type := {
  HOG_FISHER_VECTOR : bool;
  HOF_FISHER_VECTOR : bool;
  MBH_FISHER_VECTOR : bool;
  K : nat
}.

Definition script_config : Config := {|
  HOG_FISHER_VECTOR := true;
  HOF_FISHER_VECTOR := true;
  MBH_FISHER_VECTOR := true;
  K := 128
|}.

Definition DATA_DIRECTORY : string := "data".
Definition TARGET_DIRECTORY : string := "features".

(** ** The Fisher encoder and the channel pipeline *)

Section Pipeline.
Context {R : Type} `{Scalar R} `{Sklearn R}.
Import Np.

(** The body of [fisher_vector] up to the final [np.hstack]: the three
    gradients [(d_pi, d_mu, d_sigma)].  [np.atleast_2d] leaves a 2-D array
    as it is. *)
Definition fisher_gradients (xx : matrix) (gmm : GaussianMixture R)
  : result (vector * matrix * matrix) :=
  let N := length xx in
  Q ← predict_proba gmm xx;
  let Q_sum := div_int (newaxis (sum_axis0 Q)) N in
  Q_xx ← (m ← dot (transpose Q) xx; Ok (div_int m N));
  Q_xx_2 ← (m ← dot (transpose Q) (square xx); Ok (div_int m N));
  d_pi ← ew1 s_sub (squeeze Q_sum) (weights_ gmm);
  d_mu ← (t ← ew2 s_mul Q_sum (means_ gmm); ew2 s_sub Q_xx t);
  d_sigma ← (a ← ew2 s_mul Q_sum (square (means_ gmm));
             b ← ew2 s_sub (neg Q_xx_2) a;
             c ← ew2 s_mul Q_sum (covariances_ gmm);
             e ← ew2 s_add b c;
             f ← ew2 s_mul (int_mul 2 Q_xx) (means_ gmm);
             ew2 s_add e f);
  Ok (d_pi, d_mu, d_sigma).

Definition fisher_vector (xx : matrix) (gmm : GaussianMixture R)
  : result vector :=
  '(d_pi, d_mu, d_sigma) ← fisher_gradients xx gmm;
  Ok (hstack [d_pi; flatten2 d_mu; flatten2 d_sigma]).

(** [np.array([d.flatten() for d in descriptor])]. *)
Definition flatten_rows (descriptor : ndarray R) : ndarray R :=
  Arr (map (fun d => Nd.of_vector (Nd.flatten d)) (Nd.items descriptor)).

(** [int(D / 2)] for an array dimension [D]. *)
Definition half (D : nat) : nat := D / 2.

(** The array handed to PCA: flattened per row when it has more than two
    dimensions.  ([feature_dim] is computed there and never used.) *)
Definition as_2d (descriptor : ndarray R) : ndarray R :=
  if 2 <? Nd.ndim descriptor then flatten_rows descriptor else descriptor.

(** The dimensionality reducer: the PCA call of [fisher_descriptor]. *)
Definition reduce (rs : RandomState) (descriptor : ndarray R)
  : result matrix :=
  D ← Nd.shape_at descriptor 1;
  PCA_fit_transform rs (half D) descriptor.

(** [fisher_descriptor(descriptor)], called with the generator in state
    [rs]. *)
Definition fisher_descriptor (cfg : Config) (rs : RandomState)
           (descriptor : ndarray R) : result vector :=
  let descriptor := as_2d descriptor in
  descriptor_pca ← reduce rs descriptor;
  gmm ← GMM_fit rs (K cfg) descriptor_pca;
  fisher_vector descriptor_pca gmm.

End Pipeline.

(** ** Index notation

    Arrays written as tables of their entries, and the statistics of the
    Fisher encoder as the specification words them. *)

Section IndexNotation.
Context {R : Type} `{Scalar R}.

(** The 1-D array [f 0, ..., f (n-1)] and the 2-D array of the [f i j]. *)
Definition tab1 {A} (n : nat) (f : nat -> A) : list A := map f (seq 0 n).
Definition tab2 {A} (n d : nat) (f : nat -> nat -> A) : list (list A) :=
  tab1 n (fun i => tab1 d (f i)).

(** [v[i]] and [m[i, j]]. *)
Definition at1 (v : list R) (i : nat) : R := nth i v s_zero.
Definition at2 (m : list (list R)) (i j : nat) : R := nth j (nth i m []) s_zero.

(** The mean over [n = 0 .. N-1] of [f n]. *)
Definition mean (N : nat) (f : nat -> R) : R :=
  s_div (Np.vsum (tab1 N f)) (s_of_nat N).

End IndexNotation.

(** The statistics and gradients of the Fisher encoder as the
    specification states them, for responsibilities [Qm] of shape [(N, K)],
    descriptors [X] of shape [(N, d)] and a mixture [g]. *)
Module FisherSpec.
Section Stated.
Context {R : Type} `{Scalar R}.
Variables (N : nat) (Qm X : list (list R)) (g : GaussianMixture R).

(** [S0[k] = mean_n Q[n,k]] *)
Definition S0 (k : nat) : R := mean N (fun n => at2 Qm n k).

(** [S1[k,:] = mean_n Q[n,k] * X[n,:]] *)
Definition S1 (k j : nat) : R :=
  mean N (fun n => s_mul (at2 Qm n k) (at2 X n j)).

(** [S2[k,:] = mean_n Q[n,k] * X[n,:]^2] *)
Definition S2 (k j : nat) : R :=
  mean N (fun n => s_mul (at2 Qm n k) (s_mul (at2 X n j) (at2 X n j))).

(** [d_pi[k] = S0[k] - pi[k]] *)
Definition d_pi (k : nat) : R := s_sub (S0 k) (at1 (weights_ g) k).

(** [d_mu[k,:] = S1[k,:] - S0[k] * mu[k,:]] *)
Definition d_mu (k j : nat) : R :=
  s_sub (S1 k j) (s_mul (S0 k) (at2 (means_ g) k j)).

(** [d_sigma[k,:] = - S2[k,:] - S0[k] * mu[k,:]^2 + S0[k] * sigma2[k,:]
                    + 2 * S1[k,:] * mu[k,:]] *)
Definition d_sigma (k j : nat) : R :=
  s_add
    (s_add
       (s_sub (s_neg (S2 k j))
              (s_mul (S0 k) (s_mul (at2 (means_ g) k j) (at2 (means_ g) k j))))
       (s_mul (S0 k) (at2 (covariances_ g) k j)))
    (s_mul (s_mul (s_of_nat 2) (S1 k j)) (at2 (means_ g) k j)).

End Stated.
End FisherSpec.

(** ** Natural sort of file names ([sorted_alphanumeric])

    A file name is a Python [str] and a character of it is a code point,
    not a byte of an encoding: the one-character name made of the
    superscript two is the string of the single code 178.  The names of
    the embedding are the strings of code points below 256, and on those
    [str.isdigit], [str.lower], [int] and the order of strings are
    written out in full. *)

Module Natsort.

(** An element of a sort key: a Python [int] or a Python [str]. *)
Inductive piece : Type :=
| PInt (n : N)
| PStr (s : string).

(** [[0-9]] of the regular expression, and the decimal digits [int]
    reads: the ten ASCII digits. *)
Definition is_digit (c : ascii) : bool :=
  (48 <=? nat_of_ascii c) && (nat_of_ascii c <=? 57).

(** The characters [str.isdigit] accepts, those of Unicode numeric type
    Decimal or Digit: below 256 the ASCII digits and the superscripts
    two, three and one (U+00B2, U+00B3, U+00B9). *)
Definition is_unicode_digit (c : ascii) : bool :=
  let n := nat_of_ascii c in
  is_digit c || (n =? 178) || (n =? 179) || (n =? 185).

Definition is_ascii (s : string) : Prop :=
  forallb (fun c => nat_of_ascii c <? 128) (list_ascii_of_string s) = true.

(** [text.isdigit()]. *)
Definition isdigit (text : string) : bool :=
  match text with
  | EmptyString => false
  | _ => forallb is_unicode_digit (list_ascii_of_string text)
  end.

(** The lowercase of a character: A..Z and the capital letters of
    U+00C0..U+00DE (all of that range but the multiplication sign U+00D7)
    move up by 32; every other character below 256 stays. *)
Definition lower_char (c : ascii) : ascii :=
  let n := nat_of_ascii c in
  if ((65 <=? n) && (n <=? 90))
     || ((192 <=? n) && (n <=? 222) && negb (n =? 215))
  then ascii_of_nat (n + 32) else c.

(** [text.lower()]. *)
Fixpoint lower (text : string) : string :=
  match text with
  | EmptyString => EmptyString
  | String c s => String (lower_char c) (lower s)
  end.

(** The value of a string of decimal digits. *)
Definition int_of_digits (text : string) : N :=
  fold_left (fun acc c => (acc * 10 + (N_of_ascii c - 48))%N)
            (list_ascii_of_string text) 0%N.

(** [int(text)] for a [text] that [isdigit] accepts: the value of a
    string of decimal digits; a superscript digit is no decimal digit and
    gives [ValueError]. *)
Definition int (text : string) : result N :=
  match text with
  | EmptyString => Raise ValueError
  | _ => if forallb is_digit (list_ascii_of_string text)
         then Ok (int_of_digits text)
         else Raise ValueError
  end.

(** [re.split('([0-9]+)', key)]: the text before the first run of digits,
    then alternately a run of digits and the text after it.  [cur] is the
    piece being read and [in_run] tells whether it is a run of digits. *)
Fixpoint re_split_go (s : string) (cur : string) (in_run : bool)
  : list string :=
  match s with
  | EmptyString => if in_run then [cur; EmptyString] else [cur]
  | String c s' =>
      if is_digit c then
        if in_run then re_split_go s' (cur +:+ String c EmptyString) true
        else cur :: re_split_go s' (String c EmptyString) true
      else
        if in_run then cur :: re_split_go s' (String c EmptyString) false
        else re_split_go s' (cur +:+ String c EmptyString) false
  end.

Definition re_split (key : string) : list string :=
  re_split_go key EmptyString false.

(** [convert = lambda text: int(text) if text.isdigit() else text.lower()] *)
Definition convert (text : string) : result piece :=
  if isdigit text then n ← int text; Ok (PInt n)
  else Ok (PStr (lower text)).

(** [alphanum_key = lambda key: [convert(c) for c in re.split(...)]] *)
Definition alphanum_key (key : string) : result (list piece) :=
  mapM convert (re_split key).

(** Python's [==] and [<] on key elements: an [int] never equals a [str],
    and ordering one against the other is a [TypeError]. *)
Definition piece_eqb (a b : piece) : bool :=
  match a, b with
  | PInt m, PInt n => (m =? n)%N
  | PStr s, PStr t => String.eqb s t
  | _, _ => false
  end.

Definition piece_lt (a b : piece) : result bool :=
  match a, b with
  | PInt m, PInt n => Ok (m <? n)%N
  | PStr s, PStr t => Ok (String.ltb s t)
  | _, _ => Raise TypeError
  end.

(** Python's [<] on lists: the first pair of unequal elements decides; if
    there is none, the shorter list is the smaller. *)
Fixpoint key_lt (u v : list piece) : result bool :=
  match u, v with
  | [], [] => Ok false
  | [], _ :: _ => Ok true
  | _ :: _, [] => Ok false
  | a :: u', b :: v' => if piece_eqb a b then key_lt u' v' else piece_lt a b
  end.

(** [sorted(data, key=...)]: the keys of all elements are computed first,
    in order; then a stable sort of the elements by their keys, each
    element going behind the elements already placed that are not greater
    than it. *)
Fixpoint insert_by_key {A} (k : list piece) (x : A)
         (l : list (list piece * A)) : result (list (list piece * A)) :=
  match l with
  | [] => Ok [(k, x)]
  | (k', y) :: l' =>
      b ← key_lt k k';
      if (b : bool) then Ok ((k, x) :: (k', y) :: l')
      else r ← insert_by_key k x l'; Ok ((k', y) :: r)
  end.

Fixpoint sort_into {A} (acc : list (list piece * A))
         (data : list (list piece * A)) : result (list (list piece * A)) :=
  match data with
  | [] => Ok acc
  | (k, x) :: data' => acc' ← insert_by_key k x acc; sort_into acc' data'
  end.

Definition sorted_alphanumeric (data : list string) : result (list string) :=
  keys ← mapM alphanum_key data;
  r ← sort_into [] (combine keys data);
  Ok (map snd r).

(** A key lists a text, then alternately a number and a text:
    [layout false] holds of such a list, [layout true] of its tails that
    start with a number. *)
Fixpoint layout (number_next : bool) (k : list piece) : Prop :=
  match k with
  | [] => True
  | PInt _ :: k' => number_next = true /\ layout false k'
  | PStr _ :: k' => number_next = false /\ layout true k'
  end.

(** The comparison Python makes on two keys of one layout, where no
    number ever meets a text: lexicographic, numbers by value, texts by
    code point. *)
Definition piece_ltb (a b : piece) : bool :=
  match a, b with
  | PInt m, PInt n => (m <? n)%N
  | PStr s, PStr t => String.ltb s t
  | PInt _, PStr _ => true
  | PStr _, PInt _ => false
  end.

Fixpoint key_ltb (u v : list piece) : bool :=
  match u, v with
  | [], [] => false
  | [], _ :: _ => true
  | _ :: _, [] => false
  | a :: u', b :: v' => if piece_eqb a b then key_ltb u' v' else piece_ltb a b
  end.



(** The same stable sort, written with that comparison. *)
Fixpoint insert_pure {A} (k : list piece) (x : A)
         (l : list (list piece * A)) : list (list piece * A) :=
  match l with
  | [] => [(k, x)]
  | (k', y) :: l' =>
      if key_ltb k k' then (k, x) :: (k', y) :: l'
      else (k', y) :: insert_pure k x l'
  end.

Fixpoint sort_pure {A} (acc : list (list piece * A))
         (data : list (list piece * A)) : list (list piece * A) :=
  match data with
  | [] => acc
  | (k, x) :: data' => sort_pure (insert_pure k x acc) data'
  end.

(** Every key of a decorated list has the layout of a key; every name is
    decorated with its own key. *)
Definition keys_layout {A} (l : list (list piece * A)) : Prop :=
  Forall (fun p => layout false (fst p)) l.

Definition decorated (l : list (list piece * string)) : Prop :=
  Forall (fun p => alphanum_key (snd p) = Ok (fst p)) l.

(** Decorated elements, ordered by their keys. *)
Definition keyed_le {A} (p q : list piece * A) : Prop :=
  key_ltb (fst q) (fst p) = false.

(** Texts without a decimal digit, and non-empty runs of decimal
    digits. *)
Definition no_digit (s : string) : Prop :=
  forallb (fun c => negb (is_digit c)) (list_ascii_of_string s) = true.

Definition digits (s : string) : Prop :=
  s <> EmptyString /\ forallb is_digit (list_ascii_of_string s) = true.

End Natsort.

(** ** [os.path] on names without a directory part *)

Module OsPath.

Definition dot : ascii := "."%char.
Definition slash : ascii := "/"%char.

(** [os.path.split(p)[1]]: what follows the last slash. *)
Fixpoint tail_go (p : string) (cur : string) : string :=
  match p with
  | EmptyString => cur
  | String c p' =>
      if Ascii.eqb c slash then tail_go p' EmptyString
      else tail_go p' (cur +:+ String c EmptyString)
  end.

Definition split_tail (p : string) : string := tail_go p EmptyString.

(** Index of the last dot. *)
Fixpoint rfind_dot (l : list ascii) (i : nat) (found : option nat)
  : option nat :=
  match l with
  | [] => found
  | c :: l' => rfind_dot l' (S i) (if Ascii.eqb c dot then Some i else found)
  end.

(** [os.path.splitext(p)[0]] for [p] without a slash: cut at the last dot,
    unless only dots come before it. *)
Definition splitext_root (p : string) : string :=
  let l := list_ascii_of_string p in
  match rfind_dot l 0 None with
  | Some i =>
      if existsb (fun c => negb (Ascii.eqb c dot)) (firstn i l)
      then string_of_list_ascii (firstn i l)
      else p
  | None => p
  end.

(** [os.path.join(a, b)] for a relative [b]. *)
Definition join (a b : string) : string := a +:+ "/" +:+ b.

End OsPath.

(** [name = os.path.splitext(os.path.split(file)[1])[0]] *)
Definition video_name (file : string) : string :=
  OsPath.splitext_root (OsPath.split_tail file).

(** ** Feature tables (pandas) *)

Inductive cell (R : Type) : Type :=
| CStr (s : string)
| CFloat (x : R)
| CNaN.
Arguments CStr {R} s.
Arguments CFloat {R} x.
Arguments CNaN {R}.

(** A data frame: its column labels and its rows, one cell per column. *)
Record DataFrame (R : Type) : Type := {
  columns : list string;
  rows : list (list (cell R))
}.
Arguments columns {R} d.
Arguments rows {R} d.

(** [str(i)]. *)
Definition str (i : nat) : string := pretty i.

Section Tables.
Context {R : Type}.

(** [pd.DataFrame()]. *)
Definition new_frame : DataFrame R := {| columns := []; rows := [] |}.

(** [data_frame.empty]: some axis has length 0. *)
Definition empty (data_frame : DataFrame R) : bool :=
  (length (columns data_frame) =? 0) || (length (rows data_frame) =? 0).

(** [new_row_data[str(i)] = val]. *)
Definition set_feature (d : gmap string (cell R)) (iv : nat * R)
  : gmap string (cell R) :=
  <[str (fst iv) := CFloat (snd iv)]> d.

(** [{'name': name}] and then [new_row_data[str(i)] = val] for every
    [(i, val)] of [enumerate(features)]. *)
Definition new_row_data (name : string) (features : list R)
  : gmap string (cell R) :=
  fold_left set_feature (combine (seq 0 (length features)) features)
            {[ "name" := CStr name ]}.

(** [pd.DataFrame([row], columns=cols)]: the row read at the labels
    [cols], a missing label giving NaN. *)
Definition row_at (cols : list string) (row : gmap string (cell R))
  : list (cell R) :=
  map (fun c => default CNaN (row !! c)) cols.

Definition add_row_to_table (data_frame : DataFrame R) (name : string)
           (features : list R) : DataFrame R :=
  let data_frame :=
    if empty data_frame
    then {| columns := "name" :: map str (seq 0 (length features));
            rows := [] |}
    else data_frame in
  {| columns := columns data_frame;
     rows := rows data_frame
             ++ [row_at (columns data_frame) (new_row_data name features)] |}.

(** The table after appending, in order, one row per entry. *)
Definition add_rows (data_frame : DataFrame R)
           (entries : list (string * list R)) : DataFrame R :=
  fold_left (fun d e => add_row_to_table d (fst e) (snd e)) entries data_frame.

(** A table that has a row starts with the [name] column. *)
Definition named (data_frame : DataFrame R) : Prop :=
  empty data_frame = true \/
  exists cols, columns data_frame = "name" :: cols.

(** The [name] column of a table. *)
Definition name_column (data_frame : DataFrame R) : list (cell R) :=
  map (hd CNaN) (rows data_frame).

End Tables.

(** The three descriptor channels. *)
Inductive channel : Type := HOG | HOF | MBH.

(** ** The outside world: video decoding, tracking, files, the terminal *)

(** OpenCV and [densetrack].  [capture file] is the frames
    [VideoCapture.read] delivers before it first reports failure;
    a trajectory record is the list of its fields. *)
Class Tracker (R : Type) : Type := {
  Frame : Type;
  capture : string -> list Frame;
  cvtColor_gray : Frame -> Frame;
  densetrack : list Frame -> result (list (list (ndarray R)))
}.

(** What [print] writes. *)
Inductive message : Type :=
| NoInputFiles
| Separator
| Running (file : string) (frames : nat)
| Completed (file : string)
| FilesCompleted (n : nat).

Record world (R : Type) : Type := {
  stdout : list message;
  csv_files : list (string * DataFrame R);
  npy_files : list (string * list (list (ndarray R)))
}.
Arguments stdout {R} w.
Arguments csv_files {R} w.
Arguments npy_files {R} w.

Definition new_world {R} : world R :=
  {| stdout := []; csv_files := []; npy_files := [] |}.

(** The file system.  A write may fail ([OSError] when the target
    directory is missing, the disk is full, ...): [write_error w path] is
    the exception the operating system answers to a write to [path] in
    the world [w], if any. *)
Class Disk (R : Type) : Type := {
  write_error : world R -> string -> option exn
}.

(** Modelled from the spec: the Trajectory Record, whose type
    [densetrack] declares outside the repository.  The specification has
    it as an "ordered tuple per record ending in four descriptor blocks
    (HOG, HOF, MBH-X, MBH-Y)", after the "scalar metadata"; the fields
    before the blocks are kept as they come. *)
Record TrajectoryRecord (R : Type) : Type := {
  metadata : list (ndarray R);
  hog : list R;
  hof : list R;
  mbh_x : list R;
  mbh_y : list R
}.
Arguments metadata {R} t.
Arguments hog {R} t.
Arguments hof {R} t.
Arguments mbh_x {R} t.
Arguments mbh_y {R} t.

(** The tuple [densetrack] delivers for a record. *)
Definition as_tuple {R} (r : TrajectoryRecord R) : list (ndarray R) :=
  metadata r
  ++ [Nd.of_vector (hog r); Nd.of_vector (hof r);
      Nd.of_vector (mbh_x r); Nd.of_vector (mbh_y r)].

(** A statement runs in a world and returns or raises; what it did to the
    world stays done when it raises. *)
Definition IO (R A : Type) : Type := world R -> result A * world R.

#[export] Instance IO_ret {R} : MRet (IO R) := fun A a w => (Ok a, w).
#[export] Instance IO_bind {R} : MBind (IO R) := fun A B k c w =>
  match c w with
  | (Ok a, w') => k a w'
  | (Raise e, w') => (Raise e, w')
  end.

Section Script.
Context {R : Type} `{Scalar R} `{Sklearn R} `{Tracker R} `{Disk R}.

Definition tracks : Type := list (list (ndarray R)).

Definition lift {A} (c : result A) : IO R A := fun w => (c, w).

Definition print (m : message) : IO R unit := fun w =>
  (Ok tt, {| stdout := stdout w ++ [m];
             csv_files := csv_files w;
             npy_files := npy_files w |}).

(** [data_frame.to_csv(path)]. *)
Definition to_csv (data_frame : DataFrame R) (path : string) : IO R unit :=
  fun w =>
  match write_error w path with
  | Some e => (Raise e, w)
  | None =>
      (Ok tt, {| stdout := stdout w;
                 csv_files := csv_files w ++ [(path, data_frame)];
                 npy_files := npy_files w |})
  end.

(** [np.save(path, tracks)]. *)
Definition np_save (path : string) (t : tracks) : IO R unit := fun w =>
  match write_error w path with
  | Some e => (Raise e, w)
  | None =>
      (Ok tt, {| stdout := stdout w;
                 csv_files := csv_files w;
                 npy_files := npy_files w ++ [(path, t)] |})
  end.

Definition read_video (file : string) : list Frame :=
  map cvtColor_gray (capture (OsPath.join DATA_DIRECTORY file)).

(** [record[-k]] for [k >= 1]. *)
Definition field_from_end (record : list (ndarray R)) (k : nat)
  : result (ndarray R) :=
  if k <=? length record
  then match nth_error record (length record - k) with
       | Some x => Ok x
       | None => Raise IndexError
       end
  else Raise IndexError.

(** [np.array([descriptors[i][-k] for i in range(descriptors.shape[0])])] *)
Definition read_block (k : nat) (descriptors : tracks) : result (ndarray R) :=
  l ← mapM (fun record => field_from_end record k) descriptors; Ok (Arr l).

Definition read_hog (descriptors : tracks) : result (ndarray R) :=
  read_block 5 descriptors.

Definition read_hof (descriptors : tracks) : result (ndarray R) :=
  read_block 4 descriptors.

Definition read_mbh (descriptors : tracks)
  : result (ndarray R * ndarray R) :=
  mbh_x_descriptors ← read_block 3 descriptors;
  mbh_y_descriptors ← read_block 2 descriptors;
  Ok (mbh_x_descriptors, mbh_y_descriptors).

Definition save_as_csv (data_frame : DataFrame R) (path : string)
  : IO R unit :=
  if negb (empty data_frame) then to_csv data_frame path else mret tt.

(** The three tables of [main]. *)
Record tables : Type := {
  hog_df : DataFrame R;
  hof_df : DataFrame R;
  mbh_df : DataFrame R
}.

Definition new_tables : tables :=
  {| hog_df := new_frame; hof_df := new_frame; mbh_df := new_frame |}.

(** The three [if ..._FISHER_VECTOR:] blocks of the body of the loop, in
    its turn number [i]; the four fits of a turn are numbered 0 to 3. *)
Definition hog_block (cfg : Config) (i : nat) (t : tracks) (name : string)
           (dfs : tables) : result tables :=
  if HOG_FISHER_VECTOR cfg then
    hog_descriptors ← read_hog t;
    hog_fv ← fisher_descriptor cfg (generator i 0) hog_descriptors;
    Ok {| hog_df := add_row_to_table (hog_df dfs) name hog_fv;
          hof_df := hof_df dfs;
          mbh_df := mbh_df dfs |}
  else Ok dfs.

Definition hof_block (cfg : Config) (i : nat) (t : tracks) (name : string)
           (dfs : tables) : result tables :=
  if HOF_FISHER_VECTOR cfg then
    hof_descriptors ← read_hof t;
    hof_fv ← fisher_descriptor cfg (generator i 1) hof_descriptors;
    Ok {| hog_df := hog_df dfs;
          hof_df := add_row_to_table (hof_df dfs) name hof_fv;
          mbh_df := mbh_df dfs |}
  else Ok dfs.

(** The MBH vector of one video: [np.concatenate((mbh_x_fv, mbh_y_fv))]. *)
Definition mbh_vector (cfg : Config) (i : nat) (t : tracks)
  : result (list R) :=
  '(mbh_x_descriptors, mbh_y_descriptors) ← read_mbh t;
  mbh_x_fv ← fisher_descriptor cfg (generator i 2) mbh_x_descriptors;
  mbh_y_fv ← fisher_descriptor cfg (generator i 3) mbh_y_descriptors;
  Ok (mbh_x_fv ++ mbh_y_fv).

Definition mbh_block (cfg : Config) (i : nat) (t : tracks) (name : string)
           (dfs : tables) : result tables :=
  if MBH_FISHER_VECTOR cfg then
    mbh_fv ← mbh_vector cfg i t;
    Ok {| hog_df := hog_df dfs;
          hof_df := hof_df dfs;
          mbh_df := add_row_to_table (mbh_df dfs) name mbh_fv |}
  else Ok dfs.

Definition any_channel (cfg : Config) : bool :=
  HOG_FISHER_VECTOR cfg || HOF_FISHER_VECTOR cfg || MBH_FISHER_VECTOR cfg.

(** The [else] branch of the loop body: the three blocks in turn. *)
Definition channel_blocks (cfg : Config) (i : nat) (t : tracks)
           (name : string) (dfs : tables) : result tables :=
  dfs ← hog_block cfg i t name dfs;
  dfs ← hof_block cfg i t name dfs;
  mbh_block cfg i t name dfs.

(** The blocks, the tables and the files, by channel. *)
Definition enabled (cfg : Config) (ch : channel) : bool :=
  match ch with
  | HOG => HOG_FISHER_VECTOR cfg
  | HOF => HOF_FISHER_VECTOR cfg
  | MBH => MBH_FISHER_VECTOR cfg
  end.

Definition table (ch : channel) (dfs : tables) : DataFrame R :=
  match ch with
  | HOG => hog_df dfs
  | HOF => hof_df dfs
  | MBH => mbh_df dfs
  end.

Definition csv_path (ch : channel) : string :=
  match ch with
  | HOG => "features/hog_features.csv"
  | HOF => "features/hof_features.csv"
  | MBH => "features/mbh_features.csv"
  end.

(** The vector a channel's block computes for the video of turn [i]. *)
Definition channel_vector (cfg : Config) (ch : channel) (i : nat)
           (t : tracks) : result (list R) :=
  match ch with
  | HOG => d ← read_hog t; fisher_descriptor cfg (generator i 0) d
  | HOF => d ← read_hof t; fisher_descriptor cfg (generator i 1) d
  | MBH => mbh_vector cfg i t
  end.

(** [vs] are the vectors of channel [ch] for the videos [files], in
    order, [files] being gone through from turn [i] on. *)
Fixpoint vectors_of (cfg : Config) (ch : channel) (i : nat)
         (files : list string) (vs : list (list R)) : Prop :=
  match files, vs with
  | [], [] => True
  | file :: files', v :: vs' =>
      (exists t, densetrack (read_video file) = Ok t /\
                 channel_vector cfg ch i t = Ok v) /\
      vectors_of cfg ch (S i) files' vs'
  | _, _ => False
  end.

(** One turn of the [for i, file in enumerate(...)] loop. *)
Definition process_video (cfg : Config) (i : nat) (file : string)
           (dfs : tables) : IO R tables :=
  let video := read_video file in
  _ ← print Separator;
  _ ← print (Running file (length video));
  t ← lift (densetrack video);
  let name := video_name file in
  dfs ← (if negb (any_channel cfg)
         then _ ← np_save (OsPath.join TARGET_DIRECTORY
                                       (name +:+ "-trajectory")) t;
              mret dfs
         else lift (channel_blocks cfg i t name dfs));
  _ ← print (Completed file);
  _ ← (if (i + 1) mod 10 =? 0 then print (FilesCompleted (i + 1))
       else mret tt);
  mret dfs.

Fixpoint corpus_loop (cfg : Config) (i : nat) (files : list string)
         (dfs : tables) : IO R tables :=
  match files with
  | [] => mret dfs
  | file :: files' =>
      dfs ← process_video cfg i file dfs;
      corpus_loop cfg (S i) files' dfs
  end.

(** Reading a local variable that only the [else] branch of [main]
    assigns: [None] stands for the branch not taken. *)
Definition load {A} (locals : option tables) (var : tables -> A) : IO R A :=
  match locals with
  | Some dfs => mret (var dfs)
  | None => lift (Raise UnboundLocalError)
  end.

(** The statements of [main] after the [if]/[else]: one [save_as_csv]
    per enabled channel. *)
Definition save_tables (cfg : Config) (locals : option tables) : IO R unit :=
  _ ← (if HOG_FISHER_VECTOR cfg
       then df ← load locals hog_df; save_as_csv df (csv_path HOG)
       else mret tt);
  _ ← (if HOF_FISHER_VECTOR cfg
       then df ← load locals hof_df; save_as_csv df (csv_path HOF)
       else mret tt);
  (if MBH_FISHER_VECTOR cfg
   then df ← load locals mbh_df; save_as_csv df (csv_path MBH)
   else mret tt).

(** [main], with [listing] for [os.listdir(DATA_DIRECTORY)]. *)
Definition main (cfg : Config) (listing : list string) : IO R unit :=
  locals ← (match listing with
            | [] => _ ← print NoInputFiles; mret None
            | _ :: _ =>
                files ← lift (Natsort.sorted_alphanumeric listing);
                dfs ← corpus_loop cfg 0 files new_tables;
                mret (Some dfs)
            end);
  save_tables cfg locals.

(** The files [save_tables] writes for tables [dfs]. *)
Definition written (cfg : Config) (dfs : tables)
  : list (string * DataFrame R) :=
  flat_map (fun ch => if enabled cfg ch && negb (empty (table ch dfs))
                      then [(csv_path ch, table ch dfs)] else [])
           [HOG; HOF; MBH].

(** Tables written one after the other, as the statements after the loop
    write those of [written]: a write that fails ends the run. *)
Fixpoint save_all (entries : list (string * DataFrame R)) : IO R unit :=
  match entries with
  | [] => mret tt
  | e :: entries' => _ ← to_csv (snd e) (fst e); save_all entries'
  end.

(** The number of frames [read_video] returns for a file. *)
Definition frames_of (file : string) : nat := length (read_video file).

End Script.

(** ** Further notions

    What the statements about tables, names and runs below speak of. *)

Section Notions.
Context {R : Type}.

(** Every row has one cell per column. *)
Definition rectangular (data_frame : DataFrame R) : Prop :=
  Forall (fun r => length r = length (columns data_frame)) (rows data_frame).

(** The cell a vector gives under the label [str j]: its component [j],
    or NaN past its end. *)
Definition cell_of (features : list R) (j : nat) : cell R :=
  match nth_error features j with
  | Some x => CFloat x
  | None => CNaN
  end.

End Notions.

(** Two keys tie when neither is smaller than the other; two names tie
    when their keys do; a decorated element is tied to a key when its key
    ties with it. *)
Definition tie (u v : list Natsort.piece) : bool :=
  negb (Natsort.key_ltb u v) && negb (Natsort.key_ltb v u).

Definition same_key (s t : string) : bool :=
  match Natsort.alphanum_key s, Natsort.alphanum_key t with
  | Ok u, Ok v => tie u v
  | _, _ => false
  end.

Definition tied {A} (k0 : list Natsort.piece) (p : list Natsort.piece * A)
  : bool :=
  tie (fst p) k0.

(** Pieces that are alternately a text without digits and a non-empty run
    of digits. *)
Fixpoint alternating (number_next : bool) (l : list string) : Prop :=
  match l with
  | [] => True
  | s :: l' =>
      (if number_next then Natsort.digits s else Natsort.no_digit s) /\
      alternating (negb number_next) l'
  end.

(** The string has no occurrence of the character. *)
Definition without (c : ascii) (s : string) : Prop :=
  forallb (fun a => negb (Ascii.eqb a c)) (list_ascii_of_string s) = true.

(** The string has a character other than the given one. *)
Definition not_only (c : ascii) (s : string) : Prop :=
  existsb (fun a => negb (Ascii.eqb a c)) (list_ascii_of_string s) = true.

(** Where the raw trajectories of a video are saved. *)
Definition trajectory_path (file : string) : string :=
  OsPath.join TARGET_DIRECTORY (video_name file +:+ "-trajectory").

(** What one turn of the loop prints when nothing raises, and what a loop
    over [files] starting at index [i] prints. *)
Definition progress (i : nat) (file : string) (frames : nat) : list message :=
  [Separator; Running file frames; Completed file]
  ++ (if (i + 1) mod 10 =? 0 then [FilesCompleted (i + 1)] else []).

Fixpoint progress_of (frames : string -> nat) (i : nat) (files : list string)
  : list message :=
  match files with
  | [] => []
  | file :: files' =>
      progress i file (frames file) ++ progress_of frames (S i) files'
  end.

(** ** A runnable setting

    Rational scalars, a stand-in for scikit-learn that refuses degenerate
    input and returns arrays of the documented shapes, and a stand-in
    tracker.  They serve to run the script on concrete inputs; the
    theorems about the script hold for every instance. *)

Module Sample.

(** Keeps the first [n] coordinates; refuses [n > min(N, D)]. *)
Definition pca (n : nat) (X : ndarray Q) : result (list (list Q)) :=
  match Nd.as_matrix X with
  | Some m =>
      if (1 <=? length m) && (n <=? Nat.min (length m) (Np.ncols m))
         && forallb (fun r => length r =? Np.ncols m) m
      then Ok (map (firstn n) m)
      else Raise ValueError
  | None => Raise ValueError
  end.

(** Equal weights, zero means, unit variances; refuses [K = 0], fewer
    than [K] samples and zero features. *)
Definition gmm_fit (K : nat) (Y : list (list Q)) : result (GaussianMixture Q) :=
  if (1 <=? K) && (K <=? length Y) && (1 <=? Np.ncols Y)
  then Ok {| weights_ := repeat (1 # Pos.of_nat K)%Q K;
             means_ := repeat (repeat 0%Q (Np.ncols Y)) K;
             covariances_ := repeat (repeat 1%Q (Np.ncols Y)) K |}
  else Raise ValueError.

(** Equal responsibilities; refuses an empty batch and a batch of another
    dimension than the mixture's. *)
Definition proba (g : GaussianMixture Q) (X : list (list Q))
  : result (list (list Q)) :=
  if (1 <=? length X)
     && forallb (fun r => length r =? Np.ncols (means_ g)) X
  then Ok (map (fun _ => repeat (1 # Pos.of_nat (length (weights_ g)))%Q
                                (length (weights_ g))) X)
  else Raise ValueError.

(** The stand-in fits make no use of the generator. *)
#[global] Instance sklearn : Sklearn Q := {|
  RandomState := unit;
  generator := fun _ _ => tt;
  PCA_fit_transform := fun _ => pca;
  GMM_fit := fun _ => gmm_fit;
  predict_proba := proba
|}.

Definition state : @RandomState Q sklearn := tt.

(** A disk that takes every write. *)
#[global] Instance disk : Disk Q := {|
  write_error := fun _ _ => None
|}.

(** [N] descriptors of dimension [d], and the mixture [gmm_fit] returns
    for [K] components over dimension [d]. *)
Definition descriptors (N d : nat) : list (list Q) :=
  tab2 N d (fun i j => inject_Z (Z.of_nat (i + j))).

Definition fitted (K d : nat) : GaussianMixture Q :=
  {| weights_ := repeat (1 # Pos.of_nat K)%Q K;
     means_ := repeat (repeat 0%Q d) K;
     covariances_ := repeat (repeat 1%Q d) K |}.

Definition responsibilities (N K : nat) : list (list Q) :=
  repeat (repeat (1 # Pos.of_nat K)%Q K) N.

(** Three trajectories whose descriptor block is a 2 x 2 patch. *)
Definition small_patches : ndarray Q :=
  Nd.reshape [3; 2; 2] (map (fun i => inject_Z (Z.of_nat i)) (seq 0 12)).

(** Two trajectories whose descriptor block is a 2 x 3 patch. *)
Definition patches : ndarray Q :=
  Nd.reshape [2; 2; 3] (map (fun i => inject_Z (Z.of_nat i)) (seq 0 12)).

(** A trajectory record: six scalars and a block of coordinates for
    metadata, then the four descriptor blocks, every block of [D]
    numbers. *)
Definition values (D : nat) (seed : nat) : list Q :=
  map (fun j => inject_Z (Z.of_nat (seed + j))) (seq 0 D).

Definition block (D : nat) (seed : nat) : ndarray Q :=
  Nd.of_vector (values D seed).

Definition trajectory (D : nat) (i : nat) : TrajectoryRecord Q := {|
  metadata := repeat (Num (inject_Z (Z.of_nat i))) 6 ++ [block D i];
  hog := values D (i + 1);
  hof := values D (i + 2);
  mbh_x := values D (i + 3);
  mbh_y := values D (i + 4)
|}.

Definition record (D : nat) (i : nat) : list (ndarray Q) :=
  as_tuple (trajectory D i).

Definition batch (N D : nat) : list (list (ndarray Q)) :=
  map (record D) (seq 0 N).

(** A video is its list of frames; a frame is a number.  The tracker finds
    one trajectory per frame, with blocks of 4 numbers. *)
#[global] Instance tracker : Tracker Q := {|
  Frame := nat;
  capture := fun file =>
    if String.eqb file "data/still.avi" then [] else seq 0 3;
  cvtColor_gray := fun f => f;
  densetrack := fun video => Ok (batch (length video) 4)
|}.

Definition small_config : Config := {|
  HOG_FISHER_VECTOR := true;
  HOF_FISHER_VECTOR := true;
  MBH_FISHER_VECTOR := true;
  K := 2
|}.

End Sample.

(** Further inputs to run the script on. *)
Module Cases.

(** No channel enabled: the script saves raw trajectories only. *)
Definition raw_config : Config := {|
  HOG_FISHER_VECTOR := false;
  HOF_FISHER_VECTOR := false;
  MBH_FISHER_VECTOR := false;
  K := 2
|}.

(** A mixture of two components whose weights have three entries. *)
Definition odd_mixture : GaussianMixture Q :=
  {| weights_ := [1 # 3; 1 # 3; 1 # 3]%Q;
     means_ := repeat (repeat 0%Q 2) 2;
     covariances_ := repeat (repeat 1%Q 2) 2 |}.

(** A library whose responsibilities always have two columns. *)
Definition sklearn : Sklearn Q := {|
  RandomState := unit;
  generator := fun _ _ => tt;
  PCA_fit_transform := fun _ => Sample.pca;
  GMM_fit := fun _ => Sample.gmm_fit;
  predict_proba := fun g X => Ok (Sample.responsibilities (length X) 2)
|}.

(** The superscript two, U+00B2, and a file name with it between two
    numbers. *)
Definition superscript_two : ascii := ascii_of_nat 178.

Definition squared : string :=
  "clip1" +:+ String superscript_two "2.avi".

(** The scenarios of the specification: every channel, [K = 4]. *)
Definition scenario_config : Config := {|
  HOG_FISHER_VECTOR := true;
  HOF_FISHER_VECTOR := true;
  MBH_FISHER_VECTOR := true;
  K := 4
|}.

(** Records with the block widths of the specification: three scalars,
    then HOG of 96, HOF of 108, MBH-X and MBH-Y of 96 numbers; and a
    batch of 54 of them. *)
Definition trajectory (i : nat) : TrajectoryRecord Q := {|
  metadata := repeat (Num (inject_Z (Z.of_nat i))) 3;
  hog := Sample.values 96 i;
  hof := Sample.values 108 (i + 1);
  mbh_x := Sample.values 96 (i + 2);
  mbh_y := Sample.values 96 (i + 3)
|}.

Definition trajectories : list (TrajectoryRecord Q) :=
  map trajectory (seq 0 54).

(** A disk with room for one table: a write fails once a table has been
    written. *)
Definition small_disk : Disk Q := {|
  write_error := fun w _ =>
    match csv_files w with
    | [] => None
    | _ :: _ => Some OSError
    end
|}.

(** A tracker that fails on every video. *)
Definition tracker : Tracker Q := {|
  Frame := nat;
  capture := fun file => seq 0 3;
  cvtColor_gray := fun f => f;
  densetrack := fun video => Raise (ExternalError "densetrack")
|}.

End Cases.

(** * Properties *)

(** ** The result monad *)

Lemma zipWithM_pure {A B C} (g : A -> B -> C) (u : list A) (v : list B) :
  zipWithM (fun a b => Ok (g a b)) u v
  = Ok (map (fun p => g (fst p) (snd p)) (combine u v)).
Proof.
  revert v; induction u as [|a u IH]; intros [|b v]; simpl; try reflexivity.
  rewrite IH. reflexivity.
Qed.

Lemma mapM_pure {A B} (g : A -> B) (l : list A) :
  mapM (fun a => Ok (g a)) l = Ok (map g l).
Proof.
  induction l as [|a l IH]; simpl; [reflexivity|].
  rewrite IH. reflexivity.
Qed.

Lemma mapM_Ok_length {A B} (f : A -> result B) (l : list A) (r : list B) :
  mapM f l = Ok r -> length r = length l.
Proof.
  revert r; induction l as [|a l IH]; simpl; intros r Hr.
  - injection Hr as <-. reflexivity.
  - destruct (f a) as [b|e]; simpl in Hr; [|discriminate].
    destruct (mapM f l) as [bs|e]; simpl in Hr; [|discriminate].
    injection Hr as <-. simpl. f_equal. apply IH. reflexivity.
Qed.

(** ** Tables of entries *)

Section TabFacts.
Context {R : Type} `{Scalar R}.

Lemma tab1_length {A} n (f : nat -> A) : length (tab1 n f) = n.
Proof. unfold tab1. rewrite length_map, length_seq. reflexivity. Qed.

Lemma tab1_ext {A} n (f g : nat -> A) :
  (forall i, i < n -> f i = g i) -> tab1 n f = tab1 n g.
Proof.
  intros E. unfold tab1. apply map_ext_in. intros i Hi.
  apply in_seq in Hi. apply E. lia.
Qed.

Lemma tab2_ext {A} n d (f g : nat -> nat -> A) :
  (forall i j, i < n -> j < d -> f i j = g i j) -> tab2 n d f = tab2 n d g.
Proof.
  intros E. unfold tab2. apply tab1_ext. intros i Hi.
  apply tab1_ext. intros j Hj. apply E; assumption.
Qed.

Lemma tab1_nth {A} n (f : nat -> A) i dflt :
  i < n -> nth i (tab1 n f) dflt = f i.
Proof.
  intros Hi. unfold tab1.
  rewrite (nth_indep _ dflt (f 0)) by (rewrite length_map, length_seq; lia).
  rewrite map_nth, seq_nth by lia. reflexivity.
Qed.

Lemma tab1_S {A} n (f : nat -> A) :
  tab1 (S n) f = f 0 :: tab1 n (fun i => f (S i)).
Proof.
  unfold tab1. simpl. f_equal. rewrite <- seq_shift, map_map. reflexivity.
Qed.

Lemma tab1_of_list {A} (l : list A) dflt :
  l = tab1 (length l) (fun i => nth i l dflt).
Proof.
  induction l as [|a l IH]; [reflexivity|].
  simpl length. rewrite tab1_S. simpl. f_equal. exact IH.
Qed.

Lemma at2_tab2 n d (f : nat -> nat -> R) i j :
  i < n -> j < d -> at2 (tab2 n d f) i j = f i j.
Proof.
  intros Hi Hj. unfold at2, tab2.
  rewrite (tab1_nth n _ i []) by assumption.
  apply tab1_nth. assumption.
Qed.

Lemma tab2_of_matrix n d (m : list (list R)) :
  Np.mshape n d m -> m = tab2 n d (at2 m).
Proof.
  intros [Hn Hd]. unfold tab2.
  rewrite (tab1_of_list m []) at 1. rewrite Hn.
  apply tab1_ext. intros i Hi.
  assert (Hr : length (nth i m []) = d).
  { rewrite List.Forall_forall in Hd. apply Hd. apply nth_In. lia. }
  rewrite (tab1_of_list (nth i m []) s_zero) at 1. rewrite Hr. reflexivity.
Qed.

Lemma tab2_shape n d (f : nat -> nat -> R) : Np.mshape n d (tab2 n d f).
Proof.
  split; [apply tab1_length|].
  unfold tab2, tab1. apply List.Forall_forall. intros r Hr.
  apply in_map_iff in Hr as [i [<- _]]. apply tab1_length.
Qed.

Lemma concat_rows_length (d : nat) (m : list (list R)) :
  Forall (fun r => length r = d) m -> length (concat m) = length m * d.
Proof.
  induction 1 as [|r m Hr _ IH]; [reflexivity|].
  simpl. rewrite length_app, IH, Hr. reflexivity.
Qed.

Lemma nth_error_tab1 {A} n (f : nat -> A) i :
  i < n -> nth_error (tab1 n f) i = Some (f i).
Proof.
  intros Hi. unfold tab1. rewrite nth_error_map, nth_error_seq.
  destruct (Nat.ltb_spec i n); [reflexivity|lia].
Qed.

Lemma nth_error_concat (d : nat) (m : list (list R)) (i j : nat) r :
  Forall (fun r => length r = d) m ->
  nth_error m i = Some r -> j < d ->
  nth_error (concat m) (i * d + j) = nth_error r j.
Proof.
  intros Hm. revert i. induction Hm as [|r0 m Hr0 _ IH]; intros i Hi Hj.
  - destruct i; discriminate.
  - destruct i as [|i]; simpl in Hi |- *.
    + injection Hi as ->. apply nth_error_app1. lia.
    + rewrite nth_error_app2 by lia.
      replace (d + i * d + j - length r0) with (i * d + j) by lia.
      apply IH; assumption.
Qed.

(** The entry [(k, j)] of a table sits at place [k * d + j] of its
    flattening. *)
Lemma nth_error_flat_tab2 n d (f : nat -> nat -> R) k j :
  k < n -> j < d ->
  nth_error (concat (tab2 n d f)) (k * d + j) = Some (f k j).
Proof.
  intros Hk Hj.
  rewrite (nth_error_concat d _ k j (tab1 d (f k))).
  - apply nth_error_tab1. exact Hj.
  - apply (tab2_shape n d f).
  - unfold tab2. rewrite nth_error_tab1 by exact Hk. reflexivity.
  - exact Hj.
Qed.

End TabFacts.

(** ** numpy on tables of entries *)

Section NumpyFacts.
Context {R : Type} `{Scalar R}.
Import Np.

Lemma map_tab1 {A B} (g : A -> B) n (f : nat -> A) :
  map g (tab1 n f) = tab1 n (fun i => g (f i)).
Proof. unfold tab1. apply map_map. Qed.

Lemma map_map_tab2 {A B} (g : A -> B) n d (f : nat -> nat -> A) :
  map (map g) (tab2 n d f) = tab2 n d (fun i j => g (f i j)).
Proof.
  unfold tab2. rewrite map_tab1. apply tab1_ext. intros i _. apply map_tab1.
Qed.

Lemma ncols_tab2 n d (f : nat -> nat -> R) :
  1 <= n -> ncols (tab2 n d f) = d.
Proof.
  intros Hn. destruct n as [|n]; [lia|].
  unfold ncols, tab2. rewrite tab1_S. simpl. apply tab1_length.
Qed.

Lemma column_tab2 n d (f : nat -> nat -> R) j :
  j < d -> column j (tab2 n d f) = tab1 n (fun i => f i j).
Proof.
  intros Hj. unfold column, tab2. rewrite map_tab1.
  apply tab1_ext. intros i _. apply tab1_nth. assumption.
Qed.

Lemma sum_axis0_tab2 n d (f : nat -> nat -> R) :
  1 <= n ->
  sum_axis0 (tab2 n d f) = tab1 d (fun j => vsum (tab1 n (fun i => f i j))).
Proof.
  intros Hn. unfold sum_axis0. rewrite ncols_tab2 by assumption.
  apply tab1_ext. intros j Hj. rewrite column_tab2 by assumption. reflexivity.
Qed.

Lemma newaxis_tab1 n (f : nat -> R) :
  newaxis (tab1 n f) = tab2 n 1 (fun i _ => f i).
Proof. unfold newaxis. rewrite map_tab1. reflexivity. Qed.

Lemma squeeze_tab2 n (f : nat -> nat -> R) :
  squeeze (tab2 n 1 f) = tab1 n (fun i => f i 0).
Proof. unfold squeeze, tab2. rewrite map_tab1. reflexivity. Qed.

Lemma transpose_tab2 n d (f : nat -> nat -> R) :
  1 <= n -> transpose (tab2 n d f) = tab2 d n (fun j i => f i j).
Proof.
  intros Hn. unfold transpose. rewrite ncols_tab2 by assumption.
  apply tab1_ext. intros j Hj. apply column_tab2. assumption.
Qed.

Lemma combine_tab1 {A B} n (f : nat -> A) (g : nat -> B) :
  combine (tab1 n f) (tab1 n g) = tab1 n (fun i => (f i, g i)).
Proof.
  revert f g. induction n as [|n IH]; intros f g; [reflexivity|].
  rewrite !tab1_S. simpl. f_equal. apply IH.
Qed.

Lemma inner_tab1 n (f g : nat -> R) :
  inner (tab1 n f) (tab1 n g) = vsum (tab1 n (fun i => s_mul (f i) (g i))).
Proof. unfold inner. rewrite combine_tab1, map_tab1. reflexivity. Qed.

Lemma dot_tab2 k n d (a b : nat -> nat -> R) :
  1 <= k -> 1 <= n ->
  dot (tab2 k n a) (tab2 n d b)
  = Ok (tab2 k d (fun i j => vsum (tab1 n (fun l => s_mul (a i l) (b l j))))).
Proof.
  intros Hk Hn. unfold dot.
  rewrite !ncols_tab2 by assumption.
  replace (length (tab2 n d b)) with n by (symmetry; apply tab1_length).
  rewrite Nat.eqb_refl. f_equal.
  change (tab2 k n a) with (tab1 k (fun i => tab1 n (a i))).
  rewrite map_tab1. apply tab1_ext. intros i _.
  apply tab1_ext. intros j Hj.
  rewrite column_tab2 by assumption. apply inner_tab1.
Qed.

Lemma zipWithM_tab1 {A B C} (F : A -> B -> result C) n f g h :
  (forall i, i < n -> F (f i) (g i) = Ok (h i)) ->
  zipWithM F (tab1 n f) (tab1 n g) = Ok (tab1 n h).
Proof.
  revert f g h. induction n as [|n IH]; intros f g h E; [reflexivity|].
  rewrite !tab1_S. simpl. rewrite E by lia. simpl.
  rewrite (IH _ _ (fun i => h (S i))) by (intros i Hi; apply E; lia).
  reflexivity.
Qed.

Lemma broadcast_tab1 {A B C} (F : A -> B -> result C) n f g h :
  (forall i, i < n -> F (f i) (g i) = Ok (h i)) ->
  broadcast F (tab1 n f) (tab1 n g) = Ok (tab1 n h).
Proof.
  intros E. unfold broadcast. rewrite !tab1_length, Nat.eqb_refl.
  apply zipWithM_tab1. exact E.
Qed.

Lemma ew1_tab1 op n (f g : nat -> R) :
  ew1 op (tab1 n f) (tab1 n g) = Ok (tab1 n (fun i => op (f i) (g i))).
Proof. apply broadcast_tab1. reflexivity. Qed.

(** A one-element row against a row of any length. *)
Lemma ew1_repeat op d (f g : nat -> R) :
  ew1 op (tab1 1 f) (tab1 d g) = Ok (tab1 d (fun j => op (f 0) (g j))).
Proof.
  destruct (Nat.eq_dec d 1) as [->|Hd]; [reflexivity|].
  unfold ew1, broadcast. rewrite !tab1_length.
  destruct (Nat.eqb_spec 1 d) as [E|_]; [lia|].
  change (tab1 1 f) with [f 0]. cbv beta iota.
  rewrite (mapM_pure (op (f 0))), map_tab1. reflexivity.
Qed.

Lemma ew2_tab2 op n d (f g : nat -> nat -> R) :
  ew2 op (tab2 n d f) (tab2 n d g)
  = Ok (tab2 n d (fun i j => op (f i j) (g i j))).
Proof.
  unfold ew2, tab2. apply broadcast_tab1. intros i _. apply ew1_tab1.
Qed.

(** A [(n, 1)] column against an [(n, d)] array. *)
Lemma ew2_column op n d (f g : nat -> nat -> R) :
  ew2 op (tab2 n 1 f) (tab2 n d g)
  = Ok (tab2 n d (fun i j => op (f i 0) (g i j))).
Proof.
  unfold ew2, tab2. apply broadcast_tab1. intros i _. apply ew1_repeat.
Qed.

End NumpyFacts.

(** ** The Fisher encoder *)

Section FisherFacts.
Context {R : Type} `{Scalar R} `{Sklearn R}.
Import Np.

(** On arrays of the right shapes the encoder raises nothing and its three
    gradients are the tables of the stated formulas. *)
Lemma fisher_gradients_tables (N Kn d : nat) (X Qm : matrix)
      (g : GaussianMixture R) :
  1 <= N -> 1 <= Kn ->
  mshape N d X -> gmm_shape Kn d g ->
  predict_proba g X = Ok Qm -> mshape N Kn Qm ->
  fisher_gradients X g
  = Ok (tab1 Kn (FisherSpec.d_pi N Qm g),
        tab2 Kn d (FisherSpec.d_mu N Qm X g),
        tab2 Kn d (FisherSpec.d_sigma N Qm X g)).
Proof.
  intros HN HK HX (Hw & Hm1 & Hm2 & Hc1 & Hc2) HQ HQs.
  unfold fisher_gradients. rewrite HQ.
  replace (length X) with N by (symmetry; apply HX).
  unfold FisherSpec.d_pi, FisherSpec.d_mu, FisherSpec.d_sigma,
    FisherSpec.S0, FisherSpec.S1, FisherSpec.S2, mean.
  pose proof (tab2_of_matrix N d X HX) as EX.
  pose proof (tab2_of_matrix N Kn Qm HQs) as EQ.
  pose proof (tab2_of_matrix Kn d (means_ g) (conj Hm1 Hm2)) as EM.
  pose proof (tab2_of_matrix Kn d (covariances_ g) (conj Hc1 Hc2)) as EC.
  pose proof (tab1_of_list (weights_ g) s_zero) as EW. rewrite Hw in EW.
  fold (at1 (weights_ g)) in EW.
  set (x := at2 X) in *. set (q := at2 Qm) in *.
  set (mu := at2 (means_ g)) in *. set (sg := at2 (covariances_ g)) in *.
  set (w := at1 (weights_ g)) in *.
  rewrite EX, EQ, EM, EC, EW. clear EX EQ EM EC EW.
  cbn [mbind result_bind].
  rewrite sum_axis0_tab2, newaxis_tab1 by assumption.
  rewrite transpose_tab2 by assumption.
  unfold square, neg, div_int, int_mul. rewrite !map_map_tab2.
  rewrite !dot_tab2 by assumption. cbn [mbind result_bind].
  rewrite !map_map_tab2, squeeze_tab2, ew1_tab1. cbn [mbind result_bind].
  repeat (first [rewrite ew2_column | rewrite ew2_tab2];
          cbn [mbind result_bind]).
  reflexivity.
Qed.

End FisherFacts.

(** ** Shapes, decided *)

Section ShapeFacts.
Context {R : Type} `{Scalar R}.

Lemma forallb_length (d : nat) (m : list (list R)) :
  forallb (fun r => length r =? d) m = true ->
  Forall (fun r => length r = d) m.
Proof.
  intros E. apply List.Forall_forall. intros r Hr.
  rewrite forallb_forall in E. apply Nat.eqb_eq. apply E. exact Hr.
Qed.

Lemma mshapeb_true (n d : nat) (m : list (list R)) :
  Np.mshapeb n d m = true -> Np.mshape n d m.
Proof.
  unfold Np.mshapeb. intros E. apply andb_prop in E as [E1 E2].
  split; [apply Nat.eqb_eq, E1 | apply forallb_length, E2].
Qed.

Lemma gmm_shapeb_true (Kn d : nat) (g : GaussianMixture R) :
  gmm_shapeb Kn d g = true -> gmm_shape Kn d g.
Proof.
  unfold gmm_shapeb, gmm_shape. intros E.
  repeat (apply andb_prop in E as [E ?]).
  repeat split; try (apply Nat.eqb_eq; assumption);
    apply forallb_length; assumption.
Qed.

End ShapeFacts.

Section FisherClaims.
Context {R : Type} `{Scalar R} `{Sklearn R}.
Import Np.

(** C1.  For descriptors [X] of shape [(N, d)], a mixture of [Kn]
    components over dimension [d] and responsibilities of shape [(N, Kn)],
    [fisher_vector] returns the weight gradient [d_pi] ([Kn] numbers),
    then the mean gradient [d_mu] row after row ([Kn * d] numbers), then
    the variance gradient [d_sigma] row after row ([Kn * d] numbers):
    entry [k] of the result is [d_pi[k]], entry [Kn + k d + j] is
    [d_mu[k, j]] and entry [Kn + Kn d + k d + j] is [d_sigma[k, j]].  That
    makes [Kn + 2 * Kn * d] numbers, 388 for [d = 96 / 2] and [Kn = 4]. *)
Theorem fisher_vector_layout (N Kn d : nat) (X Qm : matrix)
        (g : GaussianMixture R) :
  1 <= N -> 1 <= Kn ->
  mshape N d X -> gmm_shape Kn d g ->
  predict_proba g X = Ok Qm -> mshape N Kn Qm ->
  let d_pi := tab1 Kn (FisherSpec.d_pi N Qm g) in
  let d_mu := tab2 Kn d (FisherSpec.d_mu N Qm X g) in
  let d_sigma := tab2 Kn d (FisherSpec.d_sigma N Qm X g) in
  fisher_vector X g = Ok (d_pi ++ flatten2 d_mu ++ flatten2 d_sigma) /\
  length d_pi = Kn /\
  length (flatten2 d_mu) = Kn * d /\
  length (flatten2 d_sigma) = Kn * d /\
  forall fv, fisher_vector X g = Ok fv ->
    length fv = Kn + 2 * Kn * d /\
    (Kn = 4 -> d = 96 / 2 -> length fv = 388) /\
    (forall k, k < Kn ->
       nth_error fv k = Some (FisherSpec.d_pi N Qm g k)) /\
    (forall k j, k < Kn -> j < d ->
       nth_error fv (Kn + (k * d + j))
       = Some (FisherSpec.d_mu N Qm X g k j)) /\
    (forall k j, k < Kn -> j < d ->
       nth_error fv (Kn + Kn * d + (k * d + j))
       = Some (FisherSpec.d_sigma N Qm X g k j)).
Proof.
  intros HN HK HX Hg HQ HQs d_pi d_mu d_sigma.
  pose proof (fisher_gradients_tables N Kn d X Qm g HN HK HX Hg HQ HQs) as E.
  assert (L1 : length d_pi = Kn) by apply tab1_length.
  assert (L2 : forall f : nat -> nat -> R,
             length (flatten2 (tab2 Kn d f)) = Kn * d).
  { intros f. unfold flatten2.
    rewrite (concat_rows_length d) by apply tab2_shape.
    f_equal. apply tab1_length. }
  assert (F : fisher_vector X g
              = Ok (d_pi ++ flatten2 d_mu ++ flatten2 d_sigma)).
  { unfold fisher_vector. rewrite E. cbn [mbind result_bind].
    unfold hstack. simpl concat. rewrite app_nil_r. reflexivity. }
  split; [exact F|]. split; [exact L1|].
  split; [apply L2|]. split; [apply L2|].
  intros fv Efv. rewrite F in Efv. injection Efv as <-.
  assert (L : length (d_pi ++ flatten2 d_mu ++ flatten2 d_sigma)
              = Kn + 2 * Kn * d).
  { rewrite !length_app, L1. unfold d_mu, d_sigma. rewrite !L2. lia. }
  split; [exact L|]. split; [intros E4 Ed; rewrite L, E4, Ed; reflexivity|].
  split; [|split].
  - intros k Hk. rewrite nth_error_app1 by (rewrite L1; exact Hk).
    apply nth_error_tab1, Hk.
  - intros k j Hk Hj. rewrite nth_error_app2 by (rewrite L1; lia).
    replace (Kn + (k * d + j) - length d_pi) with (k * d + j)
      by (rewrite L1; lia).
    assert (B : k * d + j < Kn * d) by nia.
    rewrite nth_error_app1 by (unfold d_mu; rewrite L2; exact B).
    apply nth_error_flat_tab2; assumption.
  - intros k j Hk Hj. rewrite nth_error_app2 by (rewrite L1; lia).
    replace (Kn + Kn * d + (k * d + j) - length d_pi)
      with (Kn * d + (k * d + j)) by (rewrite L1; lia).
    rewrite nth_error_app2 by (unfold d_mu; rewrite L2; lia).
    replace (Kn * d + (k * d + j) - length (flatten2 d_mu))
      with (k * d + j) by (unfold d_mu; rewrite L2; lia).
    apply nth_error_flat_tab2; assumption.
Qed.

(** C2.  The encoder's gradients are those of the stated formulas: with
    [S0], [S1], [S2] the means over the [N] rows of [Q[n,k]],
    [Q[n,k] * X[n,j]] and [Q[n,k] * X[n,j]^2], the returned [d_pi[k]] is
    [S0[k] - pi[k]], [d_mu[k,j]] is [S1[k,j] - S0[k] * mu[k,j]] and
    [d_sigma[k,j]] is [- S2[k,j] - S0[k] * mu[k,j]^2 + S0[k] * sigma2[k,j]
    + 2 * S1[k,j] * mu[k,j]]. *)
Theorem fisher_vector_formulas (N Kn d : nat) (X Qm : matrix)
        (g : GaussianMixture R) :
  1 <= N -> 1 <= Kn ->
  mshape N d X -> gmm_shape Kn d g ->
  predict_proba g X = Ok Qm -> mshape N Kn Qm ->
  let S0 := FisherSpec.S0 N Qm in
  let S1 := FisherSpec.S1 N Qm X in
  let S2 := FisherSpec.S2 N Qm X in
  let pi := at1 (weights_ g) in
  let mu := at2 (means_ g) in
  let sigma2 := at2 (covariances_ g) in
  exists d_pi d_mu d_sigma,
    fisher_gradients X g = Ok (d_pi, d_mu, d_sigma) /\
    fisher_vector X g = Ok (hstack [d_pi; flatten2 d_mu; flatten2 d_sigma]) /\
    forall k, k < Kn ->
      at1 d_pi k = s_sub (S0 k) (pi k) /\
      forall j, j < d ->
        at2 d_mu k j = s_sub (S1 k j) (s_mul (S0 k) (mu k j)) /\
        at2 d_sigma k j
        = s_add
            (s_add
               (s_sub (s_neg (S2 k j))
                      (s_mul (S0 k) (s_mul (mu k j) (mu k j))))
               (s_mul (S0 k) (sigma2 k j)))
            (s_mul (s_mul (s_of_nat 2) (S1 k j)) (mu k j)).
Proof.
  intros HN HK HX Hg HQ HQs S0 S1 S2 pi mu sigma2.
  pose proof (fisher_gradients_tables N Kn d X Qm g HN HK HX Hg HQ HQs) as E.
  eexists _, _, _. split; [exact E|]. split.
  { unfold fisher_vector. rewrite E. reflexivity. }
  intros k Hk. split.
  { unfold at1. rewrite tab1_nth by assumption. reflexivity. }
  intros j Hj. rewrite !at2_tab2 by assumption. split; reflexivity.
Qed.

End FisherClaims.

(** C1 at [N = 50], [d = 48], [K = 4]: the length, and the place of the
    first entry of the variance gradient. *)
Lemma fisher_vector_layout_witness :
  exists fv,
    fisher_vector (Sample.descriptors 50 48) (Sample.fitted 4 48) = Ok fv /\
    length fv = 388 /\
    nth_error fv 196
    = Some (FisherSpec.d_sigma 50 (Sample.responsibilities 50 4)
                               (Sample.descriptors 50 48)
                               (Sample.fitted 4 48) 0 0).
Proof.
  destruct (fisher_vector_layout 50 4 48 (Sample.descriptors 50 48)
              (Sample.responsibilities 50 4) (Sample.fitted 4 48))
    as (E & _ & _ & _ & F).
  - lia.
  - lia.
  - apply mshapeb_true. vm_compute. reflexivity.
  - apply gmm_shapeb_true. vm_compute. reflexivity.
  - vm_compute. reflexivity.
  - apply mshapeb_true. vm_compute. reflexivity.
  - eexists. split; [exact E|].
    destruct (F _ E) as (_ & L & _ & _ & S).
    split; [apply L; reflexivity|].
    apply (S 0 0); lia.
Defined.

(** C2 at [N = 3], [d = 2], [K = 2]: the first mean gradient. *)
Lemma fisher_vector_formulas_witness :
  exists d_pi d_mu d_sigma,
    fisher_gradients (Sample.descriptors 3 2) (Sample.fitted 2 2)
    = Ok (d_pi, d_mu, d_sigma) /\
    at2 d_mu 0 0
    = s_sub (FisherSpec.S1 3 (Sample.responsibilities 3 2)
                           (Sample.descriptors 3 2) 0 0)
            (s_mul (FisherSpec.S0 3 (Sample.responsibilities 3 2) 0)
                   (at2 (means_ (Sample.fitted 2 2)) 0 0)).
Proof.
  destruct (fisher_vector_formulas 3 2 2 (Sample.descriptors 3 2)
              (Sample.responsibilities 3 2) (Sample.fitted 2 2))
    as (d_pi & d_mu & d_sigma & E & _ & F).
  - lia.
  - lia.
  - apply mshapeb_true. vm_compute. reflexivity.
  - apply gmm_shapeb_true. vm_compute. reflexivity.
  - vm_compute. reflexivity.
  - apply mshapeb_true. vm_compute. reflexivity.
  - exists d_pi, d_mu, d_sigma. split; [exact E|].
    destruct (F 0) as [_ G]; [lia|]. destruct (G 0) as [G1 _]; [lia|].
    exact G1.
Defined.

(** ** N-dimensional arrays: shape, flattening, reshaping *)

Section NdFacts.
Context {R : Type}.
Implicit Types (a : ndarray R) (sh idx : list nat).

Lemma has_shapeb_true sh a : Nd.has_shapeb sh a = true -> Nd.has_shape sh a.
Proof.
  revert a. induction sh as [|n sh IH]; intros [x|l]; simpl;
    try discriminate; [trivial|].
  intros E. apply andb_prop in E as [E1 E2]. split; [apply Nat.eqb_eq, E1|].
  apply List.Forall_forall. intros y Hy. apply IH.
  rewrite forallb_forall in E2. apply E2, Hy.
Qed.

(** A rectangular array whose axes, except possibly the last, are not
    empty has the shape [a.shape] reports. *)
Lemma shape_of_has_shape sh a :
  Nd.has_shape sh a -> Forall (fun n => 1 <= n) (removelast sh) ->
  Nd.shape a = sh.
Proof.
  revert a. induction sh as [|n sh IH]; intros [x|l]; simpl; try tauto.
  intros [Hn Hl] Hpos. destruct sh as [|m sh].
  - destruct l as [|y l]; [subst; reflexivity|].
    simpl in Hn. subst n. f_equal.
    apply Forall_inv in Hl. destruct y; simpl in Hl; [reflexivity|tauto].
  - apply List.Forall_cons_iff in Hpos as [Hn1 Hpos].
    destruct l as [|y l]; [simpl in Hn; lia|].
    subst n. simpl. f_equal.
    apply IH; [apply (Forall_inv Hl) | exact Hpos].
Qed.

Lemma flatten_length sh a :
  Nd.has_shape sh a -> length (Nd.flatten a) = Nd.size sh.
Proof.
  revert a. induction sh as [|n sh IH]; intros [x|l]; simpl; try tauto.
  intros [Hn Hl]. subst n. induction Hl as [|y l Hy _ IHl]; [reflexivity|].
  simpl. rewrite length_app, (IH y Hy), IHl. reflexivity.
Qed.

Lemma chunks_concat (k : nat) (m : list (list R)) :
  Forall (fun r => length r = k) m ->
  Nd.chunks k (length m) (concat m) = m.
Proof.
  induction 1 as [|r m Hr _ IH]; [reflexivity|].
  simpl. rewrite (take_app_length' r (concat m) k (eq_sym Hr)).
  rewrite (drop_app_length' r (concat m) k (eq_sym Hr)), IH. reflexivity.
Qed.

(** Flattening loses nothing: reshaping the flat list gives the array
    back. *)
Lemma reshape_flatten sh a :
  Nd.has_shape sh a -> Nd.reshape sh (Nd.flatten a) = a.
Proof.
  revert a. induction sh as [|n sh IH]; intros [x|l]; simpl; try tauto.
  intros [Hn Hl]. subst n. f_equal.
  replace (length l) with (length (map Nd.flatten l))
    by apply length_map.
  rewrite chunks_concat.
  - rewrite map_map. rewrite <- (map_id l) at 2.
    apply map_ext_in. intros y Hy. apply IH.
    rewrite List.Forall_forall in Hl. apply Hl, Hy.
  - apply List.Forall_forall. intros r Hr.
    apply in_map_iff in Hr as [y [<- Hy]].
    apply flatten_length. rewrite List.Forall_forall in Hl. apply Hl, Hy.
Qed.

Lemma offset_bound sh idx :
  Nd.in_bounds idx sh -> Nd.offset sh idx < Nd.size sh.
Proof.
  induction 1 as [|i n idx sh Hi _ IH]; simpl; [lia|].
   nia.
Qed.

(** Flattening keeps the order: the element at a multi-index sits at the
    row-major offset of that index. *)
Lemma select_flatten sh a idx :
  Nd.has_shape sh a -> Nd.in_bounds idx sh ->
  Nd.select a idx = nth_error (Nd.flatten a) (Nd.offset sh idx).
Proof.
  intros Ha Hb. revert a Ha.
  induction Hb as [|i n idx sh Hi Hb IH]; intros [x|l]; simpl; try tauto.
  intros [Hn Hl]. 
  destruct (nth_error l i) as [y|] eqn:Ey.
  - rewrite (nth_error_concat (Nd.size sh) _ _ _ (Nd.flatten y)).
    + apply IH. rewrite List.Forall_forall in Hl.
      apply Hl. eapply nth_error_In, Ey.
    + apply List.Forall_forall. intros r Hr.
      apply in_map_iff in Hr as [z [<- Hz]].
      apply flatten_length. rewrite List.Forall_forall in Hl. apply Hl, Hz.
    + rewrite nth_error_map, Ey. reflexivity.
    + apply offset_bound, Hb.
  - apply nth_error_None in Ey. lia.
Qed.

Lemma of_vector_shape (v : list R) : Nd.has_shape [length v] (Nd.of_vector v).
Proof.
  simpl. split; [apply length_map|].
  apply List.Forall_forall. intros y Hy.
  apply in_map_iff in Hy as [x [<- _]]. exact I.
Qed.

Lemma flatten_of_vector (v : list R) : Nd.flatten (Nd.of_vector v) = v.
Proof.
  unfold Nd.of_vector. simpl. rewrite map_map. simpl.
  induction v as [|x v IH]; [reflexivity|]. simpl. f_equal. exact IH.
Qed.

Lemma select_of_vector (v : list R) (j : nat) :
  Nd.select (Nd.of_vector v) [j] = nth_error v j.
Proof.
  unfold Nd.of_vector. simpl. rewrite nth_error_map.
  destruct (nth_error v j); reflexivity.
Qed.

End NdFacts.

(** ** The channel pipeline *)

Section PipelineFacts.
Context {R : Type} `{Scalar R} `{Sklearn R}.
Import Np.

Lemma ndim_le sh (a : ndarray R) :
  Nd.has_shape sh a -> Nd.ndim a <= length sh.
Proof.
  unfold Nd.ndim. revert a.
  induction sh as [|n sh IH]; intros [x|l]; simpl; try tauto; [lia|].
  intros [_ Hl]. destruct l as [|y l]; simpl; [lia|].
  apply le_n_S, IH, (Forall_inv Hl).
Qed.

Lemma as_2d_matrix N D (X : ndarray R) :
  Nd.has_shape [N; D] X -> as_2d X = X.
Proof.
  intros HX. unfold as_2d. apply ndim_le in HX. simpl in HX.
  destruct (Nat.ltb_spec 2 (Nd.ndim X)); [lia|reflexivity].
Qed.

Lemma shape_at_matrix N D (X : ndarray R) :
  Nd.has_shape [N; D] X -> 1 <= N -> Nd.shape_at X 1 = Ok D.
Proof.
  intros HX HN. unfold Nd.shape_at.
  rewrite (shape_of_has_shape [N; D] X HX); [reflexivity|].
  simpl. constructor; [exact HN|constructor].
Qed.

Lemma reduce_matrix rs N D (X : ndarray R) :
  Nd.has_shape [N; D] X -> 1 <= N ->
  reduce rs X = PCA_fit_transform rs (half D) X.
Proof.
  intros HX HN. unfold reduce.
  rewrite (shape_at_matrix N D X HX HN). reflexivity.
Qed.

Lemma fisher_descriptor_matrix cfg rs N D (X : ndarray R) :
  Nd.has_shape [N; D] X -> 1 <= N ->
  fisher_descriptor cfg rs X
  = (Y ← PCA_fit_transform rs (half D) X;
     g ← GMM_fit rs (K cfg) Y;
     fisher_vector Y g).
Proof.
  intros HX HN. unfold fisher_descriptor.
  rewrite (as_2d_matrix N D X HX), (reduce_matrix rs N D X HX HN).
  reflexivity.
Qed.

(** When the three library calls return, so does the pipeline: with the
    Fisher vector of the reduced matrix under the fitted mixture, a
    vector of [K + 2 K (D/2)] numbers. *)
Lemma fisher_descriptor_returns cfg rs N D (X : ndarray R) Y g Qm :
  SklearnShapes R ->
  Nd.has_shape [N; D] X -> 1 <= N -> 1 <= K cfg ->
  PCA_fit_transform rs (half D) X = Ok Y ->
  GMM_fit rs (K cfg) Y = Ok g ->
  predict_proba g Y = Ok Qm ->
  mshape N (half D) Y /\
  exists fv, fisher_descriptor cfg rs X = Ok fv /\
             fisher_vector Y g = Ok fv /\
             length fv = K cfg + 2 * K cfg * half D.
Proof.
  intros S HX HN HK HY Hg HQ.
  destruct (pca_shape S _ _ _ _ _ _ HY HX) as [Y1 Y2].
  pose proof (gmm_fit_shape S _ _ _ _ _ _ Hg Y1 Y2) as Gs.
  destruct (proba_shape S _ _ _ _ _ _ HQ Y1 Y2 Gs) as [Q1 Q2].
  pose proof (fisher_gradients_tables N (K cfg) (half D) Y Qm g HN HK
                (conj Y1 Y2) Gs HQ (conj Q1 Q2)) as E.
  split; [exact (conj Y1 Y2)|].
  rewrite (fisher_descriptor_matrix cfg rs N D X HX HN), HY.
  cbn [mbind result_bind].
  rewrite Hg. cbn [mbind result_bind].
  unfold fisher_vector. rewrite E. cbn [mbind result_bind].
  eexists. split; [reflexivity|]. split; [reflexivity|].
  unfold hstack, flatten2. simpl concat.
  rewrite !length_app, !(concat_rows_length (half D)) by apply tab2_shape.
  simpl length. unfold tab2. rewrite !tab1_length. lia.
Qed.

(** Whatever the pipeline returns has that length. *)
Lemma fisher_descriptor_length cfg rs N D (X : ndarray R) fv :
  SklearnShapes R ->
  Nd.has_shape [N; D] X -> 1 <= N -> 1 <= K cfg ->
  fisher_descriptor cfg rs X = Ok fv ->
  length fv = K cfg + 2 * K cfg * half D.
Proof.
  intros S HX HN HK E.
  pose proof E as E'.
  rewrite (fisher_descriptor_matrix cfg rs N D X HX HN) in E'.
  destruct (PCA_fit_transform rs (half D) X) as [Y|] eqn:HY; [|discriminate].
  cbn [mbind result_bind] in E'.
  destruct (GMM_fit rs (K cfg) Y) as [g|] eqn:Hg; [|discriminate].
  cbn [mbind result_bind] in E'. unfold fisher_vector, fisher_gradients in E'.
  destruct (predict_proba g Y) as [Qm|] eqn:HQ; [|discriminate].
  destruct (fisher_descriptor_returns cfg rs N D X Y g Qm S HX HN HK HY Hg HQ)
    as (_ & fv' & E1 & _ & L).
  rewrite E in E1. injection E1 as <-. exact L.
Qed.

Lemma half_odd D : Nat.Odd D -> half D = (D - 1) / 2.
Proof.
  intros [h ->]. unfold half. replace (2 * h + 1 - 1) with (h * 2) by lia.
  rewrite Nat.div_mul by lia.
  replace (2 * h + 1) with (1 + h * 2) by lia.
  rewrite Nat.div_add by lia. reflexivity.
Qed.

End PipelineFacts.

(** ** The runnable setting meets the library's shape contract *)

Lemma sample_shapes : SklearnShapes Q.
Proof.
  split.
  - intros rs n X Y N D E HX. simpl in E. unfold Sample.pca in E.
    destruct X as [x|l]; [contradiction|]. destruct HX as [HN _].
    simpl in E. destruct (mapM Nd.as_vector l) as [m|] eqn:Em; [|discriminate].
    apply length_mapM in Em.
    destruct (_ && _) eqn:C in E; [|discriminate].
    injection E as <-.
    apply andb_prop in C as [C C3]. apply andb_prop in C as [_ C2].
    apply Nat.leb_le in C2.
    split; [rewrite length_map; lia|].
    apply List.Forall_forall. intros r Hr.
    apply in_map_iff in Hr as [r0 [<- Hr0]].
    rewrite forallb_forall in C3. specialize (C3 r0 Hr0).
    apply Nat.eqb_eq in C3. rewrite length_take. lia.
  - intros rs Kn Y g N d E HN Hd. simpl in E. unfold Sample.gmm_fit in E.
    destruct (_ && _) eqn:C in E; [|discriminate].
    injection E as <-.
    apply andb_prop in C as [C _]. apply andb_prop in C as [C1 C2].
    apply Nat.leb_le in C1, C2.
    assert (Ed : Np.ncols Y = d).
    { destruct Y as [|r Y]; [simpl in C2; lia|]. apply (Forall_inv Hd). }
    rewrite Ed. unfold gmm_shape. simpl.
    rewrite !repeat_length. repeat split;
      apply List.Forall_forall; intros r Hr; apply repeat_spec in Hr;
      subst r; apply repeat_length.
  - intros g X Qm N Kn d E HN Hd (Hw & _). simpl in E. unfold Sample.proba in E.
    destruct (_ && _) in E; [|discriminate].
    injection E as <-. split; [rewrite length_map; exact HN|].
    apply List.Forall_forall. intros r Hr.
    apply in_map_iff in Hr as [r0 [<- _]]. rewrite repeat_length. exact Hw.
Qed.

Section PipelineClaims.
Context {R : Type} `{Scalar R} `{Sklearn R}.
Import Np.

(** C8.  A descriptor array of more than two dimensions, of shape
    [N :: sh], is replaced by the matrix of its flattened rows, of shape
    [(N, size sh)].  The element of row [i] at multi-index [idx] sits at
    the row-major offset of [idx] in the flattened row, the sequence of all
    elements is unchanged, and reshaping every row to [sh] gives the
    original array back. *)
Theorem flatten_rows_lossless (N : nat) (sh : list nat) (a : ndarray R) :
  Nd.has_shape (N :: sh) a -> Nd.shape a = N :: sh -> 2 <= length sh ->
  as_2d a = flatten_rows a /\
  Nd.has_shape [N; Nd.size sh] (flatten_rows a) /\
  (forall i idx, i < N -> Nd.in_bounds idx sh ->
     Nd.offset sh idx < Nd.size sh /\
     Nd.select (flatten_rows a) [i; Nd.offset sh idx]
     = Nd.select a (i :: idx)) /\
  Nd.flatten (flatten_rows a) = Nd.flatten a /\
  Arr (map (fun row => Nd.reshape sh (Nd.flatten row))
           (Nd.items (flatten_rows a))) = a.
Proof.
  intros Ha Hs Hlen. destruct a as [x|l]; [contradiction|].
  destruct Ha as [HN Hl]. rewrite List.Forall_forall in Hl.
  split.
  { unfold as_2d, Nd.ndim. rewrite Hs. simpl length.
    destruct (Nat.ltb_spec 2 (S (length sh))); [reflexivity|lia]. }
  unfold flatten_rows. simpl Nd.items. split.
  { simpl. split; [rewrite length_map; exact HN|].
    apply List.Forall_forall. intros r Hr.
    apply in_map_iff in Hr as [y [<- Hy]].
    rewrite <- (flatten_length sh y (Hl y Hy)). apply of_vector_shape. }
  split.
  { intros i idx Hi Hb. split; [apply offset_bound, Hb|].
    simpl. rewrite nth_error_map.
    destruct (nth_error l i) as [y|] eqn:Ey; simpl; [|reflexivity].
    rewrite nth_error_map.
    rewrite (select_flatten sh y idx (Hl y (nth_error_In _ _ Ey)) Hb).
    destruct (nth_error (Nd.flatten y) (Nd.offset sh idx)); reflexivity. }
  split.
  { simpl. f_equal. rewrite map_map. apply map_ext. intros y.
    apply flatten_of_vector. }
  f_equal. rewrite map_map. rewrite <- (map_id l) at 2.
  apply map_ext_in. intros y Hy. rewrite flatten_of_vector.
  apply reshape_flatten, Hl, Hy.
Qed.

(** C10.  On a descriptor matrix of shape [(N, D)] with [D] odd, at least
    3, nothing in the pipeline rejects [D]: it asks the PCA for
    [(D-1)/2] components and, when there are rows enough for the fits
    (the three library calls return), it returns the Fisher vector of the
    reduced matrix under the fitted mixture, [K + 2 K ((D-1)/2)]
    numbers. *)
Theorem fisher_descriptor_odd cfg rs (N D : nat) (X : ndarray R) Y g Qm :
  SklearnShapes R ->
  Nd.has_shape [N; D] X -> 1 <= N -> 1 <= K cfg -> Nat.Odd D -> 3 <= D ->
  PCA_fit_transform rs ((D - 1) / 2) X = Ok Y ->
  GMM_fit rs (K cfg) Y = Ok g ->
  predict_proba g Y = Ok Qm ->
  D / 2 = (D - 1) / 2 /\
  1 <= (D - 1) / 2 /\
  reduce rs X = Ok Y /\
  mshape N ((D - 1) / 2) Y /\
  exists fv, fisher_descriptor cfg rs X = Ok fv /\
             fisher_vector Y g = Ok fv /\
             length fv = K cfg + 2 * K cfg * ((D - 1) / 2).
Proof.
  intros S HX HN HK HD H3 HY Hg HQ.
  pose proof (half_odd D HD) as E. unfold half in E.
  split; [exact E|]. split.
  { destruct HD as [h ->]. replace (2 * h + 1 - 1) with (h * 2) by lia.
    rewrite Nat.div_mul by lia. lia. }
  rewrite <- E in HY |- *. split.
  { rewrite (reduce_matrix rs N D X HX HN). exact HY. }
  exact (fisher_descriptor_returns cfg rs N D X Y g Qm S HX HN HK HY Hg HQ).
Qed.

End PipelineClaims.

(** C8 on two 2 x 3 patches. *)
Lemma flatten_rows_lossless_witness :
  as_2d Sample.patches = flatten_rows Sample.patches /\
  Nd.flatten (flatten_rows Sample.patches) = Nd.flatten Sample.patches.
Proof.
  destruct (flatten_rows_lossless 2 [2; 3] Sample.patches)
    as (E & _ & _ & F & _).
  - apply has_shapeb_true. vm_compute. reflexivity.
  - vm_compute. reflexivity.
  - simpl. lia.
  - split; [exact E | exact F].
Defined.

(** C10 at [N = 3], [D = 5], [K = 2]. *)
Lemma fisher_descriptor_odd_witness :
  exists fv,
    fisher_descriptor Sample.small_config Sample.state
                      (Nd.of_matrix (Sample.descriptors 3 5)) = Ok fv /\
    fisher_vector (Sample.descriptors 3 2) (Sample.fitted 2 2) = Ok fv /\
    length fv = 10.
Proof.
  destruct (fisher_descriptor_odd Sample.small_config Sample.state 3 5
              (Nd.of_matrix (Sample.descriptors 3 5))
              (Sample.descriptors 3 2) (Sample.fitted 2 2)
              (Sample.responsibilities 3 2))
    as (_ & _ & _ & _ & fv & E & F & L).
  - exact sample_shapes.
  - apply has_shapeb_true. vm_compute. reflexivity.
  - lia.
  - simpl. lia.
  - exists 2. reflexivity.
  - lia.
  - vm_compute. reflexivity.
  - vm_compute. reflexivity.
  - vm_compute. reflexivity.
  - exists fv. split; [exact E|]. split; [exact F | exact L].
Defined.

(** ** The natural sort *)

Module NatsortFacts.
Import Natsort.

(** *** Strings under [<] *)

Lemma string_compare_refl s : String.compare s s = Eq.
Proof.
  induction s as [|a s IH]; [reflexivity|]. simpl.
  unfold Ascii.compare. rewrite N.compare_refl. exact IH.
Qed.

Lemma string_ltb_irrefl s : String.ltb s s = false.
Proof. unfold String.ltb. rewrite string_compare_refl. reflexivity. Qed.

Lemma string_ltb_leb s t :
  String.ltb s t = true <-> String.leb s t = true /\ s <> t.
Proof.
  unfold String.ltb, String.leb.
  destruct (String.compare s t) eqn:E; split; try discriminate.
  - intros [_ Hne]. apply String.compare_eq_iff in E. contradiction.
  - intros _. split; [reflexivity|]. intros ->.
    rewrite string_compare_refl in E. discriminate.
  - reflexivity.
  - intros [? _]. discriminate.
Qed.

Lemma string_ltb_trans s t u :
  String.ltb s t = true -> String.ltb t u = true -> String.ltb s u = true.
Proof.
  rewrite !string_ltb_leb. intros [L1 N1] [L2 N2]. split.
  - apply Is_true_true. apply Is_true_true in L1, L2.
    exact (transitivity (R := String.le) L1 L2).
  - intros ->. apply N1. apply String.leb_antisym; assumption.
Qed.

Lemma string_ltb_total s t :
  String.ltb s t = false -> String.ltb t s = false -> s = t.
Proof.
  unfold String.ltb. pose proof (String.compare_antisym s t) as A.
  destruct (String.compare s t) eqn:E.
  - intros _ _. apply String.compare_eq_iff, E.
  - discriminate.
  - destruct (String.compare t s); simpl in A; discriminate.
Qed.

(** *** Key elements and keys *)

Lemma piece_eqb_eq a b : piece_eqb a b = true <-> a = b.
Proof.
  destruct a as [m|s], b as [n|t]; simpl; split; try discriminate.
  - intros E. apply N.eqb_eq in E. congruence.
  - intros E. injection E as ->. apply N.eqb_refl.
  - intros E. apply String.eqb_eq in E. congruence.
  - intros E. injection E as ->. apply String.eqb_refl.
Qed.

Lemma piece_ltb_irrefl a : piece_ltb a a = false.
Proof. destruct a; simpl; [apply N.ltb_irrefl | apply string_ltb_irrefl]. Qed.

Lemma piece_ltb_trans a b c :
  piece_ltb a b = true -> piece_ltb b c = true -> piece_ltb a c = true.
Proof.
  destruct a, b, c; simpl; try discriminate; try reflexivity.
  - rewrite !N.ltb_lt. lia.
  - apply string_ltb_trans.
Qed.

Lemma piece_ltb_total a b :
  piece_ltb a b = false -> piece_ltb b a = false -> a = b.
Proof.
  destruct a, b; simpl; try discriminate.
  - rewrite !N.ltb_ge. intros. f_equal. lia.
  - intros. f_equal. apply string_ltb_total; assumption.
Qed.

Lemma key_ltb_irrefl u : key_ltb u u = false.
Proof.
  induction u as [|a u IH]; [reflexivity|]. simpl.
  rewrite (proj2 (piece_eqb_eq a a) eq_refl). exact IH.
Qed.

Lemma key_ltb_trans u v w :
  key_ltb u v = true -> key_ltb v w = true -> key_ltb u w = true.
Proof.
  revert v w. induction u as [|a u IH]; intros [|b v] [|c w]; simpl;
    try discriminate; try reflexivity.
  destruct (piece_eqb a b) eqn:Eab.
  - apply piece_eqb_eq in Eab as ->.
    destruct (piece_eqb b c); [apply IH|trivial].
  - destruct (piece_eqb b c) eqn:Ebc.
    + apply piece_eqb_eq in Ebc as ->. rewrite Eab. trivial.
    + intros Hab Hbc. destruct (piece_eqb a c) eqn:Eac.
      * apply piece_eqb_eq in Eac as ->.
        pose proof (piece_ltb_trans _ _ _ Hab Hbc) as T.
        rewrite piece_ltb_irrefl in T. discriminate.
      * apply (piece_ltb_trans _ _ _ Hab Hbc).
Qed.

Lemma key_ltb_total u v :
  key_ltb u v = false -> key_ltb v u = false -> u = v.
Proof.
  revert v. induction u as [|a u IH]; intros [|b v]; simpl;
    try discriminate; [reflexivity|].
  destruct (piece_eqb a b) eqn:Eab.
  - apply piece_eqb_eq in Eab as ->.
    rewrite (proj2 (piece_eqb_eq b b) eq_refl).
    intros. f_equal. apply IH; assumption.
  - destruct (piece_eqb b a) eqn:Eba.
    + apply piece_eqb_eq in Eba as ->.
      rewrite (proj2 (piece_eqb_eq a a) eq_refl) in Eab. discriminate.
    + intros H1 H2. rewrite (piece_ltb_total a b H1 H2) in Eab.
      rewrite (proj2 (piece_eqb_eq b b) eq_refl) in Eab. discriminate.
Qed.

(** On two keys of one layout Python's comparison raises nothing. *)
Lemma key_lt_layout b u v :
  layout b u -> layout b v -> key_lt u v = Ok (key_ltb u v).
Proof.
  revert b v. induction u as [|x u IH]; intros b [|y v]; simpl;
    try reflexivity.
  destruct x, y; simpl; intros [-> Hu] [E Hv]; try discriminate.
  - destruct (_ =? _)%N; [apply (IH false); assumption | reflexivity].
  - destruct (String.eqb _ _); [apply (IH true); assumption | reflexivity].
Qed.


(** *** Splitting a name into texts and numbers *)

Lemma append_cons c s t : String c s +:+ t = String c (s +:+ t).
Proof. reflexivity. Qed.

Lemma chars_app s t :
  list_ascii_of_string (s +:+ t)
  = list_ascii_of_string s ++ list_ascii_of_string t.
Proof.
  induction s as [|c s IH]; [reflexivity|].
  rewrite append_cons. simpl. f_equal. exact IH.
Qed.

Lemma append_empty s : s +:+ EmptyString = s.
Proof.
  induction s as [|c s IH]; [reflexivity|].
  rewrite append_cons. f_equal. exact IH.
Qed.

Lemma append_char s c t : (s +:+ String c EmptyString) +:+ t = s +:+ String c t.
Proof.
  induction s as [|a s IH]; [reflexivity|].
  rewrite !append_cons. f_equal. exact IH.
Qed.

Lemma no_digit_snoc s c :
  no_digit s -> is_digit c = false -> no_digit (s +:+ String c EmptyString).
Proof.
  unfold no_digit. intros Hs Hc. rewrite chars_app, forallb_app, Hs.
  simpl. rewrite Hc. reflexivity.
Qed.

Lemma digits_snoc s c :
  digits s -> is_digit c = true -> digits (s +:+ String c EmptyString).
Proof.
  unfold digits. intros [Hne Hs] Hc. split.
  - destruct s; [contradiction|]. rewrite append_cons. discriminate.
  - rewrite chars_app, forallb_app, Hs. simpl. rewrite Hc. reflexivity.
Qed.


(** A decimal digit is a digit for [str.isdigit]; an ASCII character that
    is no decimal digit is none. *)
Lemma is_digit_unicode c : is_digit c = true -> is_unicode_digit c = true.
Proof. unfold is_unicode_digit. intros ->. reflexivity. Qed.


Lemma mapM_cons {A B} (f : A -> result B) (a : A) (l : list A) :
  mapM f (a :: l) = (b ← f a; bs ← mapM f l; Ok (b :: bs)).
Proof. reflexivity. Qed.

Lemma mapM_cons_Ok {A B} (f : A -> result B) (a : A) (l : list A) r :
  mapM f (a :: l) = Ok r ->
  exists b bs, f a = Ok b /\ mapM f l = Ok bs /\ r = b :: bs.
Proof.
  rewrite mapM_cons. destruct (f a) as [b|e]; [|discriminate].
  destruct (mapM f l) as [bs|e]; [|discriminate].
  intros E. injection E as <-. eauto.
Qed.

Lemma mapM_Forall2 {A B} (f : A -> result B) (l : list A) (r : list B) :
  mapM f l = Ok r -> Forall2 (fun a b => f a = Ok b) l r.
Proof.
  revert r. induction l as [|a l IH]; intros r E.
  - injection E as <-. constructor.
  - apply mapM_cons_Ok in E as (b & bs & Ea & El & ->).
    constructor; [exact Ea|apply IH, El].
Qed.


(** When [mapM] raises, one of the elements did. *)
Lemma mapM_Raise {A B} (f : A -> result B) (l : list A) e :
  mapM f l = Raise e -> exists a, In a l /\ f a = Raise e.
Proof.
  induction l as [|a l IH]; [discriminate|].
  rewrite mapM_cons. destruct (f a) as [b|e0] eqn:Ea.
  - destruct (mapM f l) as [bs|e1]; [discriminate|].
    intros E. injection E as ->.
    destruct (IH eq_refl) as (x & Hx & Ex). exists x. split; [right|]; trivial.
  - intros E. injection E as ->. exists a. split; [left|]; trivial.
Qed.

Lemma mapM_In_Raise {A B} (f : A -> result B) (l : list A) a e :
  In a l -> f a = Raise e -> exists e', mapM f l = Raise e'.
Proof.
  induction l as [|x l IH]; [contradiction|].
  intros [->|Hin] Ea; rewrite mapM_cons.
  - rewrite Ea. eauto.
  - destruct (f x); [|eauto]. destruct (IH Hin Ea) as [e' ->]. eauto.
Qed.

Lemma isdigit_digits s : digits s -> isdigit s = true.
Proof.
  intros [Hne Hs]. destruct s as [|c s]; [contradiction|].
  unfold isdigit. apply forallb_forall. intros x Hx.
  apply is_digit_unicode. rewrite forallb_forall in Hs. apply Hs, Hx.
Qed.

Lemma int_digits s : digits s -> int s = Ok (int_of_digits s).
Proof.
  intros [Hne Hs]. destruct s as [|c s]; [contradiction|].
  unfold int. rewrite Hs. reflexivity.
Qed.

Lemma int_no_digit s : no_digit s -> int s = Raise ValueError.
Proof.
  unfold no_digit. destruct s as [|c s]; [reflexivity|]. simpl.
  destruct (is_digit c); [discriminate|reflexivity].
Qed.


(** A run of decimal digits converts to its value.  A text without a
    decimal digit converts to its lowercase, unless [isdigit] accepts it:
    then it is made of superscript digits and [int] refuses it. *)
Lemma convert_number s : digits s -> convert s = Ok (PInt (int_of_digits s)).
Proof.
  intros Hs. unfold convert.
  rewrite isdigit_digits, int_digits by assumption. reflexivity.
Qed.

Lemma convert_text s :
  no_digit s ->
  convert s = if isdigit s then Raise ValueError else Ok (PStr (lower s)).
Proof.
  intros Hs. unfold convert. destruct (isdigit s); [|reflexivity].
  rewrite int_no_digit by assumption. reflexivity.
Qed.

Lemma convert_text_Ok s x :
  no_digit s -> convert s = Ok x -> x = PStr (lower s).
Proof.
  intros Hs. rewrite convert_text by assumption.
  destruct (isdigit s); [discriminate|]. intros E. injection E as <-.
  reflexivity.
Qed.


(** The only exception a key raises is the [ValueError] of [int]. *)
Lemma convert_raises s e : convert s = Raise e -> e = ValueError.
Proof.
  unfold convert, int. destruct (isdigit s); [|discriminate].
  destruct s; [intros E; injection E as <-; reflexivity|].
  destruct (forallb _ _); [discriminate|].
  intros E. injection E as <-. reflexivity.
Qed.

Lemma alphanum_key_raises s e : alphanum_key s = Raise e -> e = ValueError.
Proof.
  intros E. apply mapM_Raise in E as (x & _ & Ex).
  apply convert_raises in Ex. exact Ex.
Qed.

Lemma re_split_go_layout s cur (in_run : bool) k :
  (if in_run then digits cur else no_digit cur) ->
  mapM convert (re_split_go s cur in_run) = Ok k -> layout in_run k.
Proof.
  revert cur in_run k.
  induction s as [|c s IH]; intros cur [|] k Hcur E; cbn [re_split_go] in E.
  - apply mapM_cons_Ok in E as (b & bs & Eb & Ebs & ->).
    rewrite convert_number in Eb by assumption. injection Eb as <-.
    apply mapM_cons_Ok in Ebs as (b' & bs' & Eb' & Ebs' & ->).
    injection Eb' as <-. injection Ebs' as <-. simpl. auto.
  - apply mapM_cons_Ok in E as (b & bs & Eb & Ebs & ->).
    apply convert_text_Ok in Eb as ->; [|assumption].
    injection Ebs as <-. simpl. auto.
  - destruct (is_digit c) eqn:Ec.
    + refine (IH _ true k _ E). apply digits_snoc; assumption.
    + apply mapM_cons_Ok in E as (b & bs & Eb & Ebs & ->).
      rewrite convert_number in Eb by assumption. injection Eb as <-.
      simpl. split; [reflexivity|].
      refine (IH _ false bs _ Ebs).
      unfold no_digit. simpl. rewrite Ec. reflexivity.
  - destruct (is_digit c) eqn:Ec.
    + apply mapM_cons_Ok in E as (b & bs & Eb & Ebs & ->).
      apply convert_text_Ok in Eb as ->; [|assumption].
      simpl. split; [reflexivity|].
      refine (IH _ true bs _ Ebs).
      split; [discriminate|]. simpl. rewrite Ec. reflexivity.
    + refine (IH _ false k _ E). apply no_digit_snoc; assumption.
Qed.

(** A key, when there is one, lists a text, a number, a text, ... *)
Lemma alphanum_key_layout s k : alphanum_key s = Ok k -> layout false k.
Proof. apply (re_split_go_layout s EmptyString false). reflexivity. Qed.



Lemma re_split_go_text p rest cur :
  no_digit p ->
  re_split_go (p +:+ rest) cur false = re_split_go rest (cur +:+ p) false.
Proof.
  revert cur. induction p as [|c p IH]; intros cur Hp.
  - rewrite append_empty. reflexivity.
  - unfold no_digit in Hp. simpl in Hp. apply andb_prop in Hp as [Hc Hp].
    apply negb_true_iff in Hc. rewrite append_cons. simpl.
    rewrite Hc, IH by exact Hp. rewrite append_char. reflexivity.
Qed.

Lemma re_split_go_run a rest cur :
  forallb is_digit (list_ascii_of_string a) = true ->
  re_split_go (a +:+ rest) cur true = re_split_go rest (cur +:+ a) true.
Proof.
  revert cur. induction a as [|c a IH]; intros cur Ha.
  - rewrite append_empty. reflexivity.
  - simpl in Ha. apply andb_prop in Ha as [Hc Ha].
    rewrite append_cons. simpl.
    rewrite Hc, IH by exact Ha. rewrite append_char. reflexivity.
Qed.

(** A text followed by a number splits into the text, the number and an
    empty text. *)
Lemma re_split_text_number p a :
  no_digit p -> digits a -> re_split (p +:+ a) = [p; a; EmptyString].
Proof.
  intros Hp [Hne Ha]. unfold re_split. rewrite re_split_go_text by exact Hp.
  destruct a as [|c a]; [contradiction|]. simpl in Ha |- *.
  apply andb_prop in Ha as [Hc Ha]. rewrite Hc.
  rewrite <- (append_empty a) at 1. rewrite re_split_go_run by exact Ha.
  reflexivity.
Qed.

Lemma alphanum_key_text_number p a :
  no_digit p -> digits a ->
  alphanum_key (p +:+ a)
  = (x ← convert p; Ok [x; PInt (int_of_digits a); PStr EmptyString]).
Proof.
  intros Hp Ha. unfold alphanum_key.
  rewrite re_split_text_number by assumption.
  rewrite !mapM_cons, (convert_number a) by assumption.
  destruct (convert p); reflexivity.
Qed.


(** *** The sort *)

Section Sorting.
Context {A : Type}.
Implicit Types (l acc data : list (list piece * A)).

Lemma insert_by_key_pure k (x : A) l :
  layout false k -> keys_layout l ->
  insert_by_key k x l = Ok (insert_pure k x l).
Proof.
  intros Hk Hl. induction Hl as [|[k' y] l Hy _ IH]; [reflexivity|].
  simpl. rewrite (key_lt_layout false) by assumption.
  cbn [mbind result_bind]. destruct (key_ltb k k'); [reflexivity|].
  rewrite IH. reflexivity.
Qed.

Lemma insert_pure_perm k (x : A) l :
  Permutation ((k, x) :: l) (insert_pure k x l).
Proof.
  induction l as [|[k' y] l IH]; simpl; [reflexivity|].
  destruct (key_ltb k k'); [reflexivity|].
  rewrite perm_swap. apply perm_skip, IH.
Qed.

Lemma insert_pure_layout k (x : A) l :
  layout false k -> keys_layout l -> keys_layout (insert_pure k x l).
Proof.
  intros Hk Hl. unfold keys_layout.
  rewrite <- (insert_pure_perm k x l). constructor; assumption.
Qed.

Lemma keyed_le_trans (p q r : list piece * A) :
  keyed_le p q -> keyed_le q r -> keyed_le p r.
Proof.
  unfold keyed_le. intros Hpq Hqr.
  destruct (key_ltb (fst r) (fst p)) eqn:E; [|reflexivity].
  destruct (key_ltb (fst p) (fst q)) eqn:F.
  - rewrite (key_ltb_trans _ _ _ E F) in Hqr. discriminate.
  - rewrite (key_ltb_total _ _ F Hpq) in E. congruence.
Qed.

Lemma insert_pure_sorted k (x : A) l :
  StronglySorted keyed_le l -> StronglySorted keyed_le (insert_pure k x l).
Proof.
  induction 1 as [|[k' y] l Hs IH Hall]; simpl.
  - repeat constructor.
  - destruct (key_ltb k k') eqn:E.
    + assert (H0 : keyed_le (k, x) (k', y)).
      { unfold keyed_le. simpl.
        destruct (key_ltb k' k) eqn:F; [|reflexivity].
        pose proof (key_ltb_trans _ _ _ E F) as T.
        rewrite key_ltb_irrefl in T. discriminate. }
      constructor; [constructor; assumption|].
      constructor; [exact H0|].
      eapply List.Forall_impl; [|exact Hall].
      intros z Hz. eapply keyed_le_trans; eassumption.
    + constructor; [exact IH|].
      rewrite <- (insert_pure_perm k x l). constructor; [exact E|exact Hall].
Qed.

Lemma sort_into_pure acc data :
  keys_layout acc -> keys_layout data ->
  sort_into acc data = Ok (sort_pure acc data).
Proof.
  intros Hacc Hd. revert acc Hacc.
  induction Hd as [|[k x] data Hk _ IH]; intros acc Hacc; [reflexivity|].
  simpl. rewrite insert_by_key_pure by assumption.
  cbn [mbind result_bind]. apply IH, insert_pure_layout; assumption.
Qed.

Lemma sort_pure_perm acc data :
  Permutation (acc ++ data) (sort_pure acc data).
Proof.
  revert acc. induction data as [|[k x] data IH]; intros acc; simpl.
  - rewrite app_nil_r. reflexivity.
  - rewrite <- IH, <- insert_pure_perm. simpl.
    symmetry. apply Permutation_middle.
Qed.


End Sorting.

Lemma sort_pure_decorated acc data :
  decorated acc -> decorated data -> decorated (sort_pure acc data).
Proof.
  intros Ha Hd. unfold decorated. rewrite <- sort_pure_perm.
  apply Forall_app. split; assumption.
Qed.

Lemma decorated_layout l : decorated l -> keys_layout l.
Proof.
  apply List.Forall_impl. intros [k s] E. simpl in *.
  apply (alphanum_key_layout s), E.
Qed.

(** The names decorated with the keys [mapM] computed for them. *)
Lemma keys_decorated data keys :
  mapM alphanum_key data = Ok keys ->
  decorated (combine keys data) /\ map snd (combine keys data) = data.
Proof.
  intros E. apply mapM_Forall2 in E.
  induction E as [|s k data keys Ek _ [IH1 IH2]]; [split; constructor|].
  simpl. split; [constructor; assumption|f_equal; exact IH2].
Qed.

Lemma sorted_alphanumeric_pure data keys :
  mapM alphanum_key data = Ok keys ->
  sorted_alphanumeric data = Ok (map snd (sort_pure [] (combine keys data))).
Proof.
  intros E. unfold sorted_alphanumeric. rewrite E. cbn [mbind result_bind].
  rewrite sort_into_pure; [reflexivity|constructor|].
  apply decorated_layout, (keys_decorated data keys E).
Qed.

(** The sort raises exactly when some name has no key, before it compares
    anything, and then with the [ValueError] of that key. *)
Lemma sorted_alphanumeric_keys data files :
  sorted_alphanumeric data = Ok files ->
  exists keys, mapM alphanum_key data = Ok keys /\
               files = map snd (sort_pure [] (combine keys data)).
Proof.
  intros E. destruct (mapM alphanum_key data) as [keys|e] eqn:Ek.
  - rewrite (sorted_alphanumeric_pure data keys Ek) in E.
    injection E as <-. eauto.
  - unfold sorted_alphanumeric in E. rewrite Ek in E. discriminate.
Qed.

Lemma sorted_alphanumeric_error data e :
  sorted_alphanumeric data = Raise e ->
  e = ValueError /\ exists s, In s data /\ alphanum_key s = Raise ValueError.
Proof.
  intros E. destruct (mapM alphanum_key data) as [keys|e0] eqn:Ek.
  - rewrite (sorted_alphanumeric_pure data keys Ek) in E. discriminate.
  - unfold sorted_alphanumeric in E. rewrite Ek in E. injection E as <-.
    apply mapM_Raise in Ek as (s & Hs & Es).
    pose proof (alphanum_key_raises s e0 Es) as ->. eauto.
Qed.

Lemma sorted_alphanumeric_no_key data s e :
  In s data -> alphanum_key s = Raise e ->
  sorted_alphanumeric data = Raise ValueError.
Proof.
  intros Hs Es. destruct (mapM_In_Raise _ _ _ _ Hs Es) as [e' E'].
  destruct (sorted_alphanumeric data) as [files|e0] eqn:E.
  - apply sorted_alphanumeric_keys in E as (keys & Ek & _). congruence.
  - apply sorted_alphanumeric_error in E as [-> _]. reflexivity.
Qed.


Lemma sorted_alphanumeric_perm data files :
  sorted_alphanumeric data = Ok files -> Permutation data files.
Proof.
  intros E. apply sorted_alphanumeric_keys in E as (keys & Ek & ->).
  rewrite <- (sort_pure_perm [] (combine keys data)). simpl.
  rewrite (proj2 (keys_decorated data keys Ek)). reflexivity.
Qed.








End NatsortFacts.

(** ** Feature tables *)

Lemma pretty_N_go_first (x : N) (s : string) :
  (forall t, s <> String "n" t) -> forall t, pretty_N_go x s <> String "n" t.
Proof.
  revert s. induction (N.lt_wf_0 x) as [x _ IH]. intros s Hs t.
  destruct (decide (x = 0)%N) as [->|Hx].
  - rewrite pretty_N_go_0. apply Hs.
  - rewrite pretty_N_go_step by lia. apply IH.
    + apply N.div_lt; lia.
    + intros t' E. injection E as E _. revert E.
      unfold pretty_N_char. repeat case_match; discriminate.
Qed.

Lemma str_not_name (i : nat) : str i <> "name"%string.
Proof.
  unfold str, pretty, pretty_nat, pretty, pretty_N.
  destruct (decide (N.of_nat i = 0)%N); [discriminate|].
  apply pretty_N_go_first. discriminate.
Qed.

Lemma str_inj (i j : nat) : str i = str j -> i = j.
Proof. apply pretty_nat_inj. Qed.

Section TableFacts.
Context {R : Type}.
Implicit Types (df : DataFrame R) (fs : list R) (d : gmap string (cell R)).

Lemma features_keep_name (l : list (nat * R)) d :
  fold_left set_feature l d !! "name"%string = d !! "name"%string.
Proof.
  revert d. induction l as [|[i v] l IH]; intros d; [reflexivity|].
  simpl. rewrite IH. unfold set_feature. simpl.
  apply lookup_insert_ne, str_not_name.
Qed.

Lemma features_lookup fs a d j :
  fold_left set_feature (combine (seq a (length fs)) fs) d !! str j
  = if (a <=? j) && (j <? a + length fs)
    then CFloat <$> nth_error fs (j - a)
    else d !! str j.
Proof.
  revert a d. induction fs as [|v fs IH]; intros a d.
  - cbn [length seq combine fold_left].
    destruct (Nat.leb_spec a j), (Nat.ltb_spec j (a + 0));
      cbn [andb]; try reflexivity; lia.
  - cbn [length seq combine fold_left]. rewrite IH.
    unfold set_feature. cbn [fst snd].
    destruct (Nat.leb_spec (S a) j), (Nat.ltb_spec j (S a + length fs)),
      (Nat.leb_spec a j), (Nat.ltb_spec j (a + S (length fs)));
      cbn [andb]; try lia;
      first
        [ replace (j - a) with (S (j - S a)) by lia; reflexivity
        | rewrite lookup_insert_ne;
          [reflexivity | intros E; apply str_inj in E; lia]
        | replace j with a by lia; rewrite Nat.sub_diag;
          apply lookup_insert_eq ].
Qed.

Lemma new_row_data_name name fs :
  new_row_data name fs !! "name"%string = Some (CStr name).
Proof.
  unfold new_row_data. rewrite (features_keep_name _ _).
  apply lookup_singleton_eq.
Qed.

Lemma new_row_data_feature name fs j x :
  nth_error fs j = Some x -> new_row_data name fs !! str j = Some (CFloat x).
Proof.
  intros E. unfold new_row_data.
  rewrite (features_lookup fs 0 _ j). simpl.
  assert (j < length fs) by (apply nth_error_Some; congruence).
  destruct (Nat.ltb_spec j (length fs)); [|lia].
  rewrite Nat.sub_0_r, E. reflexivity.
Qed.

(** The row of a vector as long as the table is wide: the name, then the
    components. *)
Lemma row_at_full name fs :
  row_at ("name"%string :: map str (seq 0 (length fs))) (new_row_data name fs)
  = CStr name :: map CFloat fs.
Proof.
  unfold row_at. simpl. rewrite new_row_data_name. simpl. f_equal.
  rewrite map_map.
  rewrite (tab1_of_list (map CFloat fs) CNaN), length_map.
  apply tab1_ext. intros j Hj.
  destruct (nth_error fs j) as [x|] eqn:E;
    [|apply nth_error_None in E; lia].
  rewrite (new_row_data_feature name fs j x E). simpl.
  symmetry. apply nth_error_nth. rewrite nth_error_map, E. reflexivity.
Qed.

Lemma row_at_head cols name fs :
  hd CNaN (row_at ("name"%string :: cols) (new_row_data name fs)) = CStr name.
Proof. unfold row_at. simpl. rewrite new_row_data_name. reflexivity. Qed.

Lemma add_row_first df name fs :
  empty df = true ->
  add_row_to_table df name fs
  = {| columns := "name"%string :: map str (seq 0 (length fs));
       rows := [CStr name :: map CFloat fs] |}.
Proof.
  intros E. unfold add_row_to_table. rewrite E. simpl columns. simpl rows.
  rewrite row_at_full. reflexivity.
Qed.

Lemma add_row_next df name fs :
  empty df = false ->
  add_row_to_table df name fs
  = {| columns := columns df;
       rows := rows df ++ [row_at (columns df) (new_row_data name fs)] |}.
Proof. intros E. unfold add_row_to_table. rewrite E. reflexivity. Qed.

Lemma add_row_not_empty df name fs :
  empty (add_row_to_table df name fs) = false.
Proof.
  destruct (empty df) eqn:E.
  - rewrite add_row_first by exact E. reflexivity.
  - rewrite add_row_next by exact E. unfold empty in E |- *. simpl.
    apply orb_false_iff in E as [E _]. rewrite E, length_app. simpl.
    apply Nat.eqb_neq. lia.
Qed.

Lemma add_row_named df name fs :
  named df -> named (add_row_to_table df name fs).
Proof.
  intros Hn. right. destruct (empty df) eqn:E.
  - rewrite add_row_first by exact E. eexists. reflexivity.
  - destruct Hn as [Hn|[cols Hc]]; [congruence|].
    rewrite add_row_next by exact E. exists cols. exact Hc.
Qed.

Lemma add_row_columns df name fs :
  columns (add_row_to_table df name fs)
  = if empty df then "name"%string :: map str (seq 0 (length fs))
    else columns df.
Proof. unfold add_row_to_table. destruct (empty df); reflexivity. Qed.

Lemma add_row_count df name fs :
  length (rows (add_row_to_table df name fs))
  = if empty df then 1 else S (length (rows df)).
Proof.
  unfold add_row_to_table. destruct (empty df); simpl; [reflexivity|].
  rewrite length_app. simpl. lia.
Qed.

Lemma add_row_names df name fs :
  named df ->
  name_column (add_row_to_table df name fs)
  = (if empty df then [] else name_column df) ++ [CStr name].
Proof.
  intros Hn. unfold name_column. destruct (empty df) eqn:E.
  - rewrite add_row_first by exact E. reflexivity.
  - destruct Hn as [Hn|[cols Hc]]; [congruence|].
    rewrite add_row_next by exact E. simpl. rewrite map_app. simpl.
    rewrite Hc, row_at_head. reflexivity.
Qed.

Lemma add_rows_named df entries : named df -> named (add_rows df entries).
Proof.
  revert df. induction entries as [|e entries IH]; intros df Hn; [exact Hn|].
  simpl. apply IH, add_row_named, Hn.
Qed.

(** Appending to a table that has rows keeps its columns, adds one row
    per entry and one name per entry. *)
Lemma add_rows_next df entries :
  empty df = false -> named df ->
  columns (add_rows df entries) = columns df /\
  length (rows (add_rows df entries)) = length (rows df) + length entries /\
  name_column (add_rows df entries)
  = name_column df ++ map (fun e => CStr (fst e)) entries /\
  empty (add_rows df entries) = false.
Proof.
  revert df. induction entries as [|[n v] entries IH]; intros df E Hn.
  - simpl. rewrite app_nil_r. repeat split; [lia|exact E].
  - simpl.
    destruct (IH (add_row_to_table df n v) (add_row_not_empty df n v)
                 (add_row_named df n v Hn)) as (C & L & Nm & Em).
    rewrite C, L, Nm, add_row_columns, add_row_count, add_row_names, E
      by exact Hn.
    rewrite <- app_assoc. simpl. repeat split; [lia|exact Em].
Qed.

(** The table built from nothing: its columns are [name] and one label
    per component of the first vector. *)
Lemma add_rows_new n (v : list R) entries :
  let df := add_rows new_frame ((n, v) :: entries) in
  columns df = "name"%string :: map str (seq 0 (length v)) /\
  length (rows df) = S (length entries) /\
  name_column df = map (fun e => CStr (fst e)) ((n, v) :: entries) /\
  empty df = false.
Proof.
  simpl.
  assert (N0 : named (@new_frame R)) by (left; reflexivity).
  destruct (add_rows_next (add_row_to_table new_frame n v) entries
              (add_row_not_empty _ _ _) (add_row_named _ _ _ N0))
    as (C & L & Nm & Em).
  rewrite C, L, Nm. split; [|split; [|split; [|exact Em]]];
    rewrite add_row_first by reflexivity; reflexivity.
Qed.

End TableFacts.

(** ** The corpus loop *)

Section ScriptFacts.
Context {R : Type} `{Scalar R} `{Sklearn R} `{Tracker R} `{Disk R}.
Implicit Types (cfg : Config) (dfs : @tables R) (w : world R) (ch : channel).

Ltac run_io :=
  unfold mbind, IO_bind, mret, IO_ret, lift, print, np_save, to_csv in *;
  cbn [fst snd stdout csv_files npy_files] in *.

Lemma channel_vector_empty cfg ch i :
  channel_vector cfg ch i [] = Raise IndexError.
Proof. destruct ch; reflexivity. Qed.

(** With no trajectory, the first enabled block raises [IndexError]. *)
Lemma channel_blocks_empty cfg i name dfs :
  any_channel cfg = true ->
  channel_blocks cfg i [] name dfs = Raise IndexError.
Proof.
  unfold any_channel, channel_blocks, hog_block, hof_block, mbh_block.
  destruct (HOG_FISHER_VECTOR cfg), (HOF_FISHER_VECTOR cfg),
    (MBH_FISHER_VECTOR cfg); simpl; intros E; try reflexivity; discriminate.
Qed.

Lemma hog_block_Ok cfg i t name dfs dfs' :
  hog_block cfg i t name dfs = Ok dfs' ->
  if HOG_FISHER_VECTOR cfg
  then exists v, channel_vector cfg HOG i t = Ok v /\
                 dfs' = {| hog_df := add_row_to_table (hog_df dfs) name v;
                           hof_df := hof_df dfs; mbh_df := mbh_df dfs |}
  else dfs' = dfs.
Proof.
  unfold hog_block, channel_vector. destruct (HOG_FISHER_VECTOR cfg).
  - destruct (read_hog t) as [d|]; [|discriminate]. cbn [mbind result_bind].
    destruct (fisher_descriptor cfg _ d) as [v|]; [|discriminate].
    cbn [mbind result_bind]. intros E. injection E as <-. eauto.
  - intros E. injection E as <-. reflexivity.
Qed.

Lemma hof_block_Ok cfg i t name dfs dfs' :
  hof_block cfg i t name dfs = Ok dfs' ->
  if HOF_FISHER_VECTOR cfg
  then exists v, channel_vector cfg HOF i t = Ok v /\
                 dfs' = {| hog_df := hog_df dfs;
                           hof_df := add_row_to_table (hof_df dfs) name v;
                           mbh_df := mbh_df dfs |}
  else dfs' = dfs.
Proof.
  unfold hof_block, channel_vector. destruct (HOF_FISHER_VECTOR cfg).
  - destruct (read_hof t) as [d|]; [|discriminate]. cbn [mbind result_bind].
    destruct (fisher_descriptor cfg _ d) as [v|]; [|discriminate].
    cbn [mbind result_bind]. intros E. injection E as <-. eauto.
  - intros E. injection E as <-. reflexivity.
Qed.

Lemma mbh_block_Ok cfg i t name dfs dfs' :
  mbh_block cfg i t name dfs = Ok dfs' ->
  if MBH_FISHER_VECTOR cfg
  then exists v, channel_vector cfg MBH i t = Ok v /\
                 dfs' = {| hog_df := hog_df dfs; hof_df := hof_df dfs;
                           mbh_df := add_row_to_table (mbh_df dfs) name v |}
  else dfs' = dfs.
Proof.
  unfold mbh_block, channel_vector. destruct (MBH_FISHER_VECTOR cfg).
  - destruct (mbh_vector cfg i t) as [v|]; [|discriminate].
    cbn [mbind result_bind]. intros E. injection E as <-. eauto.
  - intros E. injection E as <-. reflexivity.
Qed.

(** What the blocks of one video do to the table of a channel. *)
Lemma channel_blocks_Ok cfg i t name dfs dfs' ch :
  channel_blocks cfg i t name dfs = Ok dfs' ->
  if enabled cfg ch
  then exists v, channel_vector cfg ch i t = Ok v /\
                 table ch dfs' = add_row_to_table (table ch dfs) name v
  else table ch dfs' = table ch dfs.
Proof.
  unfold channel_blocks. intros E.
  destruct (hog_block cfg i t name dfs) as [d1|] eqn:E1; [|discriminate].
  cbn [mbind result_bind] in E.
  destruct (hof_block cfg i t name d1) as [d2|] eqn:E2; [|discriminate].
  cbn [mbind result_bind] in E.
  apply hog_block_Ok in E1. apply hof_block_Ok in E2. apply mbh_block_Ok in E.
  destruct ch; simpl;
    destruct (HOG_FISHER_VECTOR cfg), (HOF_FISHER_VECTOR cfg),
      (MBH_FISHER_VECTOR cfg);
    repeat match goal with
           | H : exists _, _ |- _ => destruct H as (? & ? & ?)
           end; subst; simpl; eauto.
Qed.

Lemma process_video_csv cfg i file dfs w :
  csv_files (snd (process_video cfg i file dfs w)) = csv_files w.
Proof.
  unfold process_video. run_io.
  destruct (densetrack (read_video file)) as [t|]; [|reflexivity].
  destruct (any_channel cfg); cbn [negb].
  - destruct (channel_blocks cfg i t (video_name file) dfs); [|reflexivity].
    destruct ((i + 1) mod 10 =? 0); reflexivity.
  - destruct (write_error _ _); [reflexivity|].
    destruct ((i + 1) mod 10 =? 0); reflexivity.
Qed.

Lemma process_video_Ok cfg i file dfs w dfs' w' :
  process_video cfg i file dfs w = (Ok dfs', w') ->
  exists t, densetrack (read_video file) = Ok t /\
            if any_channel cfg
            then channel_blocks cfg i t (video_name file) dfs = Ok dfs'
            else dfs' = dfs.
Proof.
  unfold process_video. run_io.
  destruct (densetrack (read_video file)) as [t|]; [|discriminate].
  intros E. exists t. split; [reflexivity|].
  destruct (any_channel cfg); cbn [negb] in E.
  - destruct (channel_blocks cfg i t (video_name file) dfs); [|discriminate].
    destruct ((i + 1) mod 10 =? 0); injection E as <- _; reflexivity.
  - destruct (write_error _ _); [discriminate|].
    destruct ((i + 1) mod 10 =? 0); injection E as <- _; reflexivity.
Qed.

(** A video without trajectories: the turn raises [IndexError], having
    printed the separator and the [Running] line and nothing else. *)
Lemma process_video_empty cfg i file dfs w :
  densetrack (read_video file) = Ok [] -> any_channel cfg = true ->
  process_video cfg i file dfs w
  = (Raise IndexError,
     {| stdout := stdout w ++ [Separator; Running file (frames_of file)];
        csv_files := csv_files w;
        npy_files := npy_files w |}).
Proof.
  intros Et Ec. unfold process_video, frames_of. run_io.
  rewrite Et, Ec. cbn [negb].
  rewrite channel_blocks_empty by exact Ec.
  rewrite <- app_assoc. reflexivity.
Qed.

(** The loop writes no table. *)
Lemma corpus_loop_csv cfg i files dfs w :
  csv_files (snd (corpus_loop cfg i files dfs w)) = csv_files w.
Proof.
  revert i dfs w. induction files as [|file files IH]; intros i dfs w;
    [reflexivity|].
  simpl. unfold mbind, IO_bind.
  pose proof (process_video_csv cfg i file dfs w) as P.
  destruct (process_video cfg i file dfs w) as [[dfs'|e] w1]; simpl in P.
  - rewrite IH. exact P.
  - exact P.
Qed.

(** The loop over a list is the loop over its first part, then, if that
    returns, the loop over the rest. *)
Lemma corpus_loop_app cfg i pre post dfs w :
  corpus_loop cfg i (pre ++ post) dfs w
  = match corpus_loop cfg i pre dfs w with
    | (Ok dfs1, w1) => corpus_loop cfg (i + length pre) post dfs1 w1
    | (Raise e, w1) => (Raise e, w1)
    end.
Proof.
  revert i dfs w. induction pre as [|f pre IH]; intros i dfs w.
  - simpl. rewrite Nat.add_0_r. reflexivity.
  - simpl. unfold mbind, IO_bind.
    destruct (process_video cfg i f dfs w) as [[d1|e] w1]; [|reflexivity].
    rewrite IH. replace (S i + length pre) with (i + S (length pre)) by lia.
    reflexivity.
Qed.

(** A video without trajectories stops the loop with an exception. *)
Lemma corpus_loop_raises cfg i files dfs w file :
  In file files -> densetrack (read_video file) = Ok [] ->
  any_channel cfg = true ->
  exists e, fst (corpus_loop cfg i files dfs w) = Raise e.
Proof.
  intros Hin Et Ec. revert i dfs w.
  induction files as [|f files IH]; intros i dfs w; [contradiction|].
  simpl. unfold mbind, IO_bind.
  destruct (process_video cfg i f dfs w) as [[dfs'|e] w1] eqn:E.
  - destruct Hin as [->|Hin]; [|apply IH, Hin].
    rewrite (process_video_empty cfg i file dfs w Et Ec) in E. discriminate.
  - exists e. reflexivity.
Qed.

(** When the loop ends, the table of an enabled channel has received one
    row per video, in the order of the loop. *)
Lemma corpus_loop_Ok cfg i files dfs w dfs' w' ch :
  corpus_loop cfg i files dfs w = (Ok dfs', w') ->
  enabled cfg ch = true ->
  exists vs, vectors_of cfg ch i files vs /\
             table ch dfs'
             = add_rows (table ch dfs) (combine (map video_name files) vs).
Proof.
  intros E Hch. revert i dfs w E.
  induction files as [|file files IH]; intros i dfs w E.
  - injection E as <- _. exists []. split; [exact I|reflexivity].
  - simpl in E. unfold mbind, IO_bind in E.
    destruct (process_video cfg i file dfs w) as [[d1|e] w1] eqn:E1;
      [|discriminate].
    apply process_video_Ok in E1 as (t & Et & Eb).
    assert (Ec : any_channel cfg = true).
    { unfold any_channel. destruct ch; simpl in Hch; rewrite Hch;
        rewrite ?orb_true_r; reflexivity. }
    rewrite Ec in Eb. apply (channel_blocks_Ok _ _ _ _ _ _ ch) in Eb.
    rewrite Hch in Eb. destruct Eb as (v & Ev & Et1).
    destruct (IH _ _ _ E) as (vs & Hvs & Etab).
    exists (v :: vs). split.
    + split; [exists t; split; assumption|exact Hvs].
    + rewrite Etab, Et1. reflexivity.
Qed.

Lemma save_as_csv_empty (df : DataFrame R) path w :
  empty df = true -> save_as_csv df path w = (Ok tt, w).
Proof. intros E. unfold save_as_csv. rewrite E. reflexivity. Qed.

Lemma save_as_csv_rows (df : DataFrame R) path w :
  empty df = false -> save_as_csv df path w = to_csv df path w.
Proof. intros E. unfold save_as_csv. rewrite E. reflexivity. Qed.

(** After the loop every enabled channel that has rows is saved, in the
    order HOG, HOF, MBH, up to the first write that fails. *)
Lemma save_tables_bound cfg dfs w :
  save_tables cfg (Some dfs) w = save_all (written cfg dfs) w.
Proof.
  unfold save_tables, written, load, save_as_csv, enabled, table.
  cbn [flat_map]. unfold mbind, IO_bind, mret, IO_ret. cbv beta.
  destruct (HOG_FISHER_VECTOR cfg), (HOF_FISHER_VECTOR cfg),
    (MBH_FISHER_VECTOR cfg);
    destruct (empty (hog_df dfs)), (empty (hof_df dfs)),
      (empty (mbh_df dfs));
    cbn [andb negb app save_all fst snd];
    unfold mbind, IO_bind, mret, IO_ret;
    repeat match goal with
           | |- context [to_csv ?d ?p ?w0] =>
               destruct (to_csv d p w0) as [[[]|?] ?]
           end; reflexivity.
Qed.

(** What a sequence of writes leaves: the tables written before the
    first failure, all of them when it returns. *)
Lemma save_all_run (entries : list (string * DataFrame R)) w r w' :
  save_all entries w = (r, w') ->
  exists n, csv_files w' = csv_files w ++ firstn n entries /\
            stdout w' = stdout w /\ npy_files w' = npy_files w /\
            (r = Ok tt -> firstn n entries = entries).
Proof.
  revert w. induction entries as [|[path df] entries IH]; intros w E.
  - injection E as <- <-. exists 0. rewrite app_nil_r. auto.
  - cbn [save_all fst snd] in E. unfold mbind, IO_bind, to_csv in E.
    destruct (write_error w path) as [e|].
    + injection E as <- <-. exists 0. rewrite app_nil_r.
      repeat split. discriminate.
    + destruct (IH _ E) as (n & Ec & Eo & En & Er).
      cbn [stdout csv_files npy_files] in *.
      exists (S n). rewrite Ec, <- app_assoc. cbn [firstn app].
      repeat split; try assumption. intros ->. rewrite Er; reflexivity.
Qed.

(** On a disk that takes every write all the tables are written. *)
Lemma save_all_accepted (entries : list (string * DataFrame R)) w :
  (forall w0 p, write_error w0 p = None) ->
  save_all entries w
  = (Ok tt, {| stdout := stdout w;
               csv_files := csv_files w ++ entries;
               npy_files := npy_files w |}).
Proof.
  intros Hd. revert w. induction entries as [|[path df] entries IH]; intros w.
  - simpl. unfold mret, IO_ret. rewrite app_nil_r. destruct w; reflexivity.
  - cbn [save_all fst snd]. unfold mbind, IO_bind, to_csv.
    rewrite Hd, IH. cbn [stdout csv_files npy_files].
    rewrite <- app_assoc. reflexivity.
Qed.

(** With the branch that binds the tables not taken, the first enabled
    channel raises. *)
Lemma save_tables_unbound cfg w :
  save_tables cfg None w
  = (if any_channel cfg then Raise UnboundLocalError else Ok tt, w).
Proof.
  unfold save_tables, any_channel, load, lift.
  unfold mbind, IO_bind, mret, IO_ret.
  destruct (HOG_FISHER_VECTOR cfg), (HOF_FISHER_VECTOR cfg),
    (MBH_FISHER_VECTOR cfg); reflexivity.
Qed.

Lemma main_empty cfg w :
  main cfg [] w
  = (if any_channel cfg then Raise UnboundLocalError else Ok tt,
     {| stdout := stdout w ++ [NoInputFiles];
        csv_files := csv_files w;
        npy_files := npy_files w |}).
Proof.
  unfold main. unfold mbind at 1. unfold IO_bind. run_io.
  rewrite save_tables_unbound. reflexivity.
Qed.

Lemma main_listing cfg f listing w :
  main cfg (f :: listing) w
  = match Natsort.sorted_alphanumeric (f :: listing) with
    | Raise e => (Raise e, w)
    | Ok files =>
        match corpus_loop cfg 0 files new_tables w with
        | (Ok dfs, w1) => save_tables cfg (Some dfs) w1
        | (Raise e, w1) => (Raise e, w1)
        end
    end.
Proof.
  unfold main. unfold mbind, IO_bind, mret, IO_ret, lift.
  destruct (Natsort.sorted_alphanumeric (f :: listing)); [|reflexivity].
  destruct (corpus_loop cfg 0 a new_tables w) as [[dfs|e] w1]; reflexivity.
Qed.

(** The tables a run has written: none, or, the loop having gone through
    the whole sorted listing, those of [written] up to the first write
    that failed. *)
Lemma main_csv cfg listing w r w' :
  main cfg listing w = (r, w') ->
  csv_files w' = csv_files w \/
  exists files dfs w1 n,
    Natsort.sorted_alphanumeric listing = Ok files /\
    corpus_loop cfg 0 files new_tables w = (Ok dfs, w1) /\
    csv_files w' = csv_files w ++ firstn n (written cfg dfs).
Proof.
  destruct listing as [|f listing].
  - rewrite main_empty. intros E. injection E as _ <-. left. reflexivity.
  - rewrite main_listing.
    destruct (Natsort.sorted_alphanumeric (f :: listing)) as [files|e0].
    + pose proof (corpus_loop_csv cfg 0 files new_tables w) as P.
      destruct (corpus_loop cfg 0 files new_tables w) as [[dfs|e1] w1] eqn:El;
        simpl in P.
      * rewrite save_tables_bound. intros E.
        destruct (save_all_run _ _ _ _ E) as (n & Ec & _).
        right. exists files, dfs, w1, n. rewrite Ec, P. auto.
      * intros E. injection E as _ <-. left. exact P.
    + intros E. injection E as _ <-. left. reflexivity.
Qed.

(** A run over a non-empty listing that returns has sorted the listing,
    gone through the loop and then written the tables. *)
Lemma main_Ok cfg f listing w w' :
  main cfg (f :: listing) w = (Ok tt, w') ->
  exists files dfs w1,
    Natsort.sorted_alphanumeric (f :: listing) = Ok files /\
    corpus_loop cfg 0 files new_tables w = (Ok dfs, w1) /\
    csv_files w' = csv_files w ++ written cfg dfs.
Proof.
  rewrite main_listing.
  destruct (Natsort.sorted_alphanumeric (f :: listing)) as [files|e0];
    [|discriminate].
  pose proof (corpus_loop_csv cfg 0 files new_tables w) as P.
  destruct (corpus_loop cfg 0 files new_tables w) as [[dfs|e1] w1] eqn:E1;
    [|discriminate].
  simpl in P. rewrite save_tables_bound. intros E.
  destruct (save_all_run _ _ _ _ E) as (n & Ec & _ & _ & Er).
  exists files, dfs, w1. rewrite Ec, P, (Er eq_refl). auto.
Qed.

End ScriptFacts.

(** ** Runs of [main] *)

Section RunFacts.
Context {R : Type} `{Scalar R} `{Sklearn R} `{Tracker R} `{Disk R}.
Implicit Types (cfg : Config) (dfs : @tables R) (w : world R) (ch : channel).

Lemma enabled_any cfg ch : enabled cfg ch = true -> any_channel cfg = true.
Proof.
  unfold any_channel. destruct ch; simpl; intros ->;
    rewrite ?orb_true_r; reflexivity.
Qed.

Lemma vectors_of_length cfg ch i files (vs : list (list R)) :
  vectors_of cfg ch i files vs -> length vs = length files.
Proof.
  revert i vs. induction files as [|f files IH]; intros i [|v vs] F;
    simpl in F; try contradiction; [reflexivity|].
  simpl. f_equal. apply (IH (S i)), F.
Qed.

(** A run that returns, for an enabled channel: the sorted listing is not
    empty, every video of it gave the channel a vector, and the channel's
    table holds these vectors in that order. *)
Lemma main_Ok_table cfg listing w w' ch :
  main cfg listing w = (Ok tt, w') -> enabled cfg ch = true ->
  exists file files v vs dfs,
    Natsort.sorted_alphanumeric listing = Ok (file :: files) /\
    vectors_of cfg ch 0 (file :: files) (v :: vs) /\
    table ch dfs
    = add_rows new_frame
               (combine (map video_name (file :: files)) (v :: vs)) /\
    csv_files w' = csv_files w ++ written cfg dfs.
Proof.
  intros E Hch. destruct listing as [|f listing].
  - rewrite main_empty, (enabled_any cfg ch Hch) in E. discriminate.
  - destruct (main_Ok cfg f listing w w' E)
      as (files & dfs & w1 & Es & El & Ew).
    destruct (corpus_loop_Ok cfg 0 files new_tables w dfs w1 ch El Hch)
      as (vs & Hvs & Et).
    destruct files as [|file files].
    { apply NatsortFacts.sorted_alphanumeric_perm in Es.
      apply Permutation_sym, Permutation_nil in Es. discriminate. }
    destruct vs as [|v vs]; [destruct Hvs|].
    exists file, files, v, vs, dfs.
    repeat split; try assumption; try apply Hvs.
    rewrite Et. destruct ch; reflexivity.
Qed.

Lemma names_of_entries (files : list string) (vs : list (list R)) :
  length vs = length files ->
  map (fun e => @CStr R (fst e)) (combine (map video_name files) vs)
  = map (fun f => CStr (video_name f)) files.
Proof.
  revert vs. induction files as [|f files IH]; intros [|v vs] Hl;
    simpl in *; try discriminate; [reflexivity|].
  f_equal. apply IH. lia.
Qed.

Lemma written_filter cfg dfs ch :
  List.filter (fun e => String.eqb (fst e) (csv_path ch)) (written cfg dfs)
  = if enabled cfg ch && negb (empty (table ch dfs))
    then [(csv_path ch, table ch dfs)] else [].
Proof.
  unfold written. simpl flat_map.
  destruct ch; simpl enabled; simpl table;
    destruct (HOG_FISHER_VECTOR cfg), (HOF_FISHER_VECTOR cfg),
      (MBH_FISHER_VECTOR cfg); cbn [andb];
    repeat (destruct (negb (empty _))); reflexivity.
Qed.

Lemma written_In cfg dfs ch :
  enabled cfg ch = true -> empty (table ch dfs) = false ->
  In (csv_path ch, table ch dfs) (written cfg dfs).
Proof.
  intros He Ht.
  assert (F : In (csv_path ch, table ch dfs)
                 (List.filter (fun e => String.eqb (fst e) (csv_path ch))
                         (written cfg dfs))).
  { rewrite written_filter, He, Ht. left. reflexivity. }
  apply filter_In in F. apply F.
Qed.

(** Of a list that holds at most one entry for a path, a first part
    holds that entry or none. *)
Lemma filter_firstn {A} (f : A -> bool) (l : list A) (n : nat) :
  exists m, List.filter f (firstn n l) = firstn m (List.filter f l).
Proof.
  revert n. induction l as [|a l IH]; intros [|n]; simpl;
    try (exists 0; reflexivity).
  destruct (IH n) as [m Em]. rewrite Em.
  destruct (f a); [exists (S m)|exists m]; reflexivity.
Qed.

Lemma written_firstn_filter cfg dfs ch n :
  List.filter (fun e => String.eqb (fst e) (csv_path ch))
              (firstn n (written cfg dfs)) = [] \/
  List.filter (fun e => String.eqb (fst e) (csv_path ch))
              (firstn n (written cfg dfs)) = [(csv_path ch, table ch dfs)] /\
  enabled cfg ch = true /\ empty (table ch dfs) = false.
Proof.
  destruct (filter_firstn (fun e => String.eqb (fst e) (csv_path ch))
              (written cfg dfs) n) as [m ->].
  rewrite written_filter.
  destruct (enabled cfg ch) eqn:He; [|left; destruct m; reflexivity].
  destruct (empty (table ch dfs)) eqn:Et; [left; destruct m; reflexivity|].
  destruct m as [|m]; [left; reflexivity|].
  right. cbn [andb negb firstn]. destruct m; auto.
Qed.

End RunFacts.

Section RunClaims.
Context {R : Type} `{Scalar R} `{Sklearn R} `{Tracker R} `{Disk R}.
Implicit Types (cfg : Config) (dfs : @tables R) (w : world R) (ch : channel).

(** A video without trajectories ends the loop: the videos listed after
    it play no part in the run. *)
Lemma corpus_loop_stops cfg i pre file post dfs w :
  any_channel cfg = true -> densetrack (read_video file) = Ok [] ->
  corpus_loop cfg i (pre ++ file :: post) dfs w
  = corpus_loop cfg i (pre ++ [file]) dfs w /\
  exists e, fst (corpus_loop cfg i (pre ++ file :: post) dfs w) = Raise e.
Proof.
  intros Ec Et. rewrite !corpus_loop_app.
  destruct (corpus_loop cfg i pre dfs w) as [[dfs1|e] w1];
    [|split; [reflexivity|exists e; reflexivity]].
  cbn [corpus_loop]. unfold mbind, IO_bind.
  rewrite (process_video_empty cfg _ file dfs1 w1 Et Ec).
  split; [reflexivity|exists IndexError; reflexivity].
Qed.

(** C3, as amended.  When the tracker finds no trajectory in a video,
    every channel's pipeline raises [IndexError] on it (the empty array
    has no second axis), so the turn of the loop for that video raises
    [IndexError] whatever the tables hold, after its two lines of
    output.  Nothing catches the exception: a run of [main] over a
    listing with that video ends with an exception and has written no
    table.  The run is the loop over the videos sorted before that one
    and that one: the videos sorted after it are not started; and when
    the videos before it go through, the exception is that
    [IndexError] and the last output is the [Running] line of the
    video. *)
Theorem empty_batch_raises cfg listing file w :
  any_channel cfg = true ->
  In file listing -> densetrack (read_video file) = Ok [] ->
  (forall ch i, channel_vector cfg ch i [] = Raise IndexError) /\
  (forall i dfs w0,
     process_video cfg i file dfs w0
     = (Raise IndexError,
        {| stdout := stdout w0 ++ [Separator; Running file (frames_of file)];
           csv_files := csv_files w0;
           npy_files := npy_files w0 |})) /\
  exists e w',
    main cfg listing w = (Raise e, w') /\
    csv_files w' = csv_files w /\
    forall pre post,
      Natsort.sorted_alphanumeric listing = Ok (pre ++ file :: post) ->
      corpus_loop cfg 0 (pre ++ [file]) new_tables w = (Raise e, w') /\
      forall dfs1 w1,
        corpus_loop cfg 0 pre new_tables w = (Ok dfs1, w1) ->
        e = IndexError /\
        w' = {| stdout := stdout w1
                          ++ [Separator; Running file (frames_of file)];
                csv_files := csv_files w;
                npy_files := npy_files w1 |}.
Proof.
  intros Ec Hin Et. split; [intros ch i; apply channel_vector_empty|]. split.
  { intros i dfs w0. apply process_video_empty; assumption. }
  destruct listing as [|f listing]; [contradiction|].
  rewrite main_listing.
  destruct (Natsort.sorted_alphanumeric (f :: listing)) as [files|e0] eqn:Es.
  2:{ exists e0, w. split; [reflexivity|]. split; [reflexivity|].
      intros pre post Epp. discriminate. }
  assert (Hf : In file files).
  { eapply Permutation_in; [|exact Hin].
    apply NatsortFacts.sorted_alphanumeric_perm, Es. }
  apply in_split in Hf as (pre0 & post0 & ->).
  destruct (corpus_loop_stops cfg 0 pre0 file post0 new_tables w Ec Et)
    as [_ [e Ee]].
  pose proof (corpus_loop_csv cfg 0 (pre0 ++ file :: post0) new_tables w) as P.
  destruct (corpus_loop cfg 0 (pre0 ++ file :: post0) new_tables w)
    as [[dfs|e1] w1] eqn:E0; simpl in Ee, P; [discriminate|].
  exists e1, w1. split; [reflexivity|]. split; [exact P|].
  intros pre post Epp. injection Epp as Epp.
  destruct (corpus_loop_stops cfg 0 pre file post new_tables w Ec Et)
    as [El _].
  rewrite <- Epp, E0 in El. split; [symmetry; exact El|].
  intros dfs1 w2 E1. symmetry in El.
  rewrite corpus_loop_app, E1 in El. cbn [corpus_loop] in El.
  unfold mbind, IO_bind in El.
  rewrite (process_video_empty cfg _ file dfs1 w2 Et Ec) in El.
  injection El as <- <-. split; [reflexivity|].
  pose proof (corpus_loop_csv cfg 0 pre new_tables w) as P1.
  rewrite E1 in P1. simpl in P1. rewrite P1. reflexivity.
Qed.

(** C5.  On an empty listing the script prints its message and then
    raises [UnboundLocalError]: the tables it goes on to save were bound
    only in the branch it did not take. *)
Theorem main_empty_listing w :
  main script_config [] w
  = (Raise UnboundLocalError,
     {| stdout := stdout w ++ [NoInputFiles];
        csv_files := csv_files w;
        npy_files := npy_files w |}).
Proof. rewrite main_empty. reflexivity. Qed.

Lemma field_of_tuple (r : TrajectoryRecord R) (k : nat) x :
  nth_error [Nd.of_vector (hog r); Nd.of_vector (hof r);
             Nd.of_vector (mbh_x r); Nd.of_vector (mbh_y r)] (4 - k)
  = Some x ->
  1 <= k <= 4 -> field_from_end (as_tuple r) k = Ok x.
Proof.
  intros Hx Hk. unfold field_from_end, as_tuple. rewrite length_app.
  cbn [length].
  destruct (Nat.leb_spec k (length (metadata r) + 4)); [|lia].
  rewrite nth_error_app2 by lia.
  replace (length (metadata r) + 4 - k - length (metadata r)) with (4 - k)
    by lia.
  rewrite Hx. reflexivity.
Qed.

(** On records laid out as the specification has them, the field third
    from the end is the HOF block and the field second from the end is
    the MBH-X block. *)
Lemma read_block_records (batch : list (TrajectoryRecord R)) :
  read_block 3 (map as_tuple batch) = Ok (Nd.of_matrix (map hof batch)) /\
  read_block 2 (map as_tuple batch) = Ok (Nd.of_matrix (map mbh_x batch)).
Proof.
  unfold read_block, Nd.of_matrix.
  induction batch as [|r batch [IH3 IH2]]; [split; reflexivity|].
  cbn [map]. rewrite !NatsortFacts.mapM_cons.
  rewrite (field_of_tuple r 3 (Nd.of_vector (hof r))) by
    (try reflexivity; lia).
  rewrite (field_of_tuple r 2 (Nd.of_vector (mbh_x r))) by
    (try reflexivity; lia).
  cbn [mbind result_bind].
  destruct (mapM (fun record => field_from_end record 3)
                 (map as_tuple batch)) as [l3|]; [|discriminate].
  destruct (mapM (fun record => field_from_end record 2)
                 (map as_tuple batch)) as [l2|]; [|discriminate].
  cbn [mbind result_bind] in *.
  injection IH3 as ->. injection IH2 as ->. split; reflexivity.
Qed.

Lemma of_matrix_shape (m : list (list R)) (N D : nat) :
  length m = N -> Forall (fun r => length r = D) m ->
  Nd.has_shape [N; D] (Nd.of_matrix m).
Proof.
  intros HN Hm. unfold Nd.of_matrix. simpl.
  split; [rewrite length_map; exact HN|].
  apply List.Forall_forall. intros x Hx.
  apply in_map_iff in Hx as [r [<- Hr]].
  rewrite List.Forall_forall in Hm. rewrite <- (Hm r Hr).
  apply of_vector_shape.
Qed.

(** C7.  Records as the specification lays them out end in the blocks
    HOG, HOF, MBH-X, MBH-Y.  On a batch of such records [read_mbh], which
    takes the fields third and second from the end, returns the HOF
    blocks and the MBH-X blocks; the MBH vector of the video is the
    Fisher vector of the HOF matrix followed by that of the MBH-X matrix,
    and the MBH-Y blocks are not read.  With HOF blocks of [Df] numbers
    and MBH-X blocks of [Dx] numbers it has
    [(K + 2 K (Df/2)) + (K + 2 K (Dx/2))] numbers: 824, not 776, for the
    widths 108 and 96 and [K = 4]. *)
Theorem mbh_vector_of_records cfg i (batch : list (TrajectoryRecord R)) :
  read_mbh (map as_tuple batch)
  = Ok (Nd.of_matrix (map hof batch), Nd.of_matrix (map mbh_x batch)) /\
  mbh_vector cfg i (map as_tuple batch)
  = (hof_fv ← fisher_descriptor cfg (generator i 2)
                                (Nd.of_matrix (map hof batch));
     mbh_x_fv ← fisher_descriptor cfg (generator i 3)
                                  (Nd.of_matrix (map mbh_x batch));
     Ok (hof_fv ++ mbh_x_fv)) /\
  (forall batch',
     map hof batch' = map hof batch ->
     map mbh_x batch' = map mbh_x batch ->
     mbh_vector cfg i (map as_tuple batch')
     = mbh_vector cfg i (map as_tuple batch)) /\
  (forall Df Dx fv,
     SklearnShapes R -> 1 <= length batch -> 1 <= K cfg ->
     Forall (fun r => length (hof r) = Df /\ length (mbh_x r) = Dx) batch ->
     mbh_vector cfg i (map as_tuple batch) = Ok fv ->
     length fv
     = (K cfg + 2 * K cfg * (Df / 2)) + (K cfg + 2 * K cfg * (Dx / 2)) /\
     (Df = 108 -> Dx = 96 -> K cfg = 4 -> length fv = 824)).
Proof.
  destruct (read_block_records batch) as [E3 E2].
  assert (Er : forall b : list (TrajectoryRecord R),
             read_mbh (map as_tuple b)
             = Ok (Nd.of_matrix (map hof b), Nd.of_matrix (map mbh_x b))).
  { intros b. destruct (read_block_records b) as [F3 F2].
    unfold read_mbh. rewrite F3, F2. reflexivity. }
  assert (Ev : forall b : list (TrajectoryRecord R),
             mbh_vector cfg i (map as_tuple b)
             = (hof_fv ← fisher_descriptor cfg (generator i 2)
                                           (Nd.of_matrix (map hof b));
                mbh_x_fv ← fisher_descriptor cfg (generator i 3)
                                             (Nd.of_matrix (map mbh_x b));
                Ok (hof_fv ++ mbh_x_fv))).
  { intros b. unfold mbh_vector. rewrite Er. reflexivity. }
  split; [apply Er|]. split; [apply Ev|]. split.
  { intros b' Hf Hx. rewrite !Ev, Hf, Hx. reflexivity. }
  intros Df Dx fv S HN HK Hw E. rewrite Ev in E.
  destruct (fisher_descriptor cfg (generator i 2) _) as [xfv|] eqn:Ex;
    [|discriminate].
  destruct (fisher_descriptor cfg (generator i 3) _) as [yfv|] eqn:Ey;
    [|discriminate].
  cbn [mbind result_bind] in E. injection E as <-.
  assert (Sf : Nd.has_shape [length batch; Df] (Nd.of_matrix (map hof batch))).
  { apply of_matrix_shape; [apply length_map|].
    apply List.Forall_forall. intros x Hx.
    apply in_map_iff in Hx as [r [<- Hr]].
    rewrite List.Forall_forall in Hw. apply (Hw r Hr). }
  assert (Sx : Nd.has_shape [length batch; Dx]
                            (Nd.of_matrix (map mbh_x batch))).
  { apply of_matrix_shape; [apply length_map|].
    apply List.Forall_forall. intros x Hx.
    apply in_map_iff in Hx as [r [<- Hr]].
    rewrite List.Forall_forall in Hw. apply (Hw r Hr). }
  pose proof (fisher_descriptor_length cfg _ _ Df _ xfv S Sf HN HK Ex) as Lx.
  pose proof (fisher_descriptor_length cfg _ _ Dx _ yfv S Sx HN HK Ey) as Ly.
  unfold half in Lx, Ly. rewrite length_app, Lx, Ly.
  split; [reflexivity|]. intros -> -> ->. reflexivity.
Qed.

(** C9.  For an enabled channel, whatever the run of [main] does: during
    the loop no table is written; the run writes the channel's table at
    most once, and exactly once when it returns; a table it has written
    was written after the loop had gone through every video of the
    listing, and has the columns [name, 0, ..., L-1], [L] being the
    length of the first appended vector, and one row per video, named
    after the videos in the order of the loop.  A table without rows is
    not written. *)
Theorem table_written_once cfg listing w res w' ch :
  main cfg listing w = (res, w') -> enabled cfg ch = true ->
  (forall i files dfs w0,
     csv_files (snd (corpus_loop cfg i files dfs w0)) = csv_files w0) /\
  (exists new,
     csv_files w' = csv_files w ++ new /\
     length (List.filter (fun e => String.eqb (fst e) (csv_path ch)) new)
     <= 1 /\
     (res = Ok tt ->
      length (List.filter (fun e => String.eqb (fst e) (csv_path ch)) new)
      = 1) /\
     forall df, In (csv_path ch, df) new ->
       exists files v vs dfs w1,
         Permutation listing files /\
         corpus_loop cfg 0 files new_tables w = (Ok dfs, w1) /\
         vectors_of cfg ch 0 files (v :: vs) /\
         df = add_rows new_frame
                       (combine (map video_name files) (v :: vs)) /\
         columns df = "name"%string :: map str (seq 0 (length v)) /\
         length (rows df) = length files /\
         length (rows df) = length listing /\
         name_column df = map (fun f => CStr (video_name f)) files) /\
  (forall (df : DataFrame R) path w0,
     length (rows df) = 0 -> save_as_csv df path w0 = (Ok tt, w0)).
Proof.
  intros E Hch. split; [intros; apply corpus_loop_csv|]. split.
  2:{ intros df path w0 Hr. apply save_as_csv_empty.
      unfold empty. rewrite Hr, orb_true_r. reflexivity. }
  destruct (main_csv cfg listing w res w' E)
    as [Ec|(files & dfs & w1 & n & Es & El & Ec)].
  { exists []. rewrite app_nil_r. split; [exact Ec|]. split; [simpl; lia|].
    split; [|intros df []].
    intros ->. exfalso.
    destruct (main_Ok_table cfg listing w w' ch E Hch)
      as (file & fs & v & vs & dfs & _ & Hvs & Et & Ew).
    assert (Hin : In (csv_path ch, table ch dfs) (written cfg dfs)).
    { apply written_In; [exact Hch|]. rewrite Et.
      apply (add_rows_new (video_name file) v). }
    rewrite Ec in Ew.
    assert (Enil : written cfg dfs = []).
    { apply (app_inv_head (csv_files w)). rewrite app_nil_r.
      symmetry. exact Ew. }
    rewrite Enil in Hin. destruct Hin. }
  exists (firstn n (written cfg dfs)). split; [exact Ec|].
  destruct (corpus_loop_Ok cfg 0 files new_tables w dfs w1 ch El Hch)
    as (vs0 & Hvs & Et).
  assert (Hfull : res = Ok tt -> firstn n (written cfg dfs) = written cfg dfs).
  { intros ->. destruct listing as [|f listing].
    - rewrite main_empty, (enabled_any cfg ch Hch) in E. discriminate.
    - destruct (main_Ok cfg f listing w w' E)
        as (files' & dfs' & w1' & Es' & El' & Ew).
      rewrite Es in Es'. injection Es' as <-.
      rewrite El in El'. injection El' as <- <-.
      rewrite Ec in Ew. apply app_inv_head in Ew. exact Ew. }
  assert (Hne : files <> [] -> empty (table ch dfs) = false /\
                exists v vs, vs0 = v :: vs).
  { intros Hf. destruct files as [|file fs]; [contradiction|].
    destruct vs0 as [|v vs]; [destruct Hvs|].
    split; [|eauto]. rewrite Et.
    replace (table ch new_tables) with (@new_frame R)
      by (destruct ch; reflexivity).
    apply (add_rows_new (video_name file) v). }
  destruct (written_firstn_filter cfg dfs ch n) as [F|(F & _ & Ht)].
  - rewrite F. split; [simpl; lia|]. split.
    + intros Hres. exfalso. rewrite (Hfull Hres), written_filter, Hch in F.
      destruct files as [|file fs].
      * destruct listing as [|f listing];
          [subst res; rewrite main_empty, (enabled_any cfg ch Hch) in E;
           discriminate|].
        apply NatsortFacts.sorted_alphanumeric_perm in Es.
        apply Permutation_sym, Permutation_nil in Es. discriminate.
      * destruct Hne as [He _]; [discriminate|].
        rewrite He in F. discriminate.
    + intros df Hin. exfalso.
      assert (Hf : In (csv_path ch, df)
                      (List.filter
                         (fun e => String.eqb (fst e) (csv_path ch))
                         (firstn n (written cfg dfs)))).
      { apply filter_In. split; [exact Hin|]. apply String.eqb_refl. }
      rewrite F in Hf. destruct Hf.
  - rewrite F. split; [simpl; lia|]. split; [reflexivity|].
    intros df Hin.
    assert (Hf : In (csv_path ch, df)
                    (List.filter
                       (fun e => String.eqb (fst e) (csv_path ch))
                       (firstn n (written cfg dfs)))).
    { apply filter_In. split; [exact Hin|]. apply String.eqb_refl. }
    rewrite F in Hf. destruct Hf as [Hf|[]]. injection Hf as <-.
    assert (Hfiles : files <> []).
    { intros ->. destruct vs0; [|destruct Hvs].
      rewrite Et in Ht. destruct ch; discriminate. }
    destruct (Hne Hfiles) as (_ & v & vs & ->).
    destruct files as [|file fs]; [contradiction|].
    pose proof (vectors_of_length _ _ _ _ _ Hvs) as Hl. simpl in Hl.
    pose proof (NatsortFacts.sorted_alphanumeric_perm _ _ Es) as P.
    replace (table ch new_tables) with (@new_frame R) in Et
      by (destruct ch; reflexivity).
    simpl map in Et. simpl combine in Et.
    destruct (add_rows_new (video_name file) v
                (combine (map video_name fs) vs))
      as (C & L & Nm & Em).
    exists (file :: fs), v, vs, dfs, w1.
    split; [exact P|]. split; [exact El|]. split; [exact Hvs|].
    split; [exact Et|]. rewrite Et.
    split; [exact C|].
    assert (Lr : length (rows (add_rows new_frame
                   ((video_name file, v) :: combine (map video_name fs) vs)))
                 = length (file :: fs)).
    { rewrite L, length_combine, length_map. simpl. lia. }
    split; [exact Lr|]. split.
    + rewrite Lr. symmetry. apply Permutation_length, P.
    + rewrite Nm. simpl. f_equal. apply names_of_entries. lia.
Qed.

(** C4.  [sorted_alphanumeric] computes the key of every name before it
    sorts, and a key takes [int] of every piece of the name that
    [isdigit] accepts.  [isdigit] accepts the superscript digits, [int]
    does not.  So a name with a piece made of superscript digits only (a
    superscript between two numbers, or a name that is one) has no key,
    and a listing that holds such a name is not sorted: the sort raises
    [ValueError], and [main] ends with it before the first video, with
    nothing printed and nothing written, whatever else is listed and in
    whatever order. *)
Theorem natural_sort_raises cfg listing name piece w :
  In name listing ->
  In piece (Natsort.re_split name) ->
  Natsort.isdigit piece = true -> Natsort.no_digit piece ->
  Natsort.alphanum_key name = Raise ValueError /\
  Natsort.sorted_alphanumeric listing = Raise ValueError /\
  (forall listing', Permutation listing listing' ->
     Natsort.sorted_alphanumeric listing' = Raise ValueError) /\
  main cfg listing w = (Raise ValueError, w).
Proof.
  intros Hn Hp Hd Ht.
  assert (Ep : Natsort.convert piece = Raise ValueError).
  { rewrite NatsortFacts.convert_text by exact Ht. rewrite Hd. reflexivity. }
  assert (Ek : Natsort.alphanum_key name = Raise ValueError).
  { destruct (NatsortFacts.mapM_In_Raise Natsort.convert _ _ _ Hp Ep)
      as [e Ee].
    unfold Natsort.alphanum_key. rewrite Ee. f_equal.
    apply (NatsortFacts.alphanum_key_raises name), Ee. }
  assert (Es : forall l, In name l ->
                         Natsort.sorted_alphanumeric l = Raise ValueError).
  { intros l Hl.
    apply (NatsortFacts.sorted_alphanumeric_no_key l name _ Hl Ek). }
  split; [exact Ek|]. split; [apply Es, Hn|]. split.
  - intros listing' P. apply Es. eapply Permutation_in; eassumption.
  - destruct listing as [|f listing]; [contradiction|].
    rewrite main_listing, (Es _ Hn). reflexivity.
Qed.

End RunClaims.

(** C3, as stated, fails: the tracker finds nothing in [still.avi]; the
    run raises [IndexError] on it and never starts [zoom.avi]. *)
Lemma empty_batch_stops_run :
  densetrack (read_video "still.avi") = Ok [] /\
  main Sample.small_config ["still.avi"; "zoom.avi"]%string new_world
  = (Raise IndexError,
     {| stdout := [Separator; Running "still.avi" 0];
        csv_files := [];
        npy_files := [] |}).
Proof. split; vm_compute; reflexivity. Qed.

(** C3, as amended, on a run over three videos, the second of which has
    no trajectory. *)
Lemma empty_batch_raises_witness :
  main Sample.small_config ["zoom.avi"; "still.avi"; "a.avi"]%string
       new_world
  = (Raise IndexError,
     {| stdout := [Separator; Running "a.avi" 3; Completed "a.avi";
                   Separator; Running "still.avi" 0];
        csv_files := [];
        npy_files := [] |}).
Proof.
  destruct (empty_batch_raises Sample.small_config
              ["zoom.avi"; "still.avi"; "a.avi"]%string
              "still.avi"%string new_world)
    as (_ & _ & e & w' & Em & _ & F).
  - reflexivity.
  - right. left. reflexivity.
  - vm_compute. reflexivity.
  - destruct (F ["a.avi"%string] ["zoom.avi"%string]) as [_ G];
      [vm_compute; reflexivity|].
    let r := eval vm_compute in
               (corpus_loop Sample.small_config 0 ["a.avi"%string]
                            new_tables new_world) in
    match r with
    | (Ok ?d1, ?w1) =>
        destruct (G d1 w1) as [He Hw]; [vm_compute; reflexivity|]
    end.
    rewrite Em, He, Hw. vm_compute. reflexivity.
Defined.

(** C7 on 54 records with the widths 96, 108, 96, 96 and [K = 4]. *)
Lemma mbh_vector_of_records_witness :
  exists fv,
    mbh_vector Cases.scenario_config 0 (map as_tuple Cases.trajectories)
    = Ok fv /\
    length fv = 824.
Proof.
  destruct (mbh_vector_of_records Cases.scenario_config 0 Cases.trajectories)
    as (_ & _ & _ & F).
  let r := eval vm_compute in
             (mbh_vector Cases.scenario_config 0
                         (map as_tuple Cases.trajectories)) in
  match r with
  | Ok ?fv =>
      assert (E : mbh_vector Cases.scenario_config 0
                             (map as_tuple Cases.trajectories) = Ok fv)
        by (vm_compute; reflexivity);
      exists fv; split; [exact E|];
      destruct (F 108 96 fv) as [_ L];
      [exact sample_shapes|vm_compute; lia|simpl; lia| |exact E|
       apply L; reflexivity]
  end.
  apply List.Forall_forall. intros r Hr.
  apply in_map_iff in Hr as [i [<- _]].
  unfold Cases.trajectory. cbn [hof mbh_x].
  unfold Sample.values. rewrite !length_map, !length_seq. auto.
Defined.

(** C9 on a run over two videos: on a disk that takes every write, and
    on a disk that fails after the first table. *)
Lemma table_written_once_witness :
  (exists new,
     csv_files (snd (main Sample.small_config
                          ["b10.avi"; "b2.avi"]%string new_world))
     = [] ++ new /\
     length (List.filter (fun e => String.eqb (fst e) (csv_path HOF)) new)
     = 1) /\
  (exists new,
     csv_files (snd (@main Q _ _ _ Cases.small_disk Sample.small_config
                           ["b10.avi"; "b2.avi"]%string new_world))
     = [] ++ new /\
     length (List.filter (fun e => String.eqb (fst e) (csv_path HOF)) new)
     <= 1).
Proof.
  split.
  - let w' := eval vm_compute in
                (snd (main Sample.small_config
                           ["b10.avi"; "b2.avi"]%string new_world)) in
    destruct (table_written_once Sample.small_config
                ["b10.avi"; "b2.avi"]%string new_world (Ok tt) w' HOF)
      as (_ & (new & Ec & _ & L & _) & _);
      [vm_compute; reflexivity|reflexivity|].
    exists new. split; [exact Ec|exact (L eq_refl)].
  - let r := eval vm_compute in
               (@main Q _ _ _ Cases.small_disk Sample.small_config
                      ["b10.avi"; "b2.avi"]%string new_world) in
    match r with
    | (?res, ?w') =>
        destruct (@table_written_once Q _ _ _ Cases.small_disk
                    Sample.small_config
                    ["b10.avi"; "b2.avi"]%string new_world res w' HOF)
          as (_ & (new & Ec & L & _) & _);
          [vm_compute; reflexivity|reflexivity|]
    end.
    exists new. split; [exact Ec|exact L].
Defined.

(** C4 on a listing with [clip10.avi], [clip2.avi] and a name that has
    the superscript two between [1] and [2]. *)
Lemma natural_sort_raises_witness :
  Natsort.re_split Cases.squared
  = ["clip"; "1"; String Cases.superscript_two ""; "2"; ".avi"]%string /\
  main Sample.small_config
       ["clip10.avi"; "clip2.avi"; Cases.squared]%string new_world
  = (Raise ValueError, new_world).
Proof.
  split; [vm_compute; reflexivity|].
  apply (natural_sort_raises Sample.small_config
           ["clip10.avi"; "clip2.avi"; Cases.squared]%string
           Cases.squared (String Cases.superscript_two "") new_world).
  - right. right. left. reflexivity.
  - vm_compute. right. right. left. reflexivity.
  - reflexivity.
  - reflexivity.
Defined.

(** ** The descriptor extractor *)

Section ExtractorFacts.
Context {R : Type}.
Implicit Types (t : list (list (ndarray R))) (r : list (ndarray R)).

Lemma field_from_end_Ok r k :
  1 <= k -> k <= length r ->
  exists x, field_from_end r k = Ok x /\
            nth_error r (length r - k) = Some x.
Proof.
  intros H1 H2. unfold field_from_end.
  destruct (Nat.leb_spec k (length r)); [|lia].
  destruct (nth_error r (length r - k)) as [x|] eqn:E; [eauto|].
  apply nth_error_None in E. lia.
Qed.

Lemma field_from_end_short r k :
  length r < k -> field_from_end r k = Raise IndexError.
Proof.
  intros Hk. unfold field_from_end.
  destruct (Nat.leb_spec k (length r)); [lia|reflexivity].
Qed.

Lemma read_block_cons k r t :
  read_block k (r :: t)
  = (x ← field_from_end r k; d ← read_block k t;
     Ok (Arr (x :: Nd.items d))).
Proof.
  unfold read_block. cbn [mapM].
  destruct (field_from_end r k) as [x|e]; [|reflexivity].
  cbn [mbind result_bind].
  destruct (mapM (fun record => field_from_end record k) t); reflexivity.
Qed.

Lemma read_block_Arr k t d : read_block k t = Ok d -> d = Arr (Nd.items d).
Proof.
  unfold read_block.
  destruct (mapM (fun record => field_from_end record k) t);
    [|discriminate].
  intros E. injection E as <-. reflexivity.
Qed.

(** X1.  [read_hog], [read_hof] and [read_mbh] take the field at a fixed
    distance [k] from the end of every record.  When every record has at
    least [k] fields the result is the array of these fields, one per
    trajectory, in the order of the batch; as soon as one record is shorter
    the call raises [IndexError]. *)
Theorem read_block_fields (k : nat) t :
  1 <= k ->
  (Forall (fun r => k <= length r) t ->
   exists l, read_block k t = Ok (Arr l) /\
             length l = length t /\
             forall i r, nth_error t i = Some r ->
                         nth_error l i = nth_error r (length r - k)) /\
  (Exists (fun r => length r < k) t -> read_block k t = Raise IndexError).
Proof.
  intros Hk. split.
  - induction 1 as [|r t Hr _ IH].
    + exists []. split; [reflexivity|]. split; [reflexivity|].
      intros [|i] r E; discriminate.
    + destruct IH as (l & E & L & F).
      destruct (field_from_end_Ok r k Hk Hr) as (x & Ex & Nx).
      exists (x :: l). rewrite read_block_cons, Ex, E. split; [reflexivity|].
      split; [simpl; lia|].
      intros [|i] r' Er; simpl in Er |- *.
      * injection Er as <-. symmetry. exact Nx.
      * apply F, Er.
  - induction t as [|r t IH]; intros E; [inversion E|].
    rewrite read_block_cons.
    destruct (Nat.lt_ge_cases (length r) k) as [Hr|Hr].
    + rewrite field_from_end_short by exact Hr. reflexivity.
    + destruct (field_from_end_Ok r k Hk Hr) as (x & -> & _).
      cbn [mbind result_bind]. rewrite IH; [reflexivity|].
      inversion E; subst; [lia|assumption].
Qed.

(** X2.  When the field at distance [k] from the end has the same shape
    [sh] in every record of a batch that is not empty, the extracted
    array has shape [N :: sh] for the [N] records of the batch: blocks of
    [D] numbers give a descriptor matrix whose shape is [(N, D)]. *)
Theorem read_block_shape (k : nat) (sh : list nat) t :
  t <> [] ->
  Forall (fun r => k <= length r /\
                   exists b, nth_error r (length r - k) = Some b /\
                             Nd.has_shape sh b) t ->
  exists d, read_block k t = Ok d /\
            Nd.has_shape (length t :: sh) d /\
            (forall D, sh = [D] -> Nd.shape d = [length t; D]).
Proof.
  intros Hne Ht.
  assert (G : exists d, read_block k t = Ok d /\
                        Nd.has_shape (length t :: sh) d).
  { clear Hne. induction Ht as [|r t (Hk & b & Eb & Hb) _ IH].
    - exists (Arr []). split; [reflexivity|]. simpl. auto.
    - destruct IH as (d & Ed & Hd).
      assert (Ef : field_from_end r k = Ok b).
      { unfold field_from_end. rewrite Eb.
        destruct (Nat.leb_spec k (length r)); [reflexivity|lia]. }
      exists (Arr (b :: Nd.items d)).
      rewrite read_block_cons, Ef, Ed. split; [reflexivity|].
      rewrite (read_block_Arr k t d Ed) in Hd. simpl in Hd |- *.
      destruct Hd as [L F]. split; [lia|]. constructor; assumption. }
  destruct G as (d & Ed & Hd). exists d.
  split; [exact Ed|]. split; [exact Hd|].
  intros D ->. apply (shape_of_has_shape [length t; D] d Hd).
  simpl. constructor; [|constructor].
  destruct t; [contradiction|simpl; lia].
Qed.

End ExtractorFacts.

(** ** The pipeline on arrays that are not matrices *)

Section PipelineEdges.
Context {R : Type} `{Scalar R} `{Sklearn R}.

(** X3.  An array of fewer than two dimensions (an empty batch, a batch of
    scalar blocks) has no second axis: the pipeline raises [IndexError]
    before it calls the library. *)
Theorem fisher_descriptor_needs_matrix cfg rs (a : ndarray R) :
  Nd.ndim a < 2 -> fisher_descriptor cfg rs a = Raise IndexError.
Proof.
  intros Hd. unfold fisher_descriptor, as_2d.
  destruct (Nat.ltb_spec 2 (Nd.ndim a)); [lia|].
  unfold reduce, Nd.shape_at. unfold Nd.ndim in Hd.
  destruct (nth_error (Nd.shape a) 1) eqn:E; [|reflexivity].
  assert (1 < length (Nd.shape a)) by (apply nth_error_Some; congruence).
  lia.
Qed.

Lemma flatten_rows_matrix N sh (a : ndarray R) :
  Nd.has_shape (N :: sh) a ->
  Nd.has_shape [N; Nd.size sh] (flatten_rows a).
Proof.
  destruct a as [x|l]; [contradiction|]. intros [HN Hl].
  unfold flatten_rows. simpl. split; [rewrite length_map; exact HN|].
  rewrite List.Forall_forall in Hl |- *. intros r Hr.
  apply in_map_iff in Hr as [y [<- Hy]].
  rewrite <- (flatten_length sh y (Hl y Hy)). apply of_vector_shape.
Qed.

(** X4.  On an array of more than two dimensions, of shape [N :: sh], the
    pipeline works on the matrix of the flattened rows: the PCA is asked
    for half of [size sh] components of that matrix, and when the three
    library calls return the pipeline returns the Fisher vector of the
    reduced matrix, [K + 2 K (size sh / 2)] numbers. *)
Theorem fisher_descriptor_patches cfg rs N sh (a : ndarray R) :
  SklearnShapes R ->
  Nd.has_shape (N :: sh) a -> Nd.shape a = N :: sh -> 2 <= length sh ->
  1 <= K cfg ->
  fisher_descriptor cfg rs a
  = (Y ← PCA_fit_transform rs (Nd.size sh / 2) (flatten_rows a);
     g ← GMM_fit rs (K cfg) Y;
     fisher_vector Y g) /\
  (forall Y g Qm,
     PCA_fit_transform rs (Nd.size sh / 2) (flatten_rows a) = Ok Y ->
     GMM_fit rs (K cfg) Y = Ok g ->
     predict_proba g Y = Ok Qm ->
     exists fv, fisher_descriptor cfg rs a = Ok fv /\
                fisher_vector Y g = Ok fv /\
                length fv = K cfg + 2 * K cfg * (Nd.size sh / 2)) /\
  (forall fv, fisher_descriptor cfg rs a = Ok fv ->
              length fv = K cfg + 2 * K cfg * (Nd.size sh / 2)).
Proof.
  intros Sk Ha Hs Hlen HK.
  pose proof (flatten_rows_matrix N sh a Ha) as Hm.
  assert (HN : 1 <= N).
  { destruct a as [x|[|y l]]; [contradiction| |destruct Ha; simpl in *; lia].
    simpl in Hs. injection Hs as _ <-. simpl in Hlen. lia. }
  assert (E : fisher_descriptor cfg rs a
              = fisher_descriptor cfg rs (flatten_rows a)).
  { unfold fisher_descriptor at 1 2. f_equal.
    - rewrite (as_2d_matrix N (Nd.size sh) _ Hm).
      unfold as_2d, Nd.ndim. rewrite Hs. simpl length.
      destruct (Nat.ltb_spec 2 (S (length sh))); [reflexivity|lia]. }
  rewrite E. split; [|split].
  - apply (fisher_descriptor_matrix cfg rs N (Nd.size sh) _ Hm HN).
  - intros Y g Qm HY Hg HQ.
    apply (fisher_descriptor_returns cfg rs N (Nd.size sh) _ Y g Qm
             Sk Hm HN HK HY Hg HQ).
  - intros fv Efv.
    apply (fisher_descriptor_length cfg rs N (Nd.size sh) _ fv
             Sk Hm HN HK Efv).
Qed.

End PipelineEdges.

(** ** Rows of a table *)

Section RowFacts.
Context {R : Type}.
Implicit Types (df : DataFrame R) (fs : list R).

Lemma new_row_data_cell name fs j :
  default CNaN (new_row_data name fs !! str j) = cell_of fs j.
Proof.
  unfold new_row_data, cell_of. rewrite (features_lookup fs 0 _ j).
  cbn [Nat.leb andb Nat.add]. rewrite Nat.sub_0_r.
  destruct (Nat.ltb_spec j (length fs)) as [Hj|Hj].
  - destruct (nth_error fs j); reflexivity.
  - rewrite lookup_singleton_ne by (apply not_eq_sym, str_not_name).
    destruct (nth_error fs j) eqn:E; [|reflexivity].
    assert (j < length fs) by (apply nth_error_Some; congruence). lia.
Qed.

Lemma cells_past_end (L a : nat) :
  map (@cell_of R []) (seq a L) = repeat CNaN L.
Proof.
  revert a. induction L as [|L IH]; intros a; [reflexivity|].
  simpl. rewrite IH. unfold cell_of. destruct a; reflexivity.
Qed.

Lemma cells_take_pad fs L :
  map (cell_of fs) (seq 0 L)
  = map CFloat (firstn L fs) ++ repeat CNaN (L - length fs).
Proof.
  revert L. induction fs as [|x fs IH]; intros L.
  - rewrite firstn_nil, Nat.sub_0_r. apply cells_past_end.
  - destruct L as [|L]; [reflexivity|].
    simpl. f_equal. rewrite <- seq_shift, map_map. apply IH.
Qed.

(** The row of a vector in a table with the labels [0 .. L-1]. *)
Lemma row_at_labels name fs L :
  row_at ("name"%string :: map str (seq 0 L)) (new_row_data name fs)
  = CStr name :: map CFloat (firstn L fs) ++ repeat CNaN (L - length fs).
Proof.
  unfold row_at. cbn [map]. rewrite new_row_data_name. cbn [default].
  f_equal. rewrite map_map, <- cells_take_pad.
  apply map_ext. intros j. apply new_row_data_cell.
Qed.

(** X5.  The row [add_row_to_table] appends.  To an empty table it gives
    the columns [name, 0, ..., n-1] for a vector of [n] components and the
    row is the name followed by the components.  A table that has rows
    keeps its width [L]: the row is the name, then the first [L]
    components, the further ones dropped, then NaN for every label the
    vector does not reach. *)
Theorem add_row_contents df name fs :
  (empty df = true ->
   add_row_to_table df name fs
   = {| columns := "name"%string :: map str (seq 0 (length fs));
        rows := [CStr name :: map CFloat fs] |}) /\
  (forall L,
     empty df = false ->
     columns df = "name"%string :: map str (seq 0 L) ->
     add_row_to_table df name fs
     = {| columns := columns df;
          rows := rows df
                  ++ [CStr name :: map CFloat (firstn L fs)
                                ++ repeat CNaN (L - length fs)] |}).
Proof.
  split.
  - apply add_row_first.
  - intros L E C. rewrite add_row_next by exact E.
    rewrite C, row_at_labels. reflexivity.
Qed.

Lemma row_at_length cols (d : gmap string (cell R)) :
  length (row_at cols d) = length cols.
Proof. apply length_map. Qed.

Lemma add_row_rectangular df name fs :
  rectangular df -> rectangular (add_row_to_table df name fs).
Proof.
  intros Hr. unfold rectangular. destruct (empty df) eqn:E.
  - rewrite add_row_first by exact E. simpl.
    constructor; [|constructor]. simpl. rewrite !length_map, length_seq.
    reflexivity.
  - rewrite add_row_next by exact E. simpl.
    apply Forall_app. split; [exact Hr|].
    constructor; [apply row_at_length|constructor].
Qed.

(** X6.  Tables only grow.  Appending entries to a table that has rows
    leaves its columns and its rows as they are and adds one row per
    entry behind them; and every table keeps one cell per column in every
    row. *)
Theorem add_rows_append_only df (entries : list (string * list R)) :
  (empty df = false ->
   exists added,
     rows (add_rows df entries) = rows df ++ added /\
     length added = length entries /\
     columns (add_rows df entries) = columns df) /\
  (rectangular df -> rectangular (add_rows df entries)).
Proof.
  split.
  - revert df. induction entries as [|[n v] entries IH]; intros df E.
    + exists []. rewrite app_nil_r. auto.
    + simpl.
      destruct (IH (add_row_to_table df n v) (add_row_not_empty df n v))
        as (added & Er & El & Ec).
      rewrite Er, Ec, add_row_next by exact E. simpl.
      eexists (_ :: added). rewrite <- app_assoc. simpl.
      repeat split. lia.
  - revert df. induction entries as [|[n v] entries IH]; intros df Hr;
      [exact Hr|].
    simpl. apply IH, add_row_rectangular, Hr.
Qed.

End RowFacts.

(** ** More on the natural sort *)

Module NatsortMore.
Import Natsort NatsortFacts.

Lemma tie_eq u v : tie u v = true <-> u = v.
Proof.
  unfold tie. split.
  - intros E. apply andb_prop in E as [E1 E2].
    apply negb_true_iff in E1, E2. apply key_ltb_total; assumption.
  - intros ->. rewrite key_ltb_irrefl. reflexivity.
Qed.

Section Stable.
Context {A : Type} (k0 : list piece).

Lemma nothing_tied_above k k' (y : A) l :
  key_ltb k k' = true -> tie k k0 = true ->
  Forall (keyed_le (k', y)) l ->
  List.filter (tied k0) ((k', y) :: l) = [].
Proof.
  intros E T Hall. apply tie_eq in T.
  assert (N : forall z : list piece * A,
             z = (k', y) \/ In z l -> tied k0 z = false).
  { intros z Hz. unfold tied. destruct (tie (fst z) k0) eqn:Tz; [|reflexivity].
    apply tie_eq in Tz. exfalso. destruct Hz as [->|Hz].
    - simpl in Tz. rewrite Tz, T, key_ltb_irrefl in E. discriminate.
    - rewrite List.Forall_forall in Hall. specialize (Hall z Hz).
      unfold keyed_le in Hall. simpl in Hall. rewrite Tz, <- T in Hall.
      congruence. }
  simpl. rewrite (N (k', y)) by (left; reflexivity).
  induction l as [|z l IH]; [reflexivity|].
  simpl. rewrite (N z) by (right; left; reflexivity).
  apply IH.
  - apply Forall_inv_tail in Hall. exact Hall.
  - intros z' [->|Hz']; apply N; [left; reflexivity|right; right; exact Hz'].
Qed.

Lemma insert_pure_tied k (x : A) l :
  StronglySorted keyed_le l ->
  List.filter (tied k0) (insert_pure k x l)
  = List.filter (tied k0) l ++ (if tie k k0 then [(k, x)] else []).
Proof.
  induction 1 as [|[k' y] l Hs IH Hall].
  - simpl. unfold tied at 1. simpl. destruct (tie k k0); reflexivity.
  - cbn [insert_pure]. destruct (key_ltb k k') eqn:E.
    + cbn [List.filter]. unfold tied at 1. cbn [fst].
      destruct (tie k k0) eqn:T.
      * change (if tied k0 (k', y) then (k', y) :: List.filter (tied k0) l
                else List.filter (tied k0) l)
          with (List.filter (tied k0) ((k', y) :: l)).
        rewrite (nothing_tied_above k k' y l E T Hall). reflexivity.
      * rewrite app_nil_r. reflexivity.
    + cbn [List.filter]. rewrite IH.
      destruct (tied k0 (k', y)); reflexivity.
Qed.

Lemma sort_pure_tied (acc data : list (list piece * A)) :
  StronglySorted keyed_le acc ->
  List.filter (tied k0) (sort_pure acc data)
  = List.filter (tied k0) acc ++ List.filter (tied k0) data.
Proof.
  revert acc. induction data as [|[k x] data IH]; intros acc Hacc.
  - simpl. rewrite app_nil_r. reflexivity.
  - cbn [sort_pure List.filter].
    rewrite IH by (apply insert_pure_sorted, Hacc).
    rewrite insert_pure_tied by exact Hacc.
    unfold tied at 4. cbn [fst]. rewrite <- app_assoc.
    destruct (tie k k0); reflexivity.
Qed.

End Stable.

Lemma filter_decorated k0 s0 (r : list (list piece * string)) :
  alphanum_key s0 = Ok k0 -> decorated r ->
  List.filter (fun x => same_key x s0) (map snd r)
  = map snd (List.filter (tied k0) r).
Proof.
  intros E0. induction 1 as [|[k x] r Hk _ IH]; [reflexivity|].
  simpl in Hk. cbn [map List.filter]. unfold tied at 1, same_key at 1.
  cbn [fst snd]. rewrite Hk, E0, IH. destruct (tie k k0); reflexivity.
Qed.

Lemma filter_no_key s0 e (l : list string) :
  alphanum_key s0 = Raise e -> List.filter (fun x => same_key x s0) l = [].
Proof.
  intros E0. induction l as [|x l IH]; [reflexivity|].
  simpl. rewrite IH. unfold same_key. rewrite E0.
  destruct (alphanum_key x); reflexivity.
Qed.

(** X7.  The sort is stable: the names that tie with a given name come
    out in the order in which they were listed. *)
Theorem sorted_alphanumeric_stable (data files : list string) (s0 : string) :
  sorted_alphanumeric data = Ok files ->
  List.filter (fun s => same_key s s0) files
  = List.filter (fun s => same_key s s0) data.
Proof.
  intros E. apply sorted_alphanumeric_keys in E as (keys & Ek & ->).
  destruct (keys_decorated data keys Ek) as [D Ed].
  destruct (alphanum_key s0) as [k0|e] eqn:E0.
  - rewrite (filter_decorated k0 s0 _ E0
               (sort_pure_decorated [] _ (List.Forall_nil _) D)).
    rewrite sort_pure_tied by constructor. cbn [List.filter app].
    rewrite <- (filter_decorated k0 s0 _ E0 D).
    rewrite Ed. reflexivity.
  - rewrite !(filter_no_key s0 e) by exact E0. reflexivity.
Qed.

(** *** Letter case and leading zeros *)

Lemma lower_char_digit c : is_digit (lower_char c) = is_digit c.
Proof. destruct c as [[] [] [] [] [] [] [] []]; reflexivity. Qed.

Lemma lower_char_unicode_digit c :
  is_unicode_digit (lower_char c) = is_unicode_digit c.
Proof. destruct c as [[] [] [] [] [] [] [] []]; reflexivity. Qed.

Lemma lower_char_idem c : lower_char (lower_char c) = lower_char c.
Proof. destruct c as [[] [] [] [] [] [] [] []]; reflexivity. Qed.

Lemma lower_char_of_digit c : is_unicode_digit c = true -> lower_char c = c.
Proof.
  destruct c as [[] [] [] [] [] [] [] []]; try reflexivity;
    intros E; vm_compute in E; discriminate.
Qed.

Lemma lower_idem s : lower (lower s) = lower s.
Proof.
  induction s as [|c s IH]; [reflexivity|].
  simpl. rewrite lower_char_idem, IH. reflexivity.
Qed.

Lemma lower_snoc s c :
  lower (s +:+ String c EmptyString)
  = lower s +:+ String (lower_char c) EmptyString.
Proof.
  induction s as [|a s IH]; [reflexivity|].
  rewrite append_cons. simpl. rewrite IH. reflexivity.
Qed.

Lemma re_split_go_lower s cur (b : bool) :
  re_split_go (lower s) (lower cur) b = map lower (re_split_go s cur b).
Proof.
  revert cur b. induction s as [|c s IH]; intros cur b.
  - simpl. destruct b; reflexivity.
  - simpl. rewrite lower_char_digit.
    destruct (is_digit c), b; simpl; rewrite <- ?lower_snoc;
      try apply IH; f_equal;
      apply (IH (String c EmptyString)).
Qed.

Lemma isdigit_lower s : isdigit (lower s) = isdigit s.
Proof.
  destruct s as [|c s]; [reflexivity|]. simpl.
  rewrite lower_char_unicode_digit.
  f_equal. induction s as [|a s IH]; [reflexivity|].
  simpl. rewrite lower_char_unicode_digit, IH. reflexivity.
Qed.

Lemma lower_of_digits s :
  forallb is_unicode_digit (list_ascii_of_string s) = true -> lower s = s.
Proof.
  induction s as [|c s IH]; [reflexivity|]. simpl.
  intros E. apply andb_prop in E as [Ec Es].
  rewrite (lower_char_of_digit c Ec), IH by exact Es. reflexivity.
Qed.

Lemma convert_lower s : convert (lower s) = convert s.
Proof.
  unfold convert. rewrite isdigit_lower.
  destruct (isdigit s) eqn:E.
  - rewrite lower_of_digits; [reflexivity|].
    destruct s; [discriminate|exact E].
  - rewrite lower_idem. reflexivity.
Qed.

Lemma mapM_map {A B C} (f : B -> result C) (g : A -> B) (l : list A) :
  mapM f (map g l) = mapM (fun a => f (g a)) l.
Proof.
  induction l as [|a l IH]; [reflexivity|].
  cbn [map]. rewrite !mapM_cons, IH. reflexivity.
Qed.

Lemma mapM_ext {A B} (f g : A -> result B) (l : list A) :
  (forall a, f a = g a) -> mapM f l = mapM g l.
Proof.
  intros E. induction l as [|a l IH]; [reflexivity|].
  rewrite !mapM_cons, E, IH. reflexivity.
Qed.

Lemma int_of_digits_zero a :
  int_of_digits (String "0" a) = int_of_digits a.
Proof. reflexivity. Qed.

Lemma same_key_refl s k : alphanum_key s = Ok k -> same_key s s = true.
Proof.
  intros E. unfold same_key, tie. rewrite E, key_ltb_irrefl. reflexivity.
Qed.

(** X8.  The key of a name ignores the case of its letters, and a number
    in it counts by its value, so a leading zero changes nothing: such
    names, when they have a key, tie, and the sort leaves them in listing
    order. *)
Theorem keys_ignore_case_and_zeros (s : string) :
  alphanum_key (lower s) = alphanum_key s /\
  (forall k, alphanum_key s = Ok k -> same_key (lower s) s = true) /\
  (forall p a, no_digit p -> digits a ->
     alphanum_key (p +:+ String "0" a) = alphanum_key (p +:+ a) /\
     (forall k, alphanum_key (p +:+ a) = Ok k ->
        same_key (p +:+ String "0" a) (p +:+ a) = true)).
Proof.
  assert (E : alphanum_key (lower s) = alphanum_key s).
  { unfold alphanum_key, re_split.
    pose proof (re_split_go_lower s EmptyString false) as L.
    change (lower EmptyString) with EmptyString in L.
    rewrite L, mapM_map. apply mapM_ext, convert_lower. }
  split; [exact E|]. split.
  { intros k Ek. unfold same_key. rewrite E.
    apply (same_key_refl s k Ek). }
  intros p a Hp Ha.
  assert (Hz : digits (String "0" a)).
  { split; [discriminate|]. simpl. apply Ha. }
  assert (F : alphanum_key (p +:+ String "0" a) = alphanum_key (p +:+ a)).
  { rewrite !alphanum_key_text_number by assumption.
    rewrite int_of_digits_zero. reflexivity. }
  split; [exact F|].
  intros k Ek. unfold same_key. rewrite F. apply (same_key_refl _ k Ek).
Qed.

(** *** The split loses nothing *)

Lemma concat_cons x (xs : list string) :
  String.concat EmptyString (x :: xs) = x +:+ String.concat EmptyString xs.
Proof.
  destruct xs as [|y ys]; simpl; [symmetry; apply append_empty|reflexivity].
Qed.

Lemma append_assoc' s t u : (s +:+ t) +:+ u = s +:+ (t +:+ u).
Proof.
  induction s as [|c s IH]; [reflexivity|].
  rewrite !append_cons, IH. reflexivity.
Qed.

Lemma re_split_go_concat s cur (b : bool) :
  String.concat EmptyString (re_split_go s cur b) = cur +:+ s.
Proof.
  revert cur b. induction s as [|c s IH]; intros cur b.
  - destruct b; simpl; rewrite ?append_empty; reflexivity.
  - cbn [re_split_go]. destruct (is_digit c), b;
      rewrite ?concat_cons, IH, ?append_char; reflexivity.
Qed.

Lemma re_split_go_alternating s cur (b : bool) :
  (if b then digits cur else no_digit cur) ->
  alternating b (re_split_go s cur b).
Proof.
  revert cur b. induction s as [|c s IH]; intros cur [|] Hcur; simpl.
  - repeat split; try exact Hcur; apply Hcur.
  - split; [exact Hcur|exact I].
  - destruct (is_digit c) eqn:Ec.
    + apply (IH _ true). apply digits_snoc; assumption.
    + simpl. split; [exact Hcur|].
      apply (IH _ false). unfold no_digit. simpl. rewrite Ec. reflexivity.
  - destruct (is_digit c) eqn:Ec.
    + simpl. split; [exact Hcur|].
      apply (IH _ true). split; [discriminate|]. simpl. rewrite Ec.
      reflexivity.
    + apply (IH _ false). apply no_digit_snoc; assumption.
Qed.

Lemma re_split_go_parity s cur (b : bool) :
  Nat.even (length (re_split_go s cur b)) = b.
Proof.
  revert cur b. induction s as [|c s IH]; intros cur b.
  - destruct b; reflexivity.
  - cbn [re_split_go]. destruct (is_digit c), b; cbn [length];
      rewrite ?Nat.even_succ, <- ?Nat.negb_even, ?IH; reflexivity.
Qed.

(** X9.  [re.split] with the captured run of digits loses nothing: the
    pieces put together are the name again; they are alternately a text
    without digits and a non-empty run of digits, starting and ending with
    a text, so their number is odd. *)
Theorem re_split_lossless (key : string) :
  String.concat EmptyString (re_split key) = key /\
  alternating false (re_split key) /\
  Nat.Odd (length (re_split key)).
Proof.
  unfold re_split. split; [apply re_split_go_concat|]. split.
  - apply re_split_go_alternating. reflexivity.
  - apply Nat.odd_spec. rewrite <- Nat.negb_even, re_split_go_parity.
    reflexivity.
Qed.

End NatsortMore.

(** ** More on runs of [main] *)

Section RunMore.
Context {R : Type} `{Scalar R} `{Sklearn R} `{Tracker R} `{Disk R}.
Implicit Types (cfg : Config) (dfs : @tables R) (w : world R) (ch : channel).

Ltac run_io :=
  unfold mbind, IO_bind, mret, IO_ret, lift, print, np_save, to_csv in *;
  cbn [fst snd stdout csv_files npy_files] in *.

(** One turn of the loop, when it returns. *)
Lemma process_video_returns cfg i file dfs w dfs' w' :
  process_video cfg i file dfs w = (Ok dfs', w') ->
  exists t,
    densetrack (read_video file) = Ok t /\
    w' = {| stdout := stdout w ++ progress i file (frames_of file);
            csv_files := csv_files w;
            npy_files := npy_files w
                         ++ (if any_channel cfg then []
                             else [(trajectory_path file, t)]) |}.
Proof.
  unfold process_video, progress, frames_of, trajectory_path. run_io.
  destruct (densetrack (read_video file)) as [t|]; [|discriminate].
  intros E. exists t. split; [reflexivity|].
  destruct (any_channel cfg); cbn [negb] in E.
  - destruct (channel_blocks cfg i t (video_name file) dfs); [|discriminate].
    destruct ((i + 1) mod 10 =? 0); injection E as _ <-; f_equal;
      rewrite <- ?app_assoc, ?app_nil_r; reflexivity.
  - destruct (write_error _ _); [discriminate|].
    destruct ((i + 1) mod 10 =? 0); injection E as _ <-; f_equal;
      rewrite <- ?app_assoc, ?app_nil_r; reflexivity.
Qed.

Lemma process_video_npy cfg i file dfs w :
  any_channel cfg = true ->
  npy_files (snd (process_video cfg i file dfs w)) = npy_files w.
Proof.
  intros Ec. unfold process_video. run_io. rewrite Ec. cbn [negb].
  destruct (densetrack (read_video file)) as [t|]; [|reflexivity].
  destruct (channel_blocks cfg i t (video_name file) dfs); [|reflexivity].
  destruct ((i + 1) mod 10 =? 0); reflexivity.
Qed.

Lemma corpus_loop_npy cfg i files dfs w :
  any_channel cfg = true ->
  npy_files (snd (corpus_loop cfg i files dfs w)) = npy_files w.
Proof.
  intros Ec. revert i dfs w.
  induction files as [|file files IH]; intros i dfs w; [reflexivity|].
  simpl. unfold mbind, IO_bind.
  pose proof (process_video_npy cfg i file dfs w Ec) as P.
  destruct (process_video cfg i file dfs w) as [[dfs'|e] w1]; simpl in P.
  - rewrite IH. exact P.
  - exact P.
Qed.

(** The loop, when it returns: what it printed and what it saved. *)
Lemma corpus_loop_returns cfg i files dfs w dfs' w' :
  corpus_loop cfg i files dfs w = (Ok dfs', w') ->
  exists ts,
    Forall2 (fun file t => densetrack (read_video file) = Ok t) files ts /\
    stdout w' = stdout w ++ progress_of frames_of i files /\
    csv_files w' = csv_files w /\
    npy_files w'
    = npy_files w
      ++ (if any_channel cfg then []
          else combine (map trajectory_path files) ts).
Proof.
  revert i dfs w. induction files as [|file files IH]; intros i dfs w E.
  - injection E as _ <-. exists []. simpl.
    rewrite !app_nil_r. destruct (any_channel cfg); rewrite ?app_nil_r; auto.
  - simpl in E. unfold mbind, IO_bind in E.
    destruct (process_video cfg i file dfs w) as [[d1|e] w1] eqn:E1;
      [|discriminate].
    apply process_video_returns in E1 as (t & Et & ->).
    destruct (IH _ _ _ E) as (ts & F & So & Sc & Sn).
    exists (t :: ts). cbn [stdout csv_files npy_files] in So, Sc, Sn.
    split; [constructor; assumption|].
    rewrite So, Sc, Sn. cbn [progress_of map combine].
    rewrite <- !app_assoc. destruct (any_channel cfg); auto.
Qed.

(** On a disk that takes every write, the bypass loop returns whenever
    the tracker does. *)
Lemma corpus_loop_bypass cfg i files ts dfs w :
  (forall w0 p, write_error w0 p = None) ->
  any_channel cfg = false ->
  Forall2 (fun file t => densetrack (read_video file) = Ok t) files ts ->
  exists w', corpus_loop cfg i files dfs w = (Ok dfs, w').
Proof.
  intros Hd Ec F. revert i w.
  induction F as [|file t files ts Et _ IH]; intros i w.
  - eexists. reflexivity.
  - simpl. unfold mbind at 1. unfold IO_bind.
    assert (E : exists w1, process_video cfg i file dfs w = (Ok dfs, w1)).
    { unfold process_video. run_io. rewrite Et, Ec. cbn [negb].
      rewrite Hd.
      destruct ((i + 1) mod 10 =? 0); eexists; reflexivity. }
    destruct E as [w1 ->]. apply IH.
Qed.

(** X10.  What a run leaves alone: it never writes the table of a
    disabled channel, and with some channel enabled it never saves raw
    trajectories. *)
Theorem outputs_left_alone cfg listing w ch :
  (enabled cfg ch = false ->
   List.filter (fun e => String.eqb (fst e) (csv_path ch))
               (csv_files (snd (main cfg listing w)))
   = List.filter (fun e => String.eqb (fst e) (csv_path ch)) (csv_files w)) /\
  (any_channel cfg = true ->
   npy_files (snd (main cfg listing w)) = npy_files w).
Proof.
  split.
  - intros Hd. destruct (main cfg listing w) as [r w'] eqn:E. simpl.
    destruct (main_csv cfg listing w r w' E)
      as [->|(files & dfs & w1 & n & _ & _ & ->)]; [reflexivity|].
    rewrite List.filter_app.
    destruct (written_firstn_filter cfg dfs ch n) as [->|(_ & He & _)];
      [apply app_nil_r|congruence].
  - intros Ec. destruct listing as [|f listing].
    + rewrite main_empty. reflexivity.
    + rewrite main_listing.
      destruct (Natsort.sorted_alphanumeric (f :: listing)) as [files|e0];
        [|reflexivity].
      pose proof (corpus_loop_npy cfg 0 files new_tables w Ec) as P.
      destruct (corpus_loop cfg 0 files new_tables w) as [[dfs|e1] w1];
        simpl in P; [|exact P].
      rewrite save_tables_bound.
      destruct (save_all (written cfg dfs) w1) as [r w2] eqn:Es.
      destruct (save_all_run _ _ _ _ Es) as (n & _ & _ & En & _).
      simpl. rewrite En. exact P.
Qed.

(** X11.  With no channel enabled the script only saves raw trajectories:
    over a listing of ASCII names whose videos the tracker all handles,
    on a disk that takes every write, [main] returns, writes no table and
    has saved each video's trajectories under
    [features/<name>-trajectory], in sorted order; on an empty listing it
    returns after its message. *)
Theorem bypass_saves_tracks cfg listing files ts w :
  any_channel cfg = false ->
  Forall Natsort.is_ascii listing ->
  (forall w0 p, write_error w0 p = None) ->
  Natsort.sorted_alphanumeric listing = Ok files ->
  Forall2 (fun file t => densetrack (read_video file) = Ok t) files ts ->
  exists w',
    main cfg listing w = (Ok tt, w') /\
    csv_files w' = csv_files w /\
    npy_files w' = npy_files w ++ combine (map trajectory_path files) ts.
Proof.
  intros Ec _ Hd Es F. destruct listing as [|f listing].
  - injection Es as <-. inversion F; subst.
    rewrite main_empty, Ec. eexists. split; [reflexivity|].
    simpl. rewrite app_nil_r. auto.
  - rewrite main_listing, Es.
    destruct (corpus_loop_bypass cfg 0 files ts new_tables w Hd Ec F)
      as [w1 E1].
    rewrite E1, save_tables_bound.
    destruct (corpus_loop_returns _ _ _ _ _ _ _ E1) as (ts' & F' & _ & Sc & Sn).
    rewrite Ec in Sn.
    assert (ts' = ts) as ->.
    { clear - F F'. revert ts' F'.
      induction F as [|file t files ts Et _ IH]; intros ts' F';
        inversion F'; subst; [reflexivity|].
      f_equal; [congruence|apply IH; assumption]. }
    assert (W : written cfg (@new_tables R) = []).
    { unfold written. simpl.
      unfold any_channel in Ec. apply orb_false_iff in Ec as [Ec E3].
      apply orb_false_iff in Ec as [E1' E2]. rewrite E1', E2, E3.
      reflexivity. }
    rewrite W. eexists. split; [reflexivity|]. auto.
Qed.

(** X12.  A run over a non-empty listing of ASCII names that returns has
    printed, for every video in sorted order, the separator, the
    [Running] line and the [Completed] line, and the count of files after
    every tenth video. *)
Theorem progress_printed cfg f listing files w w' :
  Forall Natsort.is_ascii (f :: listing) ->
  main cfg (f :: listing) w = (Ok tt, w') ->
  Natsort.sorted_alphanumeric (f :: listing) = Ok files ->
  stdout w' = stdout w ++ progress_of frames_of 0 files /\
  length (List.filter (fun m => match m with Completed _ => true
                                           | _ => false end)
                      (progress_of frames_of 0 files)) = length files.
Proof.
  intros _ E Es. split.
  - rewrite main_listing, Es in E.
    destruct (corpus_loop cfg 0 files new_tables w) as [[dfs|e1] w1] eqn:E1;
      [|discriminate].
    rewrite save_tables_bound in E.
    destruct (save_all_run _ _ _ _ E) as (n & _ & So' & _).
    destruct (corpus_loop_returns _ _ _ _ _ _ _ E1) as (ts & _ & So & _).
    rewrite So'. exact So.
  - generalize 0 as i. clear. induction files as [|file files IH]; intros i;
      [reflexivity|].
    cbn [progress_of]. rewrite List.filter_app, length_app, IH.
    unfold progress. destruct ((i + 1) mod 10 =? 0); reflexivity.
Qed.

End RunMore.

(** ** Names of videos *)

Module OsPathFacts.
Import OsPath NatsortFacts.

Lemma tail_go_plain p cur : without slash p -> tail_go p cur = cur +:+ p.
Proof.
  revert cur. induction p as [|c p IH]; intros cur Hp.
  - rewrite append_empty. reflexivity.
  - unfold without in Hp. simpl in Hp. apply andb_prop in Hp as [Hc Hp].
    apply negb_true_iff in Hc. simpl. rewrite Hc, IH by exact Hp.
    apply append_char.
Qed.

Lemma tail_go_dir d p cur :
  tail_go (d +:+ String slash p) cur = tail_go p EmptyString.
Proof.
  revert cur. induction d as [|c d IH]; intros cur.
  - reflexivity.
  - rewrite append_cons. simpl. destruct (Ascii.eqb c slash); apply IH.
Qed.

Lemma rfind_dot_app l1 l2 i found :
  rfind_dot (l1 ++ l2) i found
  = rfind_dot l2 (i + length l1) (rfind_dot l1 i found).
Proof.
  revert i found. induction l1 as [|c l1 IH]; intros i found; simpl.
  - rewrite Nat.add_0_r. reflexivity.
  - rewrite IH. f_equal. lia.
Qed.

Lemma rfind_dot_plain l i found :
  forallb (fun a => negb (Ascii.eqb a dot)) l = true ->
  rfind_dot l i found = found.
Proof.
  revert i found. induction l as [|c l IH]; intros i found Hl; [reflexivity|].
  simpl in Hl |- *. apply andb_prop in Hl as [Hc Hl].
  apply negb_true_iff in Hc. rewrite Hc. apply IH, Hl.
Qed.

Lemma splitext_root_ext base ext :
  without dot ext -> not_only dot base ->
  splitext_root (base +:+ String dot ext) = base.
Proof.
  intros He Hb. unfold splitext_root.
  rewrite chars_app. cbn [list_ascii_of_string].
  rewrite rfind_dot_app. cbn [rfind_dot]. rewrite Ascii.eqb_refl.
  rewrite (rfind_dot_plain _ _ _ He). cbn [Nat.add].
  rewrite firstn_app, firstn_all, Nat.sub_diag. cbn [firstn].
  rewrite app_nil_r, Hb. apply string_of_list_ascii_of_string.
Qed.

(** X13.  The name of a video is its file name without the directory part
    and without the last extension, so files that differ only in their
    extension give rows of one name. *)
Theorem video_name_drops_extension (base ext : string) :
  without slash base -> without slash ext ->
  without dot ext -> not_only dot base ->
  video_name (base +:+ String dot ext) = base /\
  (forall dir,
     video_name (dir +:+ String slash (base +:+ String dot ext)) = base) /\
  (forall ext',
     without slash ext' -> without dot ext' ->
     video_name (base +:+ String dot ext')
     = video_name (base +:+ String dot ext)).
Proof.
  intros Sb Se De Nb.
  assert (P : forall e, without slash e ->
                        without slash (base +:+ String dot e)).
  { intros e Hs. unfold without. rewrite chars_app, forallb_app.
    unfold without in Sb. rewrite Sb. simpl. exact Hs. }
  assert (V : forall e, without slash e -> without dot e ->
                        video_name (base +:+ String dot e) = base).
  { intros e Hs Hd. unfold video_name, split_tail.
    rewrite tail_go_plain by apply P, Hs.
    change (EmptyString +:+ (base +:+ String dot e))
      with (base +:+ String dot e).
    apply splitext_root_ext; assumption. }
  split; [apply V; assumption|]. split.
  - intros dir. unfold video_name, split_tail. rewrite tail_go_dir.
    apply (V ext Se De).
  - intros ext' Hs Hd. rewrite !V by assumption. reflexivity.
Qed.

End OsPathFacts.

(** ** Where a run stops, and what the encoder refuses *)

Section StopFacts.
Context {R : Type} `{Scalar R} `{Sklearn R} `{Tracker R} `{Disk R}.
Implicit Types (cfg : Config) (dfs : @tables R) (w : world R).

(** X15.  The loop stops at the first video the tracker fails on: after
    the videos before it have gone through, the run raises the tracker's
    exception, having printed only the separator and the [Running] line
    for that video; the videos after it are not touched. *)
Theorem loop_stops_at_tracker_failure cfg i pre file post dfs w dfs1 w1 e :
  corpus_loop cfg i pre dfs w = (Ok dfs1, w1) ->
  densetrack (read_video file) = Raise e ->
  corpus_loop cfg i (pre ++ file :: post) dfs w
  = (Raise e,
     {| stdout := stdout w1
                  ++ [Separator; Running file (frames_of file)];
        csv_files := csv_files w1;
        npy_files := npy_files w1 |}).
Proof.
  intros E1 Et. rewrite corpus_loop_app, E1. simpl.
  unfold mbind at 1. unfold IO_bind.
  unfold process_video, frames_of.
  unfold mbind, IO_bind, mret, IO_ret, lift, print.
  cbn [fst snd stdout csv_files npy_files]. rewrite Et.
  rewrite <- app_assoc. reflexivity.
Qed.

Lemma ew1_mismatch (op : R -> R -> R) (u v : list R) :
  2 <= length u -> 2 <= length v -> length u <> length v ->
  Np.ew1 op u v = Raise ValueError.
Proof.
  intros Hu Hv Hne. unfold Np.ew1, Np.broadcast.
  destruct (Nat.eqb_spec (length u) (length v)); [contradiction|].
  destruct u as [|a [|a' u]]; simpl in Hu; try lia.
  destruct v as [|b [|b' v]]; simpl in Hv; try lia.
  reflexivity.
Qed.

(** X16.  The encoder does not accept a weight vector that does not match
    the responsibilities: with [Kn >= 2] components in [Q] and a weight
    vector of another length, itself at least 2, numpy cannot broadcast the
    subtraction and [fisher_vector] raises [ValueError]. *)
Theorem fisher_vector_rejects_weights (N Kn d : nat) (X Qm : list (list R))
        (g : GaussianMixture R) :
  1 <= N -> 2 <= Kn ->
  Np.mshape N d X ->
  predict_proba g X = Ok Qm -> Np.mshape N Kn Qm ->
  2 <= length (weights_ g) -> length (weights_ g) <> Kn ->
  fisher_vector X g = Raise ValueError.
Proof.
  intros HN HK HX HQ HQs Hw Hne.
  unfold fisher_vector, fisher_gradients. rewrite HQ.
  replace (length X) with N by (symmetry; apply HX).
  rewrite (tab2_of_matrix N d X HX), (tab2_of_matrix N Kn Qm HQs).
  cbn [mbind result_bind].
  rewrite sum_axis0_tab2, newaxis_tab1 by assumption.
  rewrite transpose_tab2 by assumption.
  unfold Np.square, Np.div_int. rewrite !map_map_tab2.
  rewrite !dot_tab2 by (assumption || lia). cbn [mbind result_bind].
  rewrite squeeze_tab2, ew1_mismatch; [reflexivity| | |].
  - rewrite tab1_length. exact HK.
  - exact Hw.
  - rewrite tab1_length. auto.
Qed.

End StopFacts.

(** ** The order of the rows, and the blocks the channels read *)

Section OrderFacts.
Context {R : Type} `{Scalar R} `{Sklearn R} `{Tracker R} `{Disk R}.
Implicit Types (cfg : Config) (w : world R) (ch : channel).


Lemma nth_error_last {A} (l : list A) (d : A) :
  l <> [] -> nth_error l (length l - 1) = Some (List.last l d).
Proof.
  induction l as [|a [|b l] IH]; [contradiction|reflexivity|].
  intros _. replace (length (a :: b :: l) - 1) with (S (length (b :: l) - 1))
    by (simpl; lia).
  cbn [nth_error]. rewrite IH by discriminate. reflexivity.
Qed.

(** X18.  On records laid out as the specification has them, ending in
    the blocks HOG, HOF, MBH-X, MBH-Y, every extractor reads the field
    before the one it is named after: [read_hof] returns the HOG blocks,
    [read_mbh] the HOF and the MBH-X blocks, and [read_hog] the last
    field of the metadata, raising [IndexError] on a record without
    metadata. *)
Theorem extractors_on_records (batch : list (TrajectoryRecord R)) :
  read_hof (map as_tuple batch) = Ok (Nd.of_matrix (map hog batch)) /\
  read_mbh (map as_tuple batch)
  = Ok (Nd.of_matrix (map hof batch), Nd.of_matrix (map mbh_x batch)) /\
  (Forall (fun r => metadata r <> []) batch ->
   read_hog (map as_tuple batch)
   = Ok (Arr (map (fun r => List.last (metadata r) (Arr [])) batch))) /\
  (Exists (fun r => metadata r = []) batch ->
   read_hog (map as_tuple batch) = Raise IndexError).
Proof.
  split; [|split; [|split]].
  - unfold read_hof, read_block, Nd.of_matrix.
    induction batch as [|r batch IH]; [reflexivity|].
    cbn [map]. rewrite NatsortFacts.mapM_cons.
    rewrite (field_of_tuple r 4 (Nd.of_vector (hog r))) by
      (try reflexivity; lia).
    cbn [mbind result_bind].
    destruct (mapM (fun record => field_from_end record 4)
                   (map as_tuple batch)) as [l|]; [|discriminate].
    cbn [mbind result_bind] in *. injection IH as ->. reflexivity.
  - destruct (read_block_records batch) as [E3 E2].
    unfold read_mbh. rewrite E3, E2. reflexivity.
  - intros Hm. unfold read_hog, read_block.
    induction Hm as [|r batch Hr _ IH]; [reflexivity|].
    cbn [map]. rewrite NatsortFacts.mapM_cons.
    assert (Ef : field_from_end (as_tuple r) 5
                 = Ok (List.last (metadata r) (Arr []))).
    { unfold field_from_end, as_tuple. rewrite length_app. cbn [length].
      destruct (Nat.leb_spec 5 (length (metadata r) + 4));
        [|destruct (metadata r); [contradiction|simpl in *; lia]].
      rewrite nth_error_app1
        by (destruct (metadata r); [contradiction|simpl; lia]).
      replace (length (metadata r) + 4 - 5) with (length (metadata r) - 1)
        by lia.
      rewrite (nth_error_last _ (Arr [])) by exact Hr. reflexivity. }
    rewrite Ef. cbn [mbind result_bind].
    destruct (mapM (fun record => field_from_end record 5)
                   (map as_tuple batch)) as [l|]; [|discriminate].
    cbn [mbind result_bind] in *. injection IH as ->. reflexivity.
  - intros Hm. unfold read_hog, read_block.
    induction Hm as [r batch Hr|r batch _ IH]; cbn [map];
      rewrite NatsortFacts.mapM_cons.
    + assert (Ef : field_from_end (as_tuple r) 5 = Raise IndexError).
      { unfold field_from_end, as_tuple. rewrite Hr. reflexivity. }
      rewrite Ef. reflexivity.
    + destruct (field_from_end (as_tuple r) 5) as [x|e] eqn:Ef.
      * cbn [mbind result_bind].
        destruct (mapM (fun record => field_from_end record 5)
                       (map as_tuple batch)) as [l|e]; [discriminate|].
        cbn [mbind result_bind] in *. exact IH.
      * unfold field_from_end in Ef.
        destruct (_ <=? _); [|injection Ef as <-; reflexivity].
        destruct (nth_error _ _); [discriminate|].
        injection Ef as <-. reflexivity.
Qed.

End OrderFacts.

(** ** The further properties on concrete inputs *)

(** X1 on three records of eleven fields, the field at [-5]. *)
Lemma read_block_fields_witness :
  exists l, read_block 5 (Sample.batch 3 4) = Ok (Arr l) /\ length l = 3.
Proof.
  destruct (read_block_fields 5 (Sample.batch 3 4)) as [F _]; [lia|].
  destruct F as (l & E & L & _).
  - unfold Sample.batch. simpl. repeat constructor.
  - exists l. split; [exact E|exact L].
Defined.

(** X2 on three records whose blocks hold four numbers. *)
Lemma read_block_shape_witness :
  exists d, read_block 5 (Sample.batch 3 4) = Ok d /\
            Nd.has_shape [3; 4] d.
Proof.
  destruct (read_block_shape 5 [4] (Sample.batch 3 4)) as (d & E & S & _).
  - discriminate.
  - unfold Sample.batch. cbn [map seq].
    repeat apply List.Forall_cons; try apply List.Forall_nil;
      (split; [vm_compute; lia|]);
      (eexists; split; [vm_compute; reflexivity|]);
      apply has_shapeb_true; vm_compute; reflexivity.
  - exists d. split; [exact E|exact S].
Defined.

(** X3 on a vector of three numbers. *)
Lemma fisher_descriptor_needs_matrix_witness :
  fisher_descriptor Sample.small_config Sample.state
                    (Nd.of_vector [1; 2; 3]%Q)
  = Raise IndexError.
Proof.
  apply fisher_descriptor_needs_matrix. vm_compute. lia.
Defined.

(** X4 on three trajectories with 2 x 2 patches and [K = 2]. *)
Lemma fisher_descriptor_patches_witness :
  exists fv,
    fisher_descriptor Sample.small_config Sample.state Sample.small_patches
    = Ok fv /\
    length fv = 10.
Proof.
  destruct (fisher_descriptor_patches Sample.small_config Sample.state
              3 [2; 2] Sample.small_patches) as (_ & F & _).
  - exact sample_shapes.
  - apply has_shapeb_true. vm_compute. reflexivity.
  - vm_compute. reflexivity.
  - simpl. lia.
  - simpl. lia.
  - let Y := eval vm_compute in
               (Sample.pca 2 (flatten_rows Sample.small_patches)) in
    match Y with
    | Ok ?m =>
        destruct (F m (Sample.fitted 2 2) (Sample.responsibilities 3 2))
          as (fv & E & _ & L);
          [vm_compute; reflexivity..|]
    end.
    exists fv. split; [exact E|exact L].
Defined.

(** X5: a vector of one number appended under two labels. *)
Lemma add_row_contents_witness :
  add_row_to_table (add_row_to_table new_frame "a" [1; 2]%Q) "b" [3]%Q
  = {| columns := ["name"; "0"; "1"]%string;
       rows := [[CStr "a"; CFloat 1%Q; CFloat 2%Q];
                [CStr "b"; CFloat 3%Q; CNaN]] |}.
Proof.
  destruct (add_row_contents (add_row_to_table new_frame "a" [1; 2]%Q)
              "b" [3]%Q) as [_ P].
  rewrite (P 2); reflexivity.
Defined.

(** X6 on two entries of different lengths. *)
Lemma add_rows_append_only_witness :
  rectangular (add_rows (@new_frame Q)
                        [("a", [1; 2]%Q); ("b", [3]%Q)]%string).
Proof.
  apply add_rows_append_only. constructor.
Defined.

(** X7 on three names that tie and one that does not. *)
Lemma sorted_alphanumeric_stable_witness :
  Natsort.sorted_alphanumeric ["clip2"; "Clip2"; "clip10"; "CLIP2"]%string
  = Ok ["clip2"; "Clip2"; "CLIP2"; "clip10"]%string /\
  List.filter (fun s => same_key s "clip2")
              ["clip2"; "Clip2"; "CLIP2"; "clip10"]%string
  = List.filter (fun s => same_key s "clip2")
                ["clip2"; "Clip2"; "clip10"; "CLIP2"]%string.
Proof.
  split; [reflexivity|].
  apply NatsortMore.sorted_alphanumeric_stable. reflexivity.
Defined.

(** X8 on [clip007] and [clip07]. *)
Lemma keys_ignore_case_and_zeros_witness :
  same_key "clip007" "clip07" = true.
Proof.
  destruct (NatsortMore.keys_ignore_case_and_zeros "clip"%string)
    as (_ & _ & P).
  destruct (P "clip"%string "07"%string) as [_ E].
  - reflexivity.
  - split; [discriminate|reflexivity].
  - eapply E. vm_compute. reflexivity.
Defined.

(** X10: with every channel off no table is written. *)
Lemma outputs_left_alone_witness :
  List.filter (fun e => String.eqb (fst e) (csv_path HOG))
    (csv_files (snd (main Cases.raw_config ["a.avi"]%string
                          (@new_world Q))))
  = [].
Proof.
  destruct (outputs_left_alone Cases.raw_config ["a.avi"]%string
              (@new_world Q) HOG) as [P _].
  rewrite P; reflexivity.
Defined.

(** X11 on two videos. *)
Lemma bypass_saves_tracks_witness :
  exists w',
    main Cases.raw_config ["b10.avi"; "b2.avi"]%string (@new_world Q)
    = (Ok tt, w') /\
    map fst (npy_files w')
    = ["features/b2-trajectory"; "features/b10-trajectory"]%string.
Proof.
  destruct (bypass_saves_tracks Cases.raw_config
              ["b10.avi"; "b2.avi"]%string ["b2.avi"; "b10.avi"]%string
              [Sample.batch 3 4; Sample.batch 3 4] (@new_world Q))
    as (w' & E & _ & N).
  - reflexivity.
  - repeat constructor.
  - reflexivity.
  - reflexivity.
  - repeat constructor.
  - exists w'. split; [exact E|]. rewrite N. reflexivity.
Defined.

(** X12 on two videos. *)
Lemma progress_printed_witness :
  exists w',
    main Sample.small_config ["b10.avi"; "b2.avi"]%string (@new_world Q)
    = (Ok tt, w') /\
    stdout w'
    = [Separator; Running "b2.avi" 3; Completed "b2.avi";
       Separator; Running "b10.avi" 3; Completed "b10.avi"].
Proof.
  let w' := eval vm_compute in
              (snd (main Sample.small_config
                         ["b10.avi"; "b2.avi"]%string new_world)) in
  assert (E : main Sample.small_config ["b10.avi"; "b2.avi"]%string
                   (@new_world Q) = (Ok tt, w'))
    by (vm_compute; reflexivity);
  exists w'; split; [exact E|];
  destruct (progress_printed Sample.small_config "b10.avi"%string
              ["b2.avi"%string] ["b2.avi"; "b10.avi"]%string
              new_world w') as [P _];
    [repeat constructor|exact E|reflexivity|];
  rewrite P; reflexivity.
Defined.

(** X13 on [clip10.avi] and on a name with two dots. *)
Lemma video_name_drops_extension_witness :
  video_name "clip10.avi" = "clip10"%string /\
  video_name "clip.v2.mp4" = "clip.v2"%string.
Proof.
  split.
  - destruct (OsPathFacts.video_name_drops_extension
                "clip10"%string "avi"%string) as [E _];
      [reflexivity..|exact E].
  - destruct (OsPathFacts.video_name_drops_extension
                "clip.v2"%string "mp4"%string) as [E _];
      [reflexivity..|exact E].
Defined.

(** X15 with a tracker that fails on the first video. *)
Lemma loop_stops_at_tracker_failure_witness :
  fst (@corpus_loop Q _ _ Cases.tracker _ Sample.small_config 0
                    ["a.avi"; "b.avi"]%string new_tables new_world)
  = Raise (ExternalError "densetrack").
Proof.
  rewrite (@loop_stops_at_tracker_failure Q _ _ Cases.tracker _
             Sample.small_config 0 [] "a.avi"%string ["b.avi"%string]
             new_tables new_world new_tables new_world
             (ExternalError "densetrack")).
  - reflexivity.
  - reflexivity.
  - reflexivity.
Defined.

(** X16 on three weights against two components. *)
Lemma fisher_vector_rejects_weights_witness :
  @fisher_vector Q _ Cases.sklearn (Sample.descriptors 3 2) Cases.odd_mixture
  = Raise ValueError.
Proof.
  apply (@fisher_vector_rejects_weights Q _ Cases.sklearn 3 2 2
           (Sample.descriptors 3 2) (Sample.responsibilities 3 2)
           Cases.odd_mixture).
  - lia.
  - lia.
  - apply mshapeb_true. vm_compute. reflexivity.
  - reflexivity.
  - apply mshapeb_true. vm_compute. reflexivity.
  - simpl. lia.
  - simpl. lia.
Defined.


(** X18 on two records with the widths of the specification. *)
Lemma extractors_on_records_witness :
  read_hof (map as_tuple (firstn 2 Cases.trajectories))
  = Ok (Nd.of_matrix (map hog (firstn 2 Cases.trajectories))) /\
  read_hog (map as_tuple (firstn 2 Cases.trajectories))
  = Ok (Nd.of_vector [0; 1]%Q).
Proof.
  destruct (extractors_on_records (firstn 2 Cases.trajectories))
    as (E & _ & F & _).
  split; [exact E|]. rewrite F; [reflexivity|].
  repeat constructor; discriminate.
Defined.
